(** * incognitomail: persistence engine, token generator, mail-system
      synchronizer, command parsing and command loop, embedded in Rocq.

    The Go sources embedded here are [persistence.go], [random.go],
    [postfixwriter.go], the server file ([SendCommand],
    [handleCommands] and the server operations behind them),
    [ValidConfig] of [config.go] with the writer the server makes from
    the configuration, and the joining of the words of the command line
    in [main.go].

    Conventions.
    - A Go [string] or [[]byte] is a Rocq [string] (a sequence of 8-bit
      characters); a Go [error] value is an [option error], [None] being
      [nil]; a call returns or panics ([outcome]).
    - The bolt store is a finite map from bucket names to buckets, a bucket
      a finite map from keys to values.  Its operations follow bolt's
      contract on arguments and state: a missing bucket is a [nil] handle,
      a method called on a [nil] handle is a nil-pointer dereference (a
      run-time panic), [Put] refuses an empty key, a key above
      [MaxKeySize] and a value above [MaxValueSize], [CreateBucket] refuses
      an empty or an existing name, [DeleteBucket] a missing one; [Update]
      commits what its function did when the function returns [nil] and
      rolls it back otherwise; the commit copies every pair the
      transaction has written into a buffer of [maxAllocSize] bytes, and
      panics on a pair that is longer.  Failures of the store's own
      environment (disk errors, a closed database, a time zone that
      [GobEncode] cannot encode) are outside the model.
    - The clock is an argument: the operations that call
      [time.Now().GobEncode()] take the encoded time [now].
    - The random source is the sequence of bytes it will deliver; it fails
      when it cannot fill the buffer it is given.
    - The mail host is the content of the map file, the runs of
      [postmap], and which of the calls of the operating system fail
      (opening the map file, writing to a file, creating the temporary
      file, renaming it, running [postmap]); the file is read as
      [bufio.Scanner] reads it, line by line, through a buffer of
      [MaxScanTokenSize] bytes.
    - The loops that draw tokens until one is unused take fuel; more fuel
      than the random source has bytes is enough. *)

From Stdlib Require Import ZArith String Ascii List Lia.
From stdpp Require Import base option gmap strings list sorting.

Local Open Scope string_scope.

(** ** Errors *)

Inductive error : Type :=
  (* persistence.go *)
  | ErrEmptySecret
  | ErrEmptyTarget
  | ErrAccountNotFound
  | ErrAccountExists
  | ErrHandleNotFound
  | ErrHandleExists
  (* server *)
  | ErrServerNotStarted
  | ErrLockFileAlreadyExists
  | ErrLockFileNotFound
  | ErrEmptyCommand
  | ErrUnknownCommand
  | ErrWrongCommand
  | ErrInvalidPermission
  (* github.com/boltdb/bolt *)
  | ErrBucketNotFound
  | ErrBucketExists
  | ErrBucketNameRequired
  | ErrKeyRequired
  | ErrKeyTooLarge
  | ErrValueTooLarge
  (* errors of os, os/exec and crypto/rand, named by the failing call *)
  | ErrSystem (call : string).

Global Instance error_eq_dec : EqDecision error.
Proof. solve_decision. Defined.

(** What a Go call does: it returns a value, or it panics. *)
Inductive outcome (A : Type) : Type :=
  | Returns (a : A)
  | Panics.
Arguments Returns {A} a.
Arguments Panics {A}.

Global Instance outcome_eq_dec `{EqDecision A} : EqDecision (outcome A).
Proof. solve_decision. Defined.

(** ** The bolt store *)

Abbreviation bucket := (gmap string string).
Abbreviation DB := (gmap string (gmap string string)).

Module bolt.

Definition MaxKeySize : Z := 32768.
Definition MaxValueSize : Z := Z.shiftl 1 31 - 2.

(** [maxAllocSize = 0x7FFFFFFF]: the size of the buffer into which a
    commit copies a key and its value. *)
Definition maxAllocSize : Z := 2147483647.

(** Result of running code inside a transaction: a value and the
    transaction's view of the store, or a nil-pointer dereference. *)
Inductive txres (A : Type) : Type :=
  | Done (a : A) (db : DB)
  | NilDeref.
Arguments Done {A} a db.
Arguments NilDeref {A}.

Definition Tx (A : Type) : Type := DB → txres A.

Definition ret {A} (a : A) : Tx A := λ db, Done a db.

Definition bind {A B} (m : Tx A) (k : A → Tx B) : Tx B :=
  λ db, match m db with
        | Done a db' => k a db'
        | NilDeref => NilDeref
        end.

(** A [*bolt.Bucket] is the name of a top-level bucket, or [nil].  A
    handle is only ever used while its bucket exists. *)
Definition handle : Type := option string.

(** [tx.Bucket(name)] *)
Definition Bucket (name : string) : Tx handle :=
  λ db, match db !! name with
        | Some _ => Done (Some name) db
        | None => Done None db
        end.

(** [tx.CreateBucket(name)] *)
Definition CreateBucket (name : string) : Tx (option error) :=
  λ db, if decide (name = "") then Done (Some ErrBucketNameRequired) db
        else match db !! name with
             | Some _ => Done (Some ErrBucketExists) db
             | None => Done None (<[name := ∅]> db)
             end.

(** [tx.CreateBucketIfNotExists(name)] *)
Definition CreateBucketIfNotExists (name : string) : Tx (option error) :=
  λ db, if decide (name = "") then Done (Some ErrBucketNameRequired) db
        else match db !! name with
             | Some _ => Done None db
             | None => Done None (<[name := ∅]> db)
             end.

(** [tx.DeleteBucket(name)] *)
Definition DeleteBucket (name : string) : Tx (option error) :=
  λ db, match db !! name with
        | Some _ => Done None (delete name db)
        | None => Done (Some ErrBucketNotFound) db
        end.

(** Run [f] on the bucket behind a handle; a [nil] handle panics. *)
Definition with_bucket {A} (b : handle) (f : string → bucket → Tx A) : Tx A :=
  λ db, match b with
        | None => NilDeref
        | Some name =>
            match db !! name with
            | Some bk => f name bk db
            | None => NilDeref
            end
        end.

(** [b.Get(key)]: [nil] when the key is absent. *)
Definition Get (b : handle) (key : string) : Tx (option string) :=
  with_bucket b (λ _ bk, ret (bk !! key)).

(** [b.Put(key, value)] *)
Definition Put (b : handle) (key value : string) : Tx (option error) :=
  with_bucket b (λ name bk db,
    if decide (key = "") then Done (Some ErrKeyRequired) db
    else if (MaxKeySize <? Z.of_nat (String.length key))%Z
         then Done (Some ErrKeyTooLarge) db
    else if (MaxValueSize <? Z.of_nat (String.length value))%Z
         then Done (Some ErrValueTooLarge) db
    else Done None (<[name := <[key := value]> bk]> db)).

(** [b.Delete(key)]: no error when the key is absent. *)
Definition Delete (b : handle) (key : string) : Tx (option error) :=
  with_bucket b (λ name bk db, Done None (<[name := delete key bk]> db)).

(** Keys come out of a cursor in byte order. *)
Definition key_le (a b : string) : Prop := String.leb a b = true.
Global Instance key_le_dec a b : Decision (key_le a b).
Proof. unfold key_le. apply _. Defined.

Definition keys (bk : bucket) : list string :=
  merge_sort key_le (fst <$> map_to_list bk).

(** [b.ForEach(fn)] with an [fn] that collects the keys. *)
Definition ForEach_keys (b : handle) : Tx (list string) :=
  with_bucket b (λ _ bk, ret (keys bk)).

(** A pair that a commit can copy: key and value together are no longer
    than [maxAllocSize]. *)
Definition pair_fits (key value : string) : Prop :=
  (Z.of_nat (String.length key) + Z.of_nat (String.length value)
   ≤ maxAllocSize)%Z.

(** [tx.Commit()] goes through from [db] to [db']: every pair of [db']
    that [db] does not have, which the transaction has written, can be
    copied.  (The pairs a store already has were committed before.) *)
Definition commits (db db' : DB) : Prop :=
  map_Forall (λ name bk,
    map_Forall (λ key value,
      db !! name ≫= (λ b, b !! key) = Some value ∨ pair_fits key value) bk)
    db'.

Global Instance pair_fits_dec key value : Decision (pair_fits key value).
Proof. unfold pair_fits. apply _. Defined.
Global Instance commits_dec db db' : Decision (commits db db').
Proof. unfold commits. apply _. Defined.

(** [db.Update(fn)]: commit when [fn] returns [nil], roll back when it
    returns an error; a panic inside [fn], or in the commit, rolls back
    and goes on up. *)
Definition Update (fn : Tx (option error)) (db : DB)
  : outcome (option error) * DB :=
  match fn db with
  | Done None db' =>
      if decide (commits db db') then (Returns None, db') else (Panics, db)
  | Done (Some e) _ => (Returns (Some e), db)
  | NilDeref => (Panics, db)
  end.

(** [db.View(fn)]: a read-only transaction, always rolled back.  [fn]
    yields the variables it assigned together with its error. *)
Definition View {A} (fn : Tx A) (db : DB) : outcome A :=
  match fn db with
  | Done a _ => Returns a
  | NilDeref => Panics
  end.

End bolt.

Notation "'do' x <- m ;; k" := (bolt.bind m (λ x, k))
  (at level 10, x name, m at level 99, k at level 200, only parsing).

(** ** persistence.go *)

(** An encoded time: [Time.GobEncode] yields a version byte, eight bytes
    of seconds, four of nanoseconds and two or three of zone offset. *)
Record GobTime : Type := {
  gob : string;
  gob_size : (String.length gob <=? 16)%nat = true;
}.

Definition targetsBucketName : string := "targets".
Definition accountsBucketName : string := "accounts".
Definition handlesBucketName : string := "handles".

(** [OpenIncognitoData], on the content [file] of the database file: the
    three static buckets are created if they are missing. *)
Definition OpenIncognitoData_tx : bolt.Tx (option error) :=
  do err <- bolt.CreateBucketIfNotExists targetsBucketName ;;
  match err with Some e => bolt.ret (Some e) | None =>
  do err <- bolt.CreateBucketIfNotExists accountsBucketName ;;
  match err with Some e => bolt.ret (Some e) | None =>
  do err <- bolt.CreateBucketIfNotExists handlesBucketName ;;
  match err with Some e => bolt.ret (Some e) | None =>
  bolt.ret None
  end end end.

Definition OpenIncognitoData (file : DB) : outcome (option error) * DB :=
  bolt.Update OpenIncognitoData_tx file.

(** [NewAccount]; [NewAccount_tx] is the function it passes to
    [db.Update], and so on for the other operations. *)
Definition NewAccount_tx (now : GobTime) (secret target : string) : bolt.Tx (option error) :=
  do b <- bolt.Bucket secret ;;
  match b with Some _ => bolt.ret (Some ErrAccountExists) | None =>
  do err <- bolt.CreateBucket secret ;;
  match err with Some e => bolt.ret (Some e) | None =>
  do b <- bolt.Bucket targetsBucketName ;;
  do err <- bolt.Put b secret target ;;
  match err with Some e => bolt.ret (Some e) | None =>
  do b <- bolt.Bucket accountsBucketName ;;
  do err <- bolt.Put b secret (gob now) ;;
  match err with Some e => bolt.ret (Some e) | None =>
  bolt.ret None
  end end end end.

Definition NewAccount (now : GobTime) (secret target : string) (db : DB)
  : outcome (option error) * DB :=
  if decide (secret = "") then (Returns (Some ErrEmptySecret), db)
  else if decide (target = "") then (Returns (Some ErrEmptyTarget), db)
  else bolt.Update (NewAccount_tx now secret target) db.

(** [NewAccountHandle] *)
Definition NewAccountHandle_tx (now : GobTime) (secret handle : string) : bolt.Tx (option error) :=
  do b <- bolt.Bucket secret ;;
  match b with None => bolt.ret (Some ErrAccountNotFound) | Some _ =>
  do hb <- bolt.Bucket handlesBucketName ;;
  do h <- bolt.Get hb handle ;;
  match h with Some _ => bolt.ret (Some ErrHandleExists) | None =>
  do err <- bolt.Put b handle (gob now) ;;
  match err with Some e => bolt.ret (Some e) | None =>
  do err <- bolt.Put hb handle (gob now) ;;
  match err with Some e => bolt.ret (Some e) | None =>
  bolt.ret None
  end end end end.

Definition NewAccountHandle (now : GobTime) (secret handle : string) (db : DB)
  : outcome (option error) * DB :=
  if decide (secret = "") then (Returns (Some ErrEmptySecret), db)
  else bolt.Update (NewAccountHandle_tx now secret handle) db.

(** [DeleteAccountHandle]: the error of [db.Update] is dropped. *)
Definition DeleteAccountHandle_tx (secret handle : string) : bolt.Tx (option error) :=
  do b <- bolt.Bucket secret ;;
  match b with None => bolt.ret (Some ErrAccountNotFound) | Some _ =>
  do hb <- bolt.Bucket handlesBucketName ;;
  do _ <- bolt.Delete b handle ;;
  do _ <- bolt.Delete hb handle ;;
  bolt.ret None
  end.

Definition DeleteAccountHandle (secret handle : string) (db : DB)
  : outcome unit * DB :=
  if decide (secret = "") then (Returns (), db)
  else if decide (handle = "") then (Returns (), db)
  else match bolt.Update (DeleteAccountHandle_tx secret handle) db with
       | (Returns _, db') => (Returns (), db')
       | (Panics, db') => (Panics, db')
       end.

(** [GetAccountTarget] *)
Definition GetAccountTarget_tx (secret : string) : bolt.Tx (string * option error) :=
  do b <- bolt.Bucket targetsBucketName ;;
  do t <- bolt.Get b secret ;;
  match t with
  | None => bolt.ret ("", Some ErrAccountNotFound)
  | Some t => bolt.ret (t, None)
  end.

Definition GetAccountTarget (secret : string) (db : DB)
  : outcome (string * option error) :=
  if decide (secret = "") then Returns ("", Some ErrEmptySecret)
  else match bolt.View (GetAccountTarget_tx secret) db with
       | Returns (_, Some e) => Returns ("", Some e)
       | Returns (target, None) => Returns (target, None)
       | Panics => Panics
       end.

(** [HasAccount] *)
Definition HasAccount_tx (secret : string) : bolt.Tx (option error) :=
  do b <- bolt.Bucket accountsBucketName ;;
  do t <- bolt.Get b secret ;;
  match t with
  | None => bolt.ret (Some ErrAccountNotFound)
  | Some _ => bolt.ret None
  end.

Definition HasAccount (secret : string) (db : DB) : outcome bool :=
  if decide (secret = "") then Returns false
  else match bolt.View (HasAccount_tx secret) db with
       | Returns None => Returns true
       | Returns (Some _) => Returns false
       | Panics => Panics
       end.

(** [HasHandleGlobal] *)
Definition HasHandleGlobal_tx (handle : string) : bolt.Tx (option error) :=
  do b <- bolt.Bucket handlesBucketName ;;
  do t <- bolt.Get b handle ;;
  match t with
  | None => bolt.ret (Some ErrAccountNotFound)
  | Some _ => bolt.ret None
  end.

Definition HasHandleGlobal (handle : string) (db : DB) : outcome bool :=
  if decide (handle = "") then Returns false
  else match bolt.View (HasHandleGlobal_tx handle) db with
       | Returns None => Returns true
       | Returns (Some _) => Returns false
       | Panics => Panics
       end.

(** [ListAccountHandles]: the bucket is not tested for [nil] before
    [ForEach] is called on it. *)
Definition ListAccountHandles_tx (secret : string) : bolt.Tx (list string * option error) :=
  do b <- bolt.Bucket secret ;;
  do result <- bolt.ForEach_keys b ;;
  bolt.ret (result, None).

Definition ListAccountHandles (secret : string) (db : DB)
  : outcome (list string * option error) :=
  if decide (secret = "") then Returns ([], Some ErrEmptySecret)
  else match bolt.View (ListAccountHandles_tx secret) db with
       | Returns (_, Some e) => Returns ([], Some e)
       | Returns (result, None) => Returns (result, None)
       | Panics => Panics
       end.

(** [DeleteAccount]: the handles are listed and deleted one by one, each
    in a transaction of its own, then the namespace and the two entries of
    the account are deleted in a last transaction, whose errors are
    dropped. *)
Definition DeleteAccount_tx (secret : string) : bolt.Tx (option error) :=
  do _ <- bolt.DeleteBucket secret ;;
  do b <- bolt.Bucket targetsBucketName ;;
  do _ <- bolt.Delete b secret ;;
  do b <- bolt.Bucket accountsBucketName ;;
  do _ <- bolt.Delete b secret ;;
  bolt.ret None.

(** The loop [for _, v := range handles { a.DeleteAccountHandle(secret, v) }]. *)
Fixpoint deleteHandles (secret : string) (handles : list string) (db : DB)
  : outcome unit * DB :=
  match handles with
  | [] => (Returns (), db)
  | v :: rest =>
      match DeleteAccountHandle secret v db with
      | (Returns _, db') => deleteHandles secret rest db'
      | (Panics, db') => (Panics, db')
      end
  end.

Definition DeleteAccount (secret : string) (db : DB) : outcome unit * DB :=
  if decide (secret = "") then (Returns (), db)
  else match ListAccountHandles secret db with
       | Panics => (Panics, db)
       | Returns (_, Some _) => (Returns (), db)
       | Returns (handles, None) =>
           match deleteHandles secret handles db with
           | (Panics, db1) => (Panics, db1)
           | (Returns _, db1) =>
               match bolt.Update (DeleteAccount_tx secret) db1 with
               | (Returns _, db2) => (Returns (), db2)
               | (Panics, db2) => (Panics, db2)
               end
           end
       end.

(** The store of a freshly created database file, once opened. *)
Definition empty_file : DB := ∅.
Definition fresh_store : DB := (OpenIncognitoData empty_file).2.

(** ** random.go *)

Definition allowedCharacters : string :=
  "abcdefghijklmnopqrstuvwxyzABCDEFGHIJKLMNOPQRSTUVWXYZ0123456789".
Definition allowedCharactersNum : Z := Z.of_nat (String.length allowedCharacters).

(** [uint(math.Ceil(math.Log2(float64(allowedCharactersNum))))]: the least
    [k] with [allowedCharactersNum <= 2^k] (the logarithm of 62 is about
    5.95, far from an integer). *)
Definition bitsPerIndex : Z := Z.log2_up allowedCharactersNum.

(** [uint8(1<<bitsPerIndex - 1)] *)
Definition indexMask : Z := (Z.shiftl 1 bitsPerIndex - 1) mod 256.

(** The secure random source: the bytes it is still going to deliver, in
    order.  [rand.Read(buf)] fills the whole of [buf] or fails; the source
    fails when it cannot fill the buffer. *)
Record RandSource : Type := { tape : list Byte.byte }.

Global Instance byte_eq_dec : EqDecision Byte.byte := Byte.byte_eq_dec.
Global Instance RandSource_eq_dec : EqDecision RandSource.
Proof. solve_decision. Defined.

Definition rand_Read (n : nat) (src : RandSource)
  : option (list Byte.byte) * RandSource :=
  if decide (n ≤ length (tape src))%nat
  then (Some (take n (tape src)), {| tape := drop n (tape src) |})
  else (None, src).

Definition byte_val (b : Byte.byte) : Z := Z.of_N (Byte.to_N b).

(** [int(uint8(buf[i])&indexMask) % allowedCharactersNum] *)
Definition charIndex (b : Byte.byte) : Z :=
  Z.land (byte_val b) indexMask mod allowedCharactersNum.

(** [allowedCharacters[idx]]; an index out of range would be a run-time
    panic ([None]). *)
Definition charOf (b : Byte.byte) : option ascii :=
  String.get (Z.to_nat (charIndex b)) allowedCharacters.

(** The loop over [buf]. *)
Fixpoint fillResult (buf : list Byte.byte) : option (list ascii) :=
  match buf with
  | [] => Some []
  | b :: rest =>
      match charOf b with
      | None => None
      | Some c =>
          match fillResult rest with
          | None => None
          | Some r => Some (c :: r)
          end
      end
  end.

(** [make([]byte, size)] panics on a negative [size]. *)
Definition generateRandomString (size : Z) (src : RandSource)
  : outcome (string * option error) * RandSource :=
  if (size <? 0)%Z then (Panics, src)
  else match rand_Read (Z.to_nat size) src with
       | (None, src') => (Returns ("", Some (ErrSystem "rand.Read")), src')
       | (Some buf, src') =>
           match fillResult buf with
           | Some result => (Returns (string_of_list_ascii result, None), src')
           | None => (Panics, src')
           end
       end.

(** ** postfixwriter.go *)

Record PostfixWriter : Type := { mapFilename : string; domain : string }.

(** The part of the file system and of the host the writer touches: the
    content of the map file ([None] when there is no such file), the map
    contents [postmap] was run on, oldest first, and which calls fail
    while the host is in this state: running [postmap], opening the map
    file ([os.OpenFile]), writing to a file ([WriteString]), creating
    the temporary file ([ioutil.TempFile]), renaming it over the map
    ([os.Rename], which fails for one when the temporary directory is on
    another file system).  Opening for append creates the file, opening
    an absent file otherwise fails. *)
Record MailHost : Type := {
  mapfile : option string;
  postmap_runs : list (option string);
  postmap_fails : bool;
  open_fails : bool;
  write_fails : bool;
  tempfile_fails : bool;
  rename_fails : bool;
}.

Definition newline : ascii := ascii_of_nat 10.
Definition carriage_return : ascii := ascii_of_nat 13.

(** [invokePostmap] *)
Definition invokePostmap (m : MailHost) : option error * MailHost :=
  let m' := {| mapfile := mapfile m;
               postmap_runs := postmap_runs m ++ [mapfile m];
               postmap_fails := postmap_fails m;
               open_fails := open_fails m;
               write_fails := write_fails m;
               tempfile_fails := tempfile_fails m;
               rename_fails := rename_fails m |} in
  if postmap_fails m then (Some (ErrSystem "postmap"), m') else (None, m').

Definition write_mapfile (content : string) (m : MailHost) : MailHost :=
  {| mapfile := Some content;
     postmap_runs := postmap_runs m;
     postmap_fails := postmap_fails m;
     open_fails := open_fails m;
     write_fails := write_fails m;
     tempfile_fails := tempfile_fails m;
     rename_fails := rename_fails m |}.

(** [AddHandle]: the file is opened, and created if it is not there;
    the line is written at its end; [postmap] is run.  The error of each
    of the three is returned, and nothing that was done before is
    undone. *)
Definition AddHandle (p : PostfixWriter) (h t : string) (m : MailHost)
  : (string * option error) * MailHost :=
  if open_fails m then (("", Some (ErrSystem "open")), m)
  else
    let old := default "" (mapfile m) in
    let fullHandle := h +:+ domain p in
    if write_fails m
    then (("", Some (ErrSystem "write")), write_mapfile old m)
    else
      let m1 := write_mapfile
                  (old +:+ fullHandle +:+ " " +:+ t +:+ String newline "") m in
      match invokePostmap m1 with
      | (Some e, m2) => (("", Some e), m2)
      | (None, m2) => ((fullHandle, None), m2)
      end.

(** [bufio.Scanner] with the default split function [ScanLines] and the
    default buffer. *)
Module scanner.

(** [bufio.MaxScanTokenSize]: a line and its newline have to fit in a
    buffer of this size. *)
Definition MaxScanTokenSize : Z := 64 * 1024.

(** The text cut at every newline; what follows the last newline is a
    line when it is not empty. *)
Fixpoint raw_lines (s : string) : list string :=
  match s with
  | EmptyString => []
  | String c s' =>
      if Ascii.eqb c newline then "" :: raw_lines s'
      else match raw_lines s' with
           | [] => [String c ""]
           | l :: ls => String c l :: ls
           end
  end.

(** [dropCR]: one trailing carriage return is dropped. *)
Fixpoint dropCR (l : string) : string :=
  match l with
  | EmptyString => ""
  | String c EmptyString => if Ascii.eqb c carriage_return then "" else l
  | String c l' => String c (dropCR l')
  end.

Definition fits (l : string) : bool :=
  (Z.of_nat (String.length l) <? MaxScanTokenSize)%Z.

(** Scanning ends at the first line that does not fit. *)
Fixpoint scan (ls : list string) : list string :=
  match ls with
  | [] => []
  | l :: rest => if fits l then dropCR l :: scan rest else []
  end.

(** The values [scanner.Text()] takes while [scanner.Scan()] is true. *)
Definition tokens (content : string) : list string := scan (raw_lines content).

End scanner.

(** The lines written to the temporary file, each followed by a newline. *)
Fixpoint write_lines (ls : list string) : string :=
  match ls with
  | [] => ""
  | l :: rest => l +:+ String newline "" +:+ write_lines rest
  end.

Definition keep_line (h l : string) : bool := negb (String.prefix h l).

(** [RemoveHandle]: the errors of opening the map file and of creating
    the temporary file are returned; the results of the writes to the
    temporary file and of the rename are not looked at, so that a
    temporary file that could not be written is renamed over the map as
    it is, and a rename that fails leaves the map as it was; [postmap]
    is run in every case, and its error returned. *)
Definition RemoveHandle (p : PostfixWriter) (h : string) (m : MailHost)
  : option error * MailHost :=
  if open_fails m then (Some (ErrSystem "open"), m)
  else
    match mapfile m with
    | None => (Some (ErrSystem "open"), m)
    | Some content =>
        if tempfile_fails m then (Some (ErrSystem "ioutil.TempFile"), m)
        else
          let t := if write_fails m then ""
                   else write_lines (filter (λ l, keep_line h l = true)
                                       (scanner.tokens content)) in
          invokePostmap (if rename_fails m then m else write_mapfile t m)
    end.

(** The host on which none of the four file operations fails. *)
Definition host_works (m : MailHost) : Prop :=
  open_fails m = false ∧ write_fails m = false ∧
  tempfile_fails m = false ∧ rename_fails m = false.

(** ** The server: parsing, the command loop, the operations *)

Record Server : Type := {
  persistence : DB;
  mailSystemWriter : PostfixWriter;
  host : MailHost;
  rand : RandSource;
}.

Definition set_persistence (db : DB) (s : Server) : Server :=
  {| persistence := db; mailSystemWriter := mailSystemWriter s;
     host := host s; rand := rand s |}.
Definition set_host (m : MailHost) (s : Server) : Server :=
  {| persistence := persistence s; mailSystemWriter := mailSystemWriter s;
     host := m; rand := rand s |}.
Definition set_rand (r : RandSource) (s : Server) : Server :=
  {| persistence := persistence s; mailSystemWriter := mailSystemWriter s;
     host := host s; rand := r |}.

Inductive command : Type :=
  | newHandleCommand (source accountSecret : string)
  | newAccountCommand (source target : string)
  | deleteHandleCommand (source handle secret : string)
  | deleteAccountCommand (source secret : string)
  | terminateCommand.

Global Instance command_eq_dec : EqDecision command.
Proof. solve_decision. Defined.

Definition accountSecretSize : Z := 64.
Definition handleSize : Z := 18.

(** [strings.Fields] cuts at the white space of [unicode.IsSpace], read
    in UTF-8: the six characters of ASCII, one byte each; U+0085 and
    U+00A0, two bytes each; U+1680, U+2000 to U+200A, U+2028, U+2029,
    U+202F, U+205F and U+3000, three bytes each.  The first byte of each
    of these is never a byte within another character, so that a
    space begins where its bytes are found. *)
Definition isSpace (c : ascii) : bool :=
  let n := nat_of_ascii c in
  (Nat.leb 9 n && Nat.leb n 13) || Nat.eqb n 32.

Definition isSpace2 (c1 c2 : ascii) : bool :=
  let n1 := nat_of_ascii c1 in
  let n2 := nat_of_ascii c2 in
  Nat.eqb n1 194 && (Nat.eqb n2 133 || Nat.eqb n2 160).

Definition isSpace3 (c1 c2 c3 : ascii) : bool :=
  let n1 := nat_of_ascii c1 in
  let n2 := nat_of_ascii c2 in
  let n3 := nat_of_ascii c3 in
  (Nat.eqb n1 225 && Nat.eqb n2 154 && Nat.eqb n3 128)
  || (Nat.eqb n1 226 && Nat.eqb n2 128
      && ((Nat.leb 128 n3 && Nat.leb n3 138)
          || Nat.eqb n3 168 || Nat.eqb n3 169 || Nat.eqb n3 175))
  || (Nat.eqb n1 226 && Nat.eqb n2 129 && Nat.eqb n3 159)
  || (Nat.eqb n1 227 && Nat.eqb n2 128 && Nat.eqb n3 128).

(** The number of bytes of the space at the head of [s]; [0] when [s]
    does not begin with a space. *)
Definition space_width (s : string) : nat :=
  match s with
  | String c1 (String c2 (String c3 _)) =>
      if isSpace c1 then 1 else if isSpace2 c1 c2 then 2
      else if isSpace3 c1 c2 c3 then 3 else 0
  | String c1 (String c2 EmptyString) =>
      if isSpace c1 then 1 else if isSpace2 c1 c2 then 2 else 0
  | String c1 EmptyString => if isSpace c1 then 1 else 0
  | EmptyString => 0
  end%nat.

Definition flush (cur : list ascii) (rest : list string) : list string :=
  match cur with
  | [] => rest
  | _ => string_of_list_ascii (rev cur) :: rest
  end.

Fixpoint fields_from (cur : list ascii) (s : string) : list string :=
  match s with
  | EmptyString => flush cur []
  | String c s' =>
      match space_width s, s' with
      | 1%nat, _ => flush cur (fields_from [] s')
      | 2%nat, String _ s2 => flush cur (fields_from [] s2)
      | 3%nat, String _ (String _ s3) => flush cur (fields_from [] s3)
      | _, _ => fields_from (c :: cur) s'
      end
  end.

Definition Fields (s : string) : list string := fields_from [] s.

(** What [SendCommand] does before it waits for the reply: it returns an
    error of its own, or it puts one command on [commandCh], or it puts
    nothing there and goes on to receive from [resultCh], a channel that
    only the command it did not send could have been answered on. *)
Inductive sent : Type :=
  | Fails (e : error)
  | Enqueues (c : command)
  | WaitsForever.

Global Instance sent_eq_dec : EqDecision sent.
Proof. solve_decision. Defined.

Definition dispatch (source : string) (c : list string) : sent :=
  match c with
  | [] => Fails ErrEmptyCommand
  | command :: extra =>
      if decide (command = "new") then
        if decide (length extra ≠ 2%nat) then Fails ErrWrongCommand
        else if decide (nth 0 extra "" = "handle")
             then Enqueues (newHandleCommand source (nth 1 extra ""))
        else if decide (nth 0 extra "" = "account")
             then Enqueues (newAccountCommand source (nth 1 extra ""))
        else Fails ErrWrongCommand
      else if decide (command = "delete") then
        if decide (length extra < 1)%nat then Fails ErrWrongCommand
        else if decide (nth 0 extra "" = "handle") then
          if decide (length extra ≠ 3%nat) then Fails ErrWrongCommand
          else Enqueues (deleteHandleCommand source (nth 1 extra "") (nth 2 extra ""))
        else if decide (nth 0 extra "" = "account") then
          if decide (length extra ≠ 2%nat) then Fails ErrWrongCommand
          else Enqueues (deleteAccountCommand source (nth 1 extra ""))
        else WaitsForever
      else Fails ErrUnknownCommand
  end.

Definition SendCommand_send (source args : string) : sent :=
  dispatch source (Fields args).

(** A server operation returns or panics, and leaves a server state; the
    two loops that draw tokens until one is unused take [fuel], and yield
    [None] when it runs out before the loop ends. *)
Definition reply (A : Type) : Type := outcome (A * option error) * Server.

(** The loop of [NewHandle] *)
Fixpoint freshHandle (fuel : nat) (s : Server) : option (reply string) :=
  match fuel with
  | O => None
  | S fuel' =>
      match generateRandomString handleSize (rand s) with
      | (Panics, r) => Some (Panics, set_rand r s)
      | (Returns (_, Some e), r) => Some (Returns ("", Some e), set_rand r s)
      | (Returns (newHandle, None), r) =>
          match HasHandleGlobal newHandle (persistence s) with
          | Panics => Some (Panics, set_rand r s)
          | Returns false => Some (Returns (newHandle, None), set_rand r s)
          | Returns true => freshHandle fuel' (set_rand r s)
          end
      end
  end.

Definition Server_NewHandle (fuel : nat) (now : GobTime) (accountSecret : string) (s : Server)
  : option (reply string) :=
  match GetAccountTarget accountSecret (persistence s) with
  | Panics => Some (Panics, s)
  | Returns (_, Some e) => Some (Returns ("", Some e), s)
  | Returns (target, None) =>
      match freshHandle fuel s with
      | None => None
      | Some (Panics, s1) => Some (Panics, s1)
      | Some (Returns (_, Some e), s1) => Some (Returns ("", Some e), s1)
      | Some (Returns (newHandle, None), s1) =>
          match NewAccountHandle now accountSecret newHandle (persistence s1) with
          | (Panics, db) => Some (Panics, set_persistence db s1)
          | (Returns (Some e), db) => Some (Returns ("", Some e), set_persistence db s1)
          | (Returns None, db) =>
              let s2 := set_persistence db s1 in
              match AddHandle (mailSystemWriter s2) newHandle target (host s2) with
              | ((_, Some e), m) => Some (Returns ("", Some e), set_host m s2)
              | ((fullHandle, None), m) => Some (Returns (fullHandle, None), set_host m s2)
              end
          end
      end
  end.

(** The loop of [NewAccount] *)
Fixpoint freshSecret (fuel : nat) (s : Server) : option (reply string) :=
  match fuel with
  | O => None
  | S fuel' =>
      match generateRandomString accountSecretSize (rand s) with
      | (Panics, r) => Some (Panics, set_rand r s)
      | (Returns (_, Some e), r) => Some (Returns ("", Some e), set_rand r s)
      | (Returns (secret, None), r) =>
          match HasAccount secret (persistence s) with
          | Panics => Some (Panics, set_rand r s)
          | Returns false => Some (Returns (secret, None), set_rand r s)
          | Returns true => freshSecret fuel' (set_rand r s)
          end
      end
  end.

Definition Server_NewAccount (fuel : nat) (now : GobTime) (target : string) (s : Server)
  : option (reply string) :=
  match freshSecret fuel s with
  | None => None
  | Some (Panics, s1) => Some (Panics, s1)
  | Some (Returns (_, Some e), s1) => Some (Returns ("", Some e), s1)
  | Some (Returns (secret, None), s1) =>
      match NewAccount now secret target (persistence s1) with
      | (Panics, db) => Some (Panics, set_persistence db s1)
      | (Returns (Some e), db) => Some (Returns ("", Some e), set_persistence db s1)
      | (Returns None, db) => Some (Returns (secret, None), set_persistence db s1)
      end
  end.

(** [DeleteHandle]: the error of [RemoveHandle] is dropped. *)
Definition Server_DeleteHandle (secret handle : string) (s : Server)
  : outcome (option error) * Server :=
  match HasAccount secret (persistence s) with
  | Panics => (Panics, s)
  | Returns false => (Returns (Some ErrAccountNotFound), s)
  | Returns true =>
      match DeleteAccountHandle secret handle (persistence s) with
      | (Panics, db) => (Panics, set_persistence db s)
      | (Returns _, db) =>
          let s1 := set_persistence db s in
          let '(_, m) := RemoveHandle (mailSystemWriter s1) handle (host s1) in
          (Returns None, set_host m s1)
      end
  end.

(** The loop of [DeleteAccount] over the account's handles: it ends at
    the first error of [RemoveHandle]. *)
Fixpoint removeHandles (p : PostfixWriter) (handles : list string) (m : MailHost)
  : option error * MailHost :=
  match handles with
  | [] => (None, m)
  | handle :: rest =>
      match RemoveHandle p handle m with
      | (Some e, m') => (Some e, m')
      | (None, m') => removeHandles p rest m'
      end
  end.

Definition Server_DeleteAccount (secret : string) (s : Server)
  : outcome (option error) * Server :=
  match HasAccount secret (persistence s) with
  | Panics => (Panics, s)
  | Returns false => (Returns (Some ErrAccountNotFound), s)
  | Returns true =>
      match ListAccountHandles secret (persistence s) with
      | Panics => (Panics, s)
      | Returns (_, Some e) => (Returns (Some e), s)
      | Returns (handles, None) =>
          match removeHandles (mailSystemWriter s) handles (host s) with
          | (Some e, m) => (Returns (Some e), set_host m s)
          | (None, m) =>
              let s1 := set_host m s in
              match DeleteAccount secret (persistence s1) with
              | (Panics, db) => (Panics, set_persistence db s1)
              | (Returns _, db) => (Returns None, set_persistence db s1)
              end
          end
      end
  end.

Definition Server_ListHandles (secret : string) (s : Server)
  : outcome (list string * option error) :=
  match HasAccount secret (persistence s) with
  | Panics => Panics
  | Returns false => Returns ([], Some ErrAccountNotFound)
  | Returns true =>
      match ListAccountHandles secret (persistence s) with
      | Panics => Panics
      | Returns (_, Some e) => Returns ([], Some e)
      | Returns (handles, None) => Returns (handles, None)
      end
  end.

(** One turn of the loop of [handleCommands]: the loop ends on
    [terminateCommand]; any other command is executed and its result and
    error are sent back. *)
Inductive turn : Type :=
  | Terminated
  | Answered (res : string) (err : option error) (s' : Server)
  | Crashed (s' : Server).

Definition answer_of (success : string) (r : outcome (option error) * Server) : turn :=
  match r with
  | (Panics, s') => Crashed s'
  | (Returns None, s') => Answered success None s'
  | (Returns (Some e), s') => Answered "" (Some e) s'
  end.

Definition answer_with (r : reply string) : turn :=
  match r with
  | (Panics, s') => Crashed s'
  | (Returns (res, err), s') => Answered res err s'
  end.

Definition handleCommand (fuel : nat) (now : GobTime) (s : Server) (c : command)
  : option turn :=
  match c with
  | terminateCommand => Some Terminated
  | newHandleCommand source accountSecret =>
      answer_with <$> Server_NewHandle fuel now accountSecret s
  | newAccountCommand source target =>
      if decide (source = "websocket")
      then Some (Answered "" (Some ErrInvalidPermission) s)
      else answer_with <$> Server_NewAccount fuel now target s
  | deleteHandleCommand source handle secret =>
      if decide (source = "websocket")
      then Some (Answered "" (Some ErrInvalidPermission) s)
      else Some (answer_of "success" (Server_DeleteHandle secret handle s))
  | deleteAccountCommand source secret =>
      if decide (source = "websocket")
      then Some (Answered "" (Some ErrInvalidPermission) s)
      else Some (answer_of "success" (Server_DeleteAccount secret s))
  end.

(** The loop of [handleCommands] on the commands that arrive on
    [commandCh], each with the time at which it is executed: the answers
    sent back, oldest first, and how the loop stands afterwards.  Commands
    queued behind [terminateCommand] are never executed. *)
Inductive actor : Type :=
  | Running (s : Server)
  | Stopped (s : Server)
  | Panicked (s : Server).

Fixpoint handleCommands (fuel : nat) (s : Server) (queue : list (GobTime * command))
  : option (list (string * option error) * actor) :=
  match queue with
  | [] => Some ([], Running s)
  | (now, c) :: rest =>
      match handleCommand fuel now s c with
      | None => None
      | Some Terminated => Some ([], Stopped s)
      | Some (Crashed s') => Some ([], Panicked s')
      | Some (Answered res err s') =>
          match handleCommands fuel s' rest with
          | None => None
          | Some (answers, a) => Some ((res, err) :: answers, a)
          end
      end
  end.

(** [SendCommand] as its caller sees it while the command loop is running
    and idle: the call comes back with a result and an error, or it never
    comes back (nothing answers on [resultCh], or the loop has panicked). *)
Inductive returned : Type :=
  | Back (res : string) (err : option error) (s' : Server)
  | Never (s' : Server).

Definition SendCommand (fuel : nat) (now : GobTime) (source args : string)
    (s : Server) : option returned :=
  match SendCommand_send source args with
  | Fails e => Some (Back "" (Some e) s)
  | WaitsForever => Some (Never s)
  | Enqueues c =>
      match handleCommand fuel now s c with
      | None => None
      | Some (Answered res err s') => Some (Back res err s')
      | Some Terminated => Some (Never s)
      | Some (Crashed s') => Some (Never s')
      end
  end.

(** ** config.go *)

Record generalConfig : Type := {
  MailSystem : string;
  UnixSockPath : string;
  LockFilePath : string;
  ListenPath : string;
  ListenAddress : string;
  TLSCertFile : string;
  TLSKeyFile : string;
}.

(** The field [Type] of the source is [PersistenceType] here. *)
Record persistenceConfig : Type := {
  PersistenceType : string;
  DatabasePath : string;
}.

Record postfixConfig : Type := {
  Domain : string;
  MapFilePath : string;
}.

Record config : Type := {
  General : generalConfig;
  Persistence : persistenceConfig;
  PostfixConfig : postfixConfig;
}.

(** The value [Config] starts with; the global variable is an argument
    of the functions that read it. *)
Definition defaultConfig : config :=
  {| General := {| MailSystem := "postfix";
                   UnixSockPath := "/tmp/incognitomail.sock";
                   LockFilePath := "/var/lock/incognitomail.lock";
                   ListenPath := "/incognitomail";
                   ListenAddress := ":8080";
                   TLSCertFile := "";
                   TLSKeyFile := "" |};
     Persistence := {| PersistenceType := "boltdb";
                       DatabasePath := "incognitomail.db" |};
     PostfixConfig := {| Domain := ""; MapFilePath := "" |} |}.

(** [ValidConfig], on the value of [Config]. *)
Definition ValidConfig (c : config) : bool :=
  let invalid := false in
  let invalid := invalid || negb (String.eqb (MailSystem (General c)) "postfix") in
  let invalid := invalid || String.eqb (UnixSockPath (General c)) "" in
  let invalid := invalid || String.eqb (LockFilePath (General c)) "" in
  let invalid := invalid || String.eqb (ListenPath (General c)) "" in
  let invalid := invalid || String.eqb (ListenAddress (General c)) "" in
  let invalid := invalid || negb (String.eqb (PersistenceType (Persistence c)) "boltdb") in
  let invalid := invalid || String.eqb (DatabasePath (Persistence c)) "" in
  let invalid :=
    if String.eqb (MailSystem (General c)) "postfix"
    then let invalid := invalid || String.eqb (Domain (PostfixConfig c)) "" in
         invalid || String.eqb (MapFilePath (PostfixConfig c)) ""
    else invalid in
  negb invalid.

(** [NewPostfixWriter] *)
Definition NewPostfixWriter (c : config) : PostfixWriter :=
  {| mapFilename := MapFilePath (PostfixConfig c);
     domain := Domain (PostfixConfig c) |}.

(** [mailSystemWriterFromConfig]: [None] is the [nil] interface. *)
Definition mailSystemWriterFromConfig (c : config) : option PostfixWriter :=
  if String.eqb (MailSystem (General c)) "postfix"
  then Some (NewPostfixWriter c)
  else None.

(** ** The command line *)

(** [strings.Join] *)
Fixpoint Join (elems : list string) (sep : string) : string :=
  match elems with
  | [] => ""
  | e :: rest =>
      match rest with
      | [] => e
      | _ => e +:+ sep +:+ Join rest sep
      end
  end.

(** ** Vocabulary of the statements *)

(** The value stored under [key] in the bucket [bucket], if any. *)
Definition entry (db : DB) (bucket key : string) : option string :=
  db !! bucket ≫= (λ b, b !! key).

(** What [OpenIncognitoData] leaves behind: the static buckets exist. *)
Definition opened (db : DB) : Prop :=
  is_Some (db !! targetsBucketName) ∧
  is_Some (db !! accountsBucketName) ∧
  is_Some (db !! handlesBucketName).

(** The store holds an account with secret [S] and target [T]: its
    namespace, its target and its creation time. *)
Definition account_in (db : DB) (S T : string) : Prop :=
  S ≠ "" ∧ is_Some (db !! S) ∧
  entry db targetsBucketName S = Some T ∧
  is_Some (entry db accountsBucketName S).

Definition key_fits (key : string) : Prop :=
  (Z.of_nat (String.length key) ≤ bolt.MaxKeySize)%Z.
Definition value_fits (value : string) : Prop :=
  (Z.of_nat (String.length value) ≤ bolt.MaxValueSize)%Z.

(** Sample data *)
Definition time0 : GobTime := {| gob := "000000000000000"; gob_size := eq_refl |}.
Definition time1 : GobTime := {| gob := "000000000000001"; gob_size := eq_refl |}.
Definition time2 : GobTime := {| gob := "000000000000002"; gob_size := eq_refl |}.

(** A text of [n] letters. *)
Definition long_text (n : Z) : string :=
  string_of_list_ascii (repeat "a"%char (Z.to_nat n)).

Definition long_key : string := long_text (bolt.MaxKeySize + 1).
Definition long_line : string := long_text scanner.MaxScanTokenSize.

Fixpoint has_newline (s : string) : bool :=
  match s with
  | EmptyString => false
  | String c s' => Ascii.eqb c newline || has_newline s'
  end.

Definition sample_writer : PostfixWriter :=
  {| mapFilename := "/etc/postfix/virtual"; domain := "@example.org" |}.

Definition map_with_long_line : string :=
  long_line +:+ String newline
    ("alias@example.org user@example.com" +:+ String newline "").

Definition sample_map : string :=
  "abc@example.org a@example.com" +:+ String newline
    ("xyz@example.org b@example.com" +:+ String newline
       ("abd@example.org c@example.com" +:+ String newline "")).

(** A host with this map file on which every call works. *)
Definition host_with (content : string) : MailHost :=
  {| mapfile := Some content; postmap_runs := []; postmap_fails := false;
     open_fails := false; write_fails := false; tempfile_fails := false;
     rename_fails := false |}.

Definition store_with_account : DB :=
  (NewAccount time0 "testsecret" "testtarget@example.com" fresh_store).2.

Definition store_two_accounts : DB :=
  (NewAccount time1 "othersecret" "other@example.com" store_with_account).2.

Definition store_with_handle : DB :=
  (NewAccountHandle time2 "testsecret" "testhandle1" store_two_accounts).2.

Definition store_after_foreign_delete : DB :=
  (DeleteAccountHandle "othersecret" "testhandle1" store_with_handle).2.

(** Lowercase letters, uppercase letters and digits. *)
Definition isAlnum (c : ascii) : bool :=
  let n := nat_of_ascii c in
  (Nat.leb 97 n && Nat.leb n 122) || (Nat.leb 65 n && Nat.leb n 90)
  || (Nat.leb 48 n && Nat.leb n 57).

Definition sample_tape : list Byte.byte :=
  list_byte_of_string "0123456789abcdefghijklmnopqrstuvwxyz".

Definition sample_server : Server :=
  {| persistence := store_with_handle;
     mailSystemWriter := sample_writer;
     host := host_with sample_map;
     rand := {| tape := sample_tape |} |}.

Definition sample_run : option (list (string * option error) * actor) :=
  handleCommands 3 sample_server
    [(time0, newHandleCommand "websocket" "testsecret");
     (time1, deleteAccountCommand "websocket" "testsecret");
     (time2, deleteAccountCommand "rpc" "testsecret")].

Definition sample_end : option Server :=
  match sample_run with
  | Some (_, Running s') => Some s'
  | _ => None
  end.

(** The calls of the system that return an error value, and the error
    each one returns in a given server state ([None] when it returns
    [nil], panics, or needs more fuel). *)
Inductive call : Type :=
  | Call_OpenIncognitoData
  | Call_NewAccount (now : GobTime) (secret target : string)
  | Call_NewAccountHandle (now : GobTime) (secret handle : string)
  | Call_GetAccountTarget (secret : string)
  | Call_ListAccountHandles (secret : string)
  | Call_generateRandomString (size : Z)
  | Call_AddHandle (h t : string)
  | Call_RemoveHandle (h : string)
  | Call_SendCommand (fuel : nat) (now : GobTime) (source args : string)
  | Call_Server_NewHandle (fuel : nat) (now : GobTime) (accountSecret : string)
  | Call_Server_NewAccount (fuel : nat) (now : GobTime) (target : string)
  | Call_Server_DeleteHandle (secret handle : string)
  | Call_Server_DeleteAccount (secret : string)
  | Call_Server_ListHandles (secret : string)
  | Call_handleCommand (fuel : nat) (now : GobTime) (c : command).

Definition error_in {A} (r : outcome (A * option error)) : option error :=
  match r with
  | Returns (_, err) => err
  | Panics => None
  end.

Definition error_only (r : outcome (option error)) : option error :=
  match r with
  | Returns err => err
  | Panics => None
  end.

Definition error_of (c : call) (s : Server) : option error :=
  match c with
  | Call_OpenIncognitoData => error_only (OpenIncognitoData (persistence s)).1
  | Call_NewAccount now secret target =>
      error_only (NewAccount now secret target (persistence s)).1
  | Call_NewAccountHandle now secret handle =>
      error_only (NewAccountHandle now secret handle (persistence s)).1
  | Call_GetAccountTarget secret =>
      error_in (GetAccountTarget secret (persistence s))
  | Call_ListAccountHandles secret =>
      error_in (ListAccountHandles secret (persistence s))
  | Call_generateRandomString size =>
      error_in (generateRandomString size (rand s)).1
  | Call_AddHandle h t => (AddHandle (mailSystemWriter s) h t (host s)).1.2
  | Call_RemoveHandle h => (RemoveHandle (mailSystemWriter s) h (host s)).1
  | Call_SendCommand fuel now source args =>
      match SendCommand fuel now source args s with
      | Some (Back _ err _) => err
      | _ => None
      end
  | Call_Server_NewHandle fuel now accountSecret =>
      match Server_NewHandle fuel now accountSecret s with
      | Some r => error_in r.1
      | None => None
      end
  | Call_Server_NewAccount fuel now target =>
      match Server_NewAccount fuel now target s with
      | Some r => error_in r.1
      | None => None
      end
  | Call_Server_DeleteHandle secret handle =>
      error_only (Server_DeleteHandle secret handle s).1
  | Call_Server_DeleteAccount secret =>
      error_only (Server_DeleteAccount secret s).1
  | Call_Server_ListHandles secret => error_in (Server_ListHandles secret s)
  | Call_handleCommand fuel now c =>
      match handleCommand fuel now s c with
      | Some (Answered _ err _) => err
      | _ => None
      end
  end.

(** An error value that is not [ErrHandleNotFound]. *)
Definition quiet (e : option error) : Prop := e ≠ Some ErrHandleNotFound.

Definition static (name : string) : Prop :=
  name = targetsBucketName ∨ name = accountsBucketName ∨
  name = handlesBucketName.

(** An opened store with its accounts in order: a secret that
    [accounts] knows is not empty, is not the name of a static bucket and
    has its namespace, and [targets] knows no other secrets. *)
Definition well_kept (db : DB) : Prop :=
  opened db ∧
  (∀ s, is_Some (entry db accountsBucketName s) →
        s ≠ "" ∧ ¬ static s ∧ is_Some (db !! s)) ∧
  (∀ s, is_Some (entry db targetsBucketName s) →
        is_Some (entry db accountsBucketName s)).

(** A new-account command whose target, together with a secret of
    [accountSecretSize] bytes, is of a size that the store can commit. *)
Definition target_fits (c : command) : Prop :=
  match c with
  | newAccountCommand _ target =>
      (accountSecretSize + Z.of_nat (String.length target)
       ≤ bolt.maxAllocSize)%Z
  | _ => True
  end.

(** Every bucket of [db] is still a bucket of [db']. *)
Definition keeps_buckets (db db' : DB) : Prop :=
  ∀ n, is_Some (db !! n) → is_Some (db' !! n).

(** A word of ASCII characters without white space. *)
Definition ascii_word (w : string) : Prop :=
  w ≠ "" ∧
  Forall (λ c, isSpace c = false ∧ (nat_of_ascii c < 128)%nat)
    (list_ascii_of_string w).

(** A configuration file that sets the two values of the postfix
    section, the rest being left to the defaults. *)
Definition sample_config : config :=
  {| General := General defaultConfig;
     Persistence := Persistence defaultConfig;
     PostfixConfig := {| Domain := "@example.org";
                         MapFilePath := "/etc/postfix/virtual" |} |}.





(** A string of [n] letters and digits. *)
Definition alnum_token (n : nat) (w : string) : Prop :=
  String.length w = n ∧
  Forall (λ c, isAlnum c = true) (list_ascii_of_string w).

(** The server state a call of [SendCommand] leaves. *)
Definition state_after (r : returned) : Server :=
  match r with
  | Back _ _ s' => s'
  | Never s' => s'
  end.

(** The 256 values of a byte. *)
Definition all_bytes : list Byte.byte :=
  omap Byte.of_nat (seq 0 256).

(** How many of the 256 byte values [generateRandomString] turns into the
    symbol [c]. *)
Definition byte_values_of (c : ascii) : nat :=
  length (filter (λ b, charOf b = Some c) all_bytes).

(** A line the scanner gives back as it is: it has no newline, it fits
    the buffer, and it does not end in a carriage return. *)
Definition plain_line (l : string) : Prop :=
  has_newline l = false ∧ scanner.fits l = true ∧ scanner.dropCR l = l.

(** The line [AddHandle] writes for a handle and a target, without its
    newline. *)
Definition map_line (p : PostfixWriter) (h t : string) : string :=
  (h +:+ domain p) +:+ " " +:+ t.

(** The sample server after a new handle for the first account. *)
Definition sample_after_new_handle : Server :=
  match Server_NewHandle 1 time0 "testsecret" sample_server with
  | Some (_, s') => s'
  | None => sample_server
  end.

(** The sample server with a [postmap] that fails. *)
Definition sample_server_failing : Server :=
  {| persistence := store_with_handle;
     mailSystemWriter := sample_writer;
     host := {| mapfile := Some sample_map; postmap_runs := [];
                postmap_fails := true; open_fails := false;
                write_fails := false; tempfile_fails := false;
                rename_fails := false |};
     rand := {| tape := sample_tape |} |}.

(** What a new handle leaves of it. *)
Definition sample_after_failed_postmap : Server :=
  match Server_NewHandle 1 time0 "testsecret" sample_server_failing with
  | Some (_, s') => s'
  | None => sample_server_failing
  end.

(** The sample server with a random source long enough for a secret. *)
Definition sample_server_long_tape : Server :=
  {| persistence := store_with_handle;
     mailSystemWriter := sample_writer;
     host := host_with sample_map;
     rand := {| tape := sample_tape ++ sample_tape |} |}.

(** The secret the server draws from it, and the server afterwards. *)
Definition sample_new_secret : string :=
  "WXYZ012345HIJKLMNOPQRSTUVWXYZ0123456WXYZ012345HIJKLMNOPQRSTUVWXY".

Definition sample_after_new_account : Server :=
  match Server_NewAccount 1 time0 "new@example.com" sample_server_long_tape with
  | Some (_, s') => s'
  | None => sample_server_long_tape
  end.

(** The sample server after the first account has been deleted. *)
Definition sample_after_delete_account : Server :=
  (Server_DeleteAccount "testsecret" sample_server).2.

(** U+00A0, the no-break space, in UTF-8. *)
Definition no_break_space : string :=
  String (ascii_of_nat 194) (String (ascii_of_nat 160) "").

(** A host on which a file cannot be renamed over the map. *)
Definition host_rename_failing (content : string) : MailHost :=
  {| mapfile := Some content; postmap_runs := []; postmap_fails := false;
     open_fails := false; write_fails := false; tempfile_fails := false;
     rename_fails := true |}.

(** A host on which the map file cannot be opened, and one on which it
    cannot be written. *)
Definition host_open_failing (content : string) : MailHost :=
  {| mapfile := Some content; postmap_runs := []; postmap_fails := false;
     open_fails := true; write_fails := false; tempfile_fails := false;
     rename_fails := false |}.
Definition host_write_failing (content : string) : MailHost :=
  {| mapfile := Some content; postmap_runs := []; postmap_fails := false;
     open_fails := false; write_fails := true; tempfile_fails := false;
     rename_fails := false |}.

(** A call of [SendCommand] from the websocket on the sample server. *)
Definition sample_websocket_call : returned :=
  default (Never sample_server)
    (SendCommand 1 time0 "websocket" " new  handle testsecret " sample_server).

(** ** Proof tools *)

(** Closed goals about sample data are settled by evaluation. *)
Ltac by_eval :=
  repeat match goal with |- _ ∧ _ => split end;
  unfold opened, account_in, key_fits, value_fits;
  repeat match goal with |- _ ∧ _ => split end;
  compute_done.

Ltac unfold_bolt :=
  unfold bolt.Update, bolt.View, bolt.bind, bolt.Bucket,
    bolt.CreateBucket, bolt.CreateBucketIfNotExists, bolt.DeleteBucket,
    bolt.Get, bolt.Put, bolt.Delete, bolt.ForEach_keys, bolt.with_bucket,
    bolt.ret.

Ltac split_cases := repeat (case_match; simplify_eq/=; try done).

(** ** Facts about the store *)

Lemma gob_fits (now : GobTime) : value_fits (gob now).
Proof.
  unfold value_fits. pose proof (gob_size now) as H.
  apply Nat.leb_le in H. change bolt.MaxValueSize with 2147483646%Z. lia.
Qed.

Lemma entry_insert_bucket (db : DB) name bk b k :
  entry (<[name := bk]> db) b k
  = if decide (name = b) then bk !! k else entry db b k.
Proof.
  unfold entry. destruct (decide (name = b)) as [->|Hne].
  - by rewrite lookup_insert_eq.
  - by rewrite lookup_insert_ne.
Qed.

Lemma entry_lookup (db : DB) b bk k : db !! b = Some bk → entry db b k = bk !! k.
Proof. intros H. unfold entry. by rewrite H. Qed.

Lemma commits_intro (db db' : DB) :
  (∀ b k v, entry db' b k = Some v →
            entry db b k = Some v ∨ bolt.pair_fits k v) →
  bolt.commits db db'.
Proof.
  intros H. unfold bolt.commits.
  apply map_Forall_lookup. intros b bk Hb.
  apply map_Forall_lookup. intros k v Hk.
  apply (H b k v). unfold entry. rewrite Hb. exact Hk.
Qed.

Lemma commits_elim (db db' : DB) b k v :
  bolt.commits db db' → entry db' b k = Some v →
  entry db b k = Some v ∨ bolt.pair_fits k v.
Proof.
  unfold bolt.commits, entry. intros H Hv.
  destruct (db' !! b) as [bk|] eqn:Hb; [simpl in Hv|done].
  rewrite map_Forall_lookup in H. specialize (H b bk Hb).
  rewrite map_Forall_lookup in H. by apply H.
Qed.

(** A transaction that writes no pair commits. *)
Lemma commits_no_new (db db' : DB) :
  (∀ b k v, entry db' b k = Some v → entry db b k = Some v) →
  bolt.commits db db'.
Proof. intros H. apply commits_intro. intros b k v Hv. left. by apply H. Qed.

Lemma commits_refl (db : DB) : bolt.commits db db.
Proof. by apply commits_no_new. Qed.

Lemma Update_commit fn (db db' : DB) :
  fn db = bolt.Done None db' → bolt.commits db db' →
  bolt.Update fn db = (Returns None, db').
Proof. intros Hfn Hc. unfold bolt.Update. rewrite Hfn. by rewrite decide_True. Qed.

Lemma Update_no_commit fn (db db' : DB) :
  fn db = bolt.Done None db' → ¬ bolt.commits db db' →
  bolt.Update fn db = (Panics, db).
Proof. intros Hfn Hc. unfold bolt.Update. rewrite Hfn. by rewrite decide_False. Qed.

Lemma Update_error fn (db db' : DB) e :
  fn db = bolt.Done (Some e) db' → bolt.Update fn db = (Returns (Some e), db).
Proof. intros Hfn. unfold bolt.Update. by rewrite Hfn. Qed.

(** A key that [Put] accepts and an encoded time can be copied. *)
Lemma pair_fits_gob (key : string) (now : GobTime) :
  key_fits key → bolt.pair_fits key (gob now).
Proof.
  unfold key_fits, bolt.pair_fits. intros Hk.
  pose proof (gob_size now) as Hg. apply Nat.leb_le in Hg.
  change bolt.MaxKeySize with 32768%Z in Hk.
  change bolt.maxAllocSize with 2147483647%Z. lia.
Qed.

Lemma Put_ok name bk key value (db : DB) :
  db !! name = Some bk → key ≠ "" → key_fits key → value_fits value →
  bolt.Put (Some name) key value db
  = bolt.Done None (<[name := <[key := value]> bk]> db).
Proof.
  intros Hb Hk Hkf Hvf. unfold bolt.Put, bolt.with_bucket. rewrite Hb.
  destruct (decide (key = "")) as [|_]; [done|].
  unfold key_fits in Hkf. unfold value_fits in Hvf.
  destruct (Z.ltb_spec bolt.MaxKeySize (Z.of_nat (String.length key))); [lia|].
  destruct (Z.ltb_spec bolt.MaxValueSize (Z.of_nat (String.length value))); [lia|].
  done.
Qed.

Lemma Bucket_Some name bk (db : DB) :
  db !! name = Some bk → bolt.Bucket name db = bolt.Done (Some name) db.
Proof. intros H. unfold bolt.Bucket. by rewrite H. Qed.

Lemma Bucket_None name (db : DB) :
  db !! name = None → bolt.Bucket name db = bolt.Done None db.
Proof. intros H. unfold bolt.Bucket. by rewrite H. Qed.

Lemma CreateBucketIfNotExists_keeps name (db : DB) :
  name ≠ "" →
  ∃ db', bolt.CreateBucketIfNotExists name db = bolt.Done None db' ∧
         is_Some (db' !! name) ∧
         (∀ n bk, db !! n = Some bk → db' !! n = Some bk) ∧
         (∀ n, db !! n = None → is_Some (db' !! n) →
               n = name ∧ db' !! n = Some ∅) ∧
         (is_Some (db !! name) → db' = db).
Proof.
  intros Hn. unfold bolt.CreateBucketIfNotExists.
  rewrite decide_False by done.
  destruct (db !! name) as [bk|] eqn:Hb.
  - exists db. split; [done|]. split; [by eauto|]. split; [done|].
    split; [|done]. intros n Hnone [bk' Hbk']. congruence.
  - exists (<[name := ∅]> db). split; [done|].
    split; [rewrite lookup_insert_eq; by eauto|]. split; [|split].
    + intros n bk Hbk. rewrite lookup_insert_ne; [done|congruence].
    + intros n Hnone. destruct (decide (name = n)) as [<-|Hne].
      * by rewrite lookup_insert_eq.
      * rewrite lookup_insert_ne by done. rewrite Hnone. by intros [? ?].
    + by intros [? ?].
Qed.

Lemma CreateBucketIfNotExists_entries name (db db' : DB) :
  bolt.CreateBucketIfNotExists name db = bolt.Done None db' →
  ∀ b k, entry db' b k = entry db b k.
Proof.
  unfold bolt.CreateBucketIfNotExists. intros H b k.
  repeat case_match; simplify_eq; try done.
  rewrite entry_insert_bucket.
  destruct (decide (name = b)) as [<-|Hb]; [|done].
  unfold entry.
  match goal with H : db !! name = None |- _ => rewrite H end.
  by rewrite lookup_empty.
Qed.

Lemma OpenIncognitoData_tx_run (file : DB) :
  ∃ db, OpenIncognitoData_tx file = bolt.Done None db ∧
        bolt.commits file db ∧
        (∀ b k, entry db b k = entry file b k) ∧
        is_Some (db !! targetsBucketName) ∧
        is_Some (db !! accountsBucketName) ∧
        is_Some (db !! handlesBucketName) ∧
        (∀ n bk, file !! n = Some bk → db !! n = Some bk) ∧
        (∀ n, file !! n = None → is_Some (db !! n) →
              static n ∧ db !! n = Some ∅) ∧
        (opened file → db = file).
Proof.
  unfold OpenIncognitoData_tx, bolt.bind.
  destruct (CreateBucketIfNotExists_keeps targetsBucketName file)
    as (db1 & E1 & Ht1 & K1 & N1 & I1); [done|].
  destruct (CreateBucketIfNotExists_keeps accountsBucketName db1)
    as (db2 & E2 & Ha2 & K2 & N2 & I2); [done|].
  destruct (CreateBucketIfNotExists_keeps handlesBucketName db2)
    as (db3 & E3 & Hh3 & K3 & N3 & I3); [done|].
  rewrite E1, E2, E3. exists db3. split; [done|].
  assert (∀ b k, entry db3 b k = entry file b k) as Hent.
  { intros b k.
    rewrite (CreateBucketIfNotExists_entries _ _ _ E3).
    rewrite (CreateBucketIfNotExists_entries _ _ _ E2).
    by rewrite (CreateBucketIfNotExists_entries _ _ _ E1). }
  split; [apply commits_no_new; intros b k v; by rewrite Hent|].
  split; [done|].
  destruct Ht1 as [tb Ht1]. destruct Ha2 as [ab Ha2].
  split; [exists tb; by apply K3, K2|]. split; [exists ab; by apply K3|].
  split; [done|]. split; [by eauto|]. split.
  - intros n Hn Hs. unfold static.
    destruct (db2 !! n) as [b2|] eqn:H2.
    + destruct (db1 !! n) as [b1|] eqn:H1.
      * destruct (N1 n Hn) as [-> Hb]; [by exists b1|]. split; [by left|].
        by apply K3, K2.
      * destruct (N2 n H1) as [-> Hb]; [by exists b2|]. split; [by right; left|].
        by apply K3.
    + destruct (N3 n H2 Hs) as [-> Hb]. split; [by right; right|done].
  - intros (Ht & Ha & Hh).
    rewrite (I1 Ht) in *. rewrite (I2 Ha) in *. by rewrite (I3 Hh).
Qed.

Lemma opened_OpenIncognitoData (file : DB) :
  (OpenIncognitoData file).1 = Returns None ∧ opened (OpenIncognitoData file).2.
Proof.
  destruct (OpenIncognitoData_tx_run file)
    as (db & Htx & Hc & _ & Ht & Ha & Hh & _).
  unfold OpenIncognitoData. rewrite (Update_commit _ _ _ Htx Hc).
  split; [done|]. by unfold opened.
Qed.

Lemma NewAccount_tx_ok (now : GobTime) secret target (db : DB) tb ab :
  db !! targetsBucketName = Some tb → db !! accountsBucketName = Some ab →
  secret ≠ "" → key_fits secret → value_fits target → db !! secret = None →
  NewAccount_tx now secret target db
  = bolt.Done None
      (<[accountsBucketName := <[secret := gob now]> ab]>
         (<[targetsBucketName := <[secret := target]> tb]>
            (<[secret := ∅]> db))).
Proof.
  intros Ht Ha Hs Hkf Hvf Hfree.
  assert (secret ≠ targetsBucketName) as Hst by congruence.
  assert (secret ≠ accountsBucketName) as Hsa by congruence.
  unfold NewAccount_tx, bolt.bind.
  rewrite (Bucket_None _ _ Hfree).
  unfold bolt.CreateBucket. destruct (decide (secret = "")) as [|_]; [done|].
  rewrite Hfree.
  erewrite Bucket_Some; last by rewrite lookup_insert_ne.
  erewrite Put_ok; [|by rewrite lookup_insert_ne|done..].
  erewrite Bucket_Some; last by rewrite lookup_insert_ne, lookup_insert_ne.
  erewrite Put_ok; [done| |done|done|apply gob_fits].
  by rewrite lookup_insert_ne, lookup_insert_ne.
Qed.

Lemma HasAccount_true secret v (db : DB) :
  secret ≠ "" → entry db accountsBucketName secret = Some v →
  HasAccount secret db = Returns true.
Proof.
  intros Hs He. unfold entry in He.
  destruct (db !! accountsBucketName) as [ab|] eqn:Hab; [simpl in He|done].
  unfold HasAccount, bolt.View, HasAccount_tx, bolt.bind.
  destruct (decide (secret = "")) as [|_]; [done|].
  rewrite (Bucket_Some _ _ _ Hab). unfold bolt.Get, bolt.with_bucket.
  rewrite Hab. simpl. by rewrite He.
Qed.

Lemma HasAccount_false secret (db : DB) :
  is_Some (db !! accountsBucketName) →
  entry db accountsBucketName secret = None →
  HasAccount secret db = Returns false.
Proof.
  intros [ab Hab] He. unfold entry in He. rewrite Hab in He. simpl in He.
  unfold HasAccount, bolt.View, HasAccount_tx, bolt.bind.
  destruct (decide (secret = "")) as [|_]; [done|].
  rewrite (Bucket_Some _ _ _ Hab). unfold bolt.Get, bolt.with_bucket.
  rewrite Hab. simpl. by rewrite He.
Qed.

Lemma NewAccount_tx_commits (now : GobTime) secret target (db : DB) tb ab :
  db !! targetsBucketName = Some tb → db !! accountsBucketName = Some ab →
  db !! secret = None → key_fits secret → bolt.pair_fits secret target →
  bolt.commits db
    (<[accountsBucketName := <[secret := gob now]> ab]>
       (<[targetsBucketName := <[secret := target]> tb]>
          (<[secret := ∅]> db))).
Proof.
  intros Ht Ha Hfree Hkf Hpf. apply commits_intro. intros b k v.
  rewrite !entry_insert_bucket.
  destruct (decide (accountsBucketName = b)) as [<-|Hba].
  { rewrite lookup_insert. case_decide as Hk.
    - intros [= <-]. subst k. right. by apply pair_fits_gob.
    - intros Hv. left. by rewrite (entry_lookup _ _ _ _ Ha). }
  destruct (decide (targetsBucketName = b)) as [<-|Hbt].
  { rewrite lookup_insert. case_decide as Hk.
    - intros [= <-]. subst k. by right.
    - intros Hv. left. by rewrite (entry_lookup _ _ _ _ Ht). }
  destruct (decide (secret = b)) as [<-|Hbs]; [by rewrite lookup_empty|].
  by left.
Qed.

Lemma NewAccount_pair_too_large (now : GobTime) secret target (db : DB) :
  opened db → secret ≠ "" → target ≠ "" → key_fits secret →
  value_fits target → db !! secret = None →
  entry db targetsBucketName secret = None → ¬ bolt.pair_fits secret target →
  NewAccount now secret target db = (Panics, db).
Proof.
  intros ([tb Ht] & [ab Ha] & _) Hs Htg Hkf Hvf Hfree Hnew Hpf.
  assert (secret ≠ targetsBucketName) as Hst by congruence.
  assert (secret ≠ accountsBucketName) as Hsa by congruence.
  unfold NewAccount.
  destruct (decide (secret = "")) as [|_]; [done|].
  destruct (decide (target = "")) as [|_]; [done|].
  eapply Update_no_commit; [by apply NewAccount_tx_ok|].
  intros Hc.
  destruct (commits_elim _ _ targetsBucketName secret target Hc) as [Hold|Hfit].
  - rewrite !entry_insert_bucket. rewrite decide_False by done.
    rewrite decide_True by done. apply lookup_insert_eq.
  - congruence.
  - done.
Qed.


Lemma opened_fresh_store : opened fresh_store.
Proof. apply (opened_OpenIncognitoData empty_file). Qed.

Example fresh_store_buckets :
  fresh_store
  = <[handlesBucketName := ∅]>
      (<[accountsBucketName := ∅]> (<[targetsBucketName := ∅]> ∅)).
Proof. reflexivity. Qed.

(** ** createAccount *)

Lemma length_string_of_list_ascii (l : list ascii) :
  String.length (string_of_list_ascii l) = length l.
Proof. induction l as [|c l IH]; simpl; congruence. Qed.

Lemma length_long_text (n : Z) :
  (0 ≤ n)%Z → Z.of_nat (String.length (long_text n)) = n.
Proof.
  intros Hn. unfold long_text.
  rewrite length_string_of_list_ascii, repeat_length. by apply Z2Nat.id.
Qed.

Lemma length_long_key :
  Z.of_nat (String.length long_key) = (bolt.MaxKeySize + 1)%Z.
Proof. apply length_long_text. unfold bolt.MaxKeySize. lia. Qed.


Lemma Put_key_too_large name bk key value (db : DB) :
  db !! name = Some bk → ¬ key_fits key →
  bolt.Put (Some name) key value db = bolt.Done (Some ErrKeyTooLarge) db.
Proof.
  intros Hb Hkf. unfold bolt.Put, bolt.with_bucket. rewrite Hb.
  unfold key_fits in Hkf. unfold bolt.MaxKeySize in *.
  destruct (decide (key = "")) as [->|_]; [simpl in Hkf; lia|].
  destruct (Z.ltb_spec 32768 (Z.of_nat (String.length key))); [done|lia].
Qed.



Lemma long_text_succ (n : Z) :
  (0 < n)%Z → long_text n = String "a" (long_text (n - 1)).
Proof.
  intros Hn. unfold long_text.
  replace (Z.to_nat n) with (S (Z.to_nat (n - 1))) by lia. done.
Qed.

Lemma long_text_nonempty (n : Z) : (0 < n)%Z → long_text n ≠ "".
Proof. intros Hn. rewrite long_text_succ by done. discriminate. Qed.






Lemma GetAccountTarget_entry secret T (db : DB) :
  secret ≠ "" → entry db targetsBucketName secret = Some T →
  GetAccountTarget secret db = Returns (T, None).
Proof.
  intros Hs He. unfold entry in He.
  destruct (db !! targetsBucketName) as [tb|] eqn:Htb; [simpl in He|done].
  unfold GetAccountTarget, bolt.View, GetAccountTarget_tx, bolt.bind.
  destruct (decide (secret = "")) as [|_]; [done|].
  rewrite (Bucket_Some _ _ _ Htb). unfold bolt.Get, bolt.with_bucket.
  rewrite Htb. simpl. by rewrite He.
Qed.

(** C7.  In a store that holds an account with secret [S] and target [T],
    creating an account with the same secret and any non-empty target
    fails with [ErrAccountExists] and leaves the store as it was; the
    target of [S] read afterwards is still [T]. *)
Theorem NewAccount_duplicate (now : GobTime) (S T target : string) (db : DB) :
  account_in db S T → target ≠ "" →
  NewAccount now S target db = (Returns (Some ErrAccountExists), db) ∧
  GetAccountTarget S (NewAccount now S target db).2 = Returns (T, None).
Proof.
  intros (Hs & [bk Hbk] & Ht & _) Htg.
  assert (NewAccount now S target db = (Returns (Some ErrAccountExists), db)) as ->.
  { unfold NewAccount.
    destruct (decide (S = "")) as [|_]; [done|].
    destruct (decide (target = "")) as [|_]; [done|].
    unfold bolt.Update, NewAccount_tx, bolt.bind.
    by rewrite (Bucket_Some _ _ _ Hbk). }
  split; [done|]. by apply GetAccountTarget_entry.
Qed.

Lemma NewAccount_duplicate_witness :
  account_in store_with_account "testsecret" "testtarget@example.com" ∧
  NewAccount time1 "testsecret" "other@example.com" store_with_account
  = (Returns (Some ErrAccountExists), store_with_account) ∧
  GetAccountTarget "testsecret"
    (NewAccount time1 "testsecret" "other@example.com" store_with_account).2
  = Returns ("testtarget@example.com", None).
Proof.
  assert (account_in store_with_account "testsecret" "testtarget@example.com") as H.
  { by_eval. }
  split; [exact H|].
  apply (NewAccount_duplicate time1 "testsecret" "testtarget@example.com"
           "other@example.com" store_with_account H).
  discriminate.
Defined.

(** ** createHandle *)

Lemma Get_lookup name bk key (db : DB) :
  db !! name = Some bk → bolt.Get (Some name) key db = bolt.Done (bk !! key) db.
Proof. intros H. unfold bolt.Get, bolt.with_bucket. by rewrite H. Qed.

(** Two stores with the same buckets and the same entries are equal. *)
Lemma DB_ext (db1 db2 : DB) :
  (∀ n, is_Some (db1 !! n) ↔ is_Some (db2 !! n)) →
  (∀ b k, entry db1 b k = entry db2 b k) → db1 = db2.
Proof.
  intros Hb He. apply map_eq. intros n.
  specialize (Hb n). specialize (He n). unfold entry in He.
  destruct (db1 !! n) as [b1|], (db2 !! n) as [b2|]; simpl in He.
  - f_equal. by apply map_eq.
  - destruct Hb as [Hb _]. by destruct Hb.
  - destruct Hb as [_ Hb]. by destruct Hb.
  - done.
Qed.

Lemma bucket_ext (db1 db2 : DB) (b : string) :
  (is_Some (db1 !! b) ↔ is_Some (db2 !! b)) →
  (∀ k, entry db1 b k = entry db2 b k) → db1 !! b = db2 !! b.
Proof.
  intros Hb He. unfold entry in He.
  destruct (db1 !! b) as [b1|], (db2 !! b) as [b2|]; simpl in He.
  - f_equal. by apply map_eq.
  - destruct Hb as [Hb _]. by destruct Hb.
  - destruct Hb as [_ Hb]. by destruct Hb.
  - done.
Qed.

Lemma NewAccountHandle_tx_inv now secret handle (db db' : DB) :
  NewAccountHandle_tx now secret handle db = bolt.Done None db' →
  handle ≠ "" ∧ key_fits handle ∧ is_Some (db !! secret) ∧
  is_Some (db !! handlesBucketName) ∧
  entry db handlesBucketName handle = None ∧
  (∀ b k, entry db' b k
          = if decide ((b = secret ∨ b = handlesBucketName) ∧ k = handle)
            then Some (gob now) else entry db b k) ∧
  (∀ n, is_Some (db' !! n) ↔ is_Some (db !! n)).
Proof.
  unfold NewAccountHandle_tx, bolt.bind.
  destruct (db !! secret) as [bk|] eqn:Hbk;
    [rewrite (Bucket_Some _ _ _ Hbk)|by rewrite (Bucket_None _ _ Hbk)].
  destruct (db !! handlesBucketName) as [hb|] eqn:Hhb;
    [rewrite (Bucket_Some _ _ _ Hhb), (Get_lookup _ _ _ _ Hhb)
    |by rewrite (Bucket_None _ _ Hhb)].
  destruct (hb !! handle) eqn:Hfree; [done|].
  unfold bolt.Put at 1. unfold bolt.with_bucket at 1. rewrite Hbk.
  destruct (decide (handle = "")) as [|Hh]; [done|].
  destruct (Z.ltb_spec bolt.MaxKeySize (Z.of_nat (String.length handle)))
    as [|Hk]; [done|].
  destruct (bolt.MaxValueSize <? Z.of_nat (String.length (gob now)))%Z eqn:Hv;
    [done|].
  unfold bolt.Put, bolt.with_bucket.
  destruct (<[secret := _]> db !! handlesBucketName) as [g|] eqn:Hg; [|done].
  rewrite decide_False by done.
  destruct (Z.ltb_spec bolt.MaxKeySize (Z.of_nat (String.length handle)));
    [lia|].
  rewrite Hv. intros [= <-].
  rewrite lookup_insert in Hg.
  assert (∀ k, k ≠ handle → g !! k = hb !! k) as Hrest.
  { intros k Hne. case_decide; simplify_eq; [|done].
    by rewrite lookup_insert_ne. }
  split; [done|]. split; [unfold key_fits; lia|].
  split; [by eauto|]. split; [by eauto|].
  split; [by rewrite (entry_lookup _ _ _ _ Hhb)|]. split.
  - intros b k. rewrite !entry_insert_bucket.
    destruct (decide (k = handle)) as [->|Hkh].
    + destruct (decide (handlesBucketName = b)) as [<-|Hb].
      { rewrite lookup_insert_eq. rewrite decide_True; auto. }
      destruct (decide (secret = b)) as [<-|Hb'].
      { rewrite lookup_insert_eq. rewrite decide_True; auto. }
      rewrite decide_False; [done|]. intros [[?|?] _]; congruence.
    + rewrite (decide_False (P := _ ∧ k = handle)) by (by intros [_ ?]).
      destruct (decide (handlesBucketName = b)) as [<-|Hb].
      { rewrite lookup_insert_ne by done. rewrite Hrest by done.
        by rewrite (entry_lookup _ _ _ _ Hhb). }
      destruct (decide (secret = b)) as [<-|Hb']; [|done].
      rewrite lookup_insert_ne by done.
      by rewrite (entry_lookup _ _ _ _ Hbk).
  - intros n1. rewrite !lookup_insert.
    repeat case_decide; simplify_eq; split; eauto.
Qed.

Lemma NewAccountHandle_tx_commits now secret handle (db db' : DB) :
  NewAccountHandle_tx now secret handle db = bolt.Done None db' →
  bolt.commits db db'.
Proof.
  intros Htx.
  destruct (NewAccountHandle_tx_inv _ _ _ _ _ Htx)
    as (_ & Hkf & _ & _ & _ & Hent & _).
  apply commits_intro. intros b k v. rewrite Hent.
  case_decide as Hc; [|by left]. destruct Hc as [_ ->].
  intros [= <-]. right. by apply pair_fits_gob.
Qed.

Lemma NewAccountHandle_tx_ok now secret handle (db : DB) :
  is_Some (db !! secret) → is_Some (db !! handlesBucketName) →
  entry db handlesBucketName handle = None → handle ≠ "" → key_fits handle →
  ∃ db', NewAccountHandle_tx now secret handle db = bolt.Done None db'.
Proof.
  intros [bk Hbk] [hb Hhb] Hfree Hh Hkf.
  rewrite (entry_lookup _ _ _ _ Hhb) in Hfree.
  unfold NewAccountHandle_tx, bolt.bind.
  rewrite (Bucket_Some _ _ _ Hbk), (Bucket_Some _ _ _ Hhb).
  rewrite (Get_lookup _ _ _ _ Hhb), Hfree.
  rewrite (Put_ok _ _ _ _ _ Hbk Hh Hkf (gob_fits now)).
  destruct (<[secret := <[handle := gob now]> bk]> db !! handlesBucketName)
    as [g|] eqn:Hg.
  - rewrite (Put_ok _ _ _ _ _ Hg Hh Hkf (gob_fits now)). eauto.
  - rewrite lookup_insert in Hg. case_decide; congruence.
Qed.

Lemma NewAccountHandle_inv now secret handle (db db' : DB) :
  NewAccountHandle now secret handle db = (Returns None, db') →
  secret ≠ "" ∧ handle ≠ "" ∧ is_Some (db !! secret) ∧
  is_Some (db !! handlesBucketName) ∧
  entry db handlesBucketName handle = None ∧
  (∀ b k, entry db' b k
          = if decide ((b = secret ∨ b = handlesBucketName) ∧ k = handle)
            then Some (gob now) else entry db b k) ∧
  (∀ n, is_Some (db' !! n) ↔ is_Some (db !! n)).
Proof.
  unfold NewAccountHandle. destruct (decide (secret = "")) as [|Hs]; [done|].
  unfold bolt.Update.
  destruct (NewAccountHandle_tx now secret handle db) as [[e|] db1|] eqn:Htx;
    [done| |done].
  case_decide; [|done]. intros [= <-].
  destruct (NewAccountHandle_tx_inv _ _ _ _ _ Htx) as (? & _ & ? & ? & ? & ? & ?).
  done.
Qed.

(** C2 (as amended).  In an opened store, [NewAccountHandle] fails with
    [ErrEmptySecret] on an empty secret, with [ErrAccountNotFound] when
    the secret has no namespace, with [ErrHandleExists] when the handle
    is in the global index (whoever owns it), the store being left as it
    was; otherwise, for a non-empty handle no longer than the store's
    largest key, it writes the handle with one and the same time into
    the namespace of the secret and into the global index, and changes
    nothing else: every other entry is what it was, no bucket is created
    or removed, and every bucket other than the namespace and the index
    is what it was, an empty one included. *)
Theorem NewAccountHandle_spec (now : GobTime) (secret handle : string) (db : DB) :
  opened db →
  (secret = "" →
     NewAccountHandle now secret handle db
     = (Returns (Some ErrEmptySecret), db)) ∧
  (secret ≠ "" → db !! secret = None →
     NewAccountHandle now secret handle db
     = (Returns (Some ErrAccountNotFound), db)) ∧
  (secret ≠ "" → is_Some (db !! secret) →
   is_Some (entry db handlesBucketName handle) →
     NewAccountHandle now secret handle db
     = (Returns (Some ErrHandleExists), db)) ∧
  (secret ≠ "" → is_Some (db !! secret) →
   entry db handlesBucketName handle = None →
   handle ≠ "" → key_fits handle →
     ∃ db', NewAccountHandle now secret handle db = (Returns None, db') ∧
            entry db' secret handle = Some (gob now) ∧
            entry db' handlesBucketName handle = Some (gob now) ∧
            (∀ b k, ¬ ((b = secret ∨ b = handlesBucketName) ∧ k = handle) →
                    entry db' b k = entry db b k) ∧
            (∀ n, is_Some (db' !! n) ↔ is_Some (db !! n)) ∧
            (∀ n, n ≠ secret → n ≠ handlesBucketName →
                  db' !! n = db !! n)).
Proof.
  intros (_ & _ & [hb Hhb]). split; [|split; [|split]].
  - intros ->. done.
  - intros Hs Hfree. unfold NewAccountHandle.
    destruct (decide (secret = "")) as [|_]; [done|].
    unfold bolt.Update, NewAccountHandle_tx, bolt.bind.
    by rewrite (Bucket_None _ _ Hfree).
  - intros Hs [bk Hbk] [v Hv]. unfold NewAccountHandle.
    destruct (decide (secret = "")) as [|_]; [done|].
    unfold bolt.Update, NewAccountHandle_tx, bolt.bind.
    rewrite (Bucket_Some _ _ _ Hbk), (Bucket_Some _ _ _ Hhb).
    rewrite (Get_lookup _ _ _ _ Hhb).
    unfold entry in Hv. rewrite Hhb in Hv. simpl in Hv. by rewrite Hv.
  - intros Hs Hbk Hv Hh Hkf.
    destruct (NewAccountHandle_tx_ok now secret handle db) as [db' Htx];
      [done|by eauto|done..|].
    assert (NewAccountHandle now secret handle db = (Returns None, db')) as Hnew.
    { unfold NewAccountHandle. rewrite decide_False by done.
      apply Update_commit; [done|]. by eapply NewAccountHandle_tx_commits. }
    destruct (NewAccountHandle_inv _ _ _ _ _ Hnew)
      as (_ & _ & _ & _ & _ & Hent & Hbuckets).
    exists db'. split; [done|].
    split; [by rewrite Hent, decide_True by auto|].
    split; [by rewrite Hent, decide_True by auto|].
    split; [|split; [done|]].
    + intros b k Hno. by rewrite Hent, decide_False.
    + intros n Hn Hnh. apply bucket_ext; [apply Hbuckets|].
      intros k. rewrite Hent. rewrite decide_False; [done|].
      by intros [[?|?] _].
Qed.

Lemma NewAccountHandle_spec_witness :
  NewAccountHandle time2 "" "testhandle1" store_two_accounts
  = (Returns (Some ErrEmptySecret), store_two_accounts) ∧
  NewAccountHandle time2 "nosuchsecret" "testhandle1" store_two_accounts
  = (Returns (Some ErrAccountNotFound), store_two_accounts) ∧
  NewAccountHandle time0 "othersecret" "testhandle1" store_with_handle
  = (Returns (Some ErrHandleExists), store_with_handle) ∧
  ∃ db', NewAccountHandle time2 "testsecret" "testhandle1" store_two_accounts
         = (Returns None, db') ∧
         entry db' "testsecret" "testhandle1" = Some (gob time2) ∧
         entry db' handlesBucketName "testhandle1" = Some (gob time2) ∧
         (∀ b k, ¬ ((b = "testsecret" ∨ b = handlesBucketName)
                    ∧ k = "testhandle1") →
                 entry db' b k = entry store_two_accounts b k) ∧
         (∀ n, is_Some (db' !! n) ↔ is_Some (store_two_accounts !! n)) ∧
         (∀ n, n ≠ "testsecret" → n ≠ handlesBucketName →
               db' !! n = store_two_accounts !! n).
Proof.
  split; [|split; [|split]].
  - apply (NewAccountHandle_spec time2 "" "testhandle1" store_two_accounts).
    + by_eval.
    + reflexivity.
  - apply (NewAccountHandle_spec time2 "nosuchsecret" "testhandle1"
             store_two_accounts).
    + by_eval.
    + discriminate.
    + by_eval.
  - apply (NewAccountHandle_spec time0 "othersecret" "testhandle1"
             store_with_handle).
    + by_eval.
    + discriminate.
    + by_eval.
    + by_eval.
  - apply (NewAccountHandle_spec time2 "testsecret" "testhandle1"
             store_two_accounts).
    + by_eval.
    + discriminate.
    + by_eval.
    + by_eval.
    + discriminate.
    + by_eval.
Defined.

Lemma NewAccountHandle_key_too_large
    (now : GobTime) secret handle (db : DB) :
  secret ≠ "" → is_Some (db !! secret) →
  is_Some (db !! handlesBucketName) →
  entry db handlesBucketName handle = None → ¬ key_fits handle →
  NewAccountHandle now secret handle db = (Returns (Some ErrKeyTooLarge), db).
Proof.
  intros Hs [bk Hbk] [hb Hhb] Hv Hkf. unfold NewAccountHandle.
  destruct (decide (secret = "")) as [|_]; [done|].
  unfold bolt.Update, NewAccountHandle_tx, bolt.bind.
  rewrite (Bucket_Some _ _ _ Hbk), (Bucket_Some _ _ _ Hhb).
  rewrite (Get_lookup _ _ _ _ Hhb).
  unfold entry in Hv. rewrite Hhb in Hv. simpl in Hv. rewrite Hv.
  by rewrite (Put_key_too_large _ _ _ _ _ Hbk Hkf).
Qed.

(** The empty handle, and a handle of 32769 bytes: the account exists,
    the handle is not in the global index, and nothing is written. *)
Lemma NewAccountHandle_refusals :
  is_Some (store_with_account !! "testsecret") ∧
  (entry store_with_account handlesBucketName "" = None ∧
   NewAccountHandle time1 "testsecret" "" store_with_account
   = (Returns (Some ErrKeyRequired), store_with_account)) ∧
  (entry store_with_account handlesBucketName long_key = None ∧
   NewAccountHandle time1 "testsecret" long_key store_with_account
   = (Returns (Some ErrKeyTooLarge), store_with_account)).
Proof.
  assert (store_with_account !! handlesBucketName = Some ∅) as Hh by by_eval.
  assert (entry store_with_account handlesBucketName long_key = None) as Hl.
  { unfold entry. rewrite Hh. apply lookup_empty. }
  split; [by_eval|]. split; [by_eval|]. split; [exact Hl|].
  apply NewAccountHandle_key_too_large.
  - discriminate.
  - by_eval.
  - rewrite Hh. eauto.
  - exact Hl.
  - unfold key_fits. rewrite length_long_key. lia.
Qed.

(** ** deleteHandle and the two homes of a handle *)

(** C1.  Two accounts, a handle created under the first, and
    [DeleteAccountHandle] called with the secret of the second: every call
    returns without error, and the handle is then still listed in the
    namespace of its owner while the global index no longer has it. *)
Theorem handle_homes_diverge :
  (NewAccount time0 "testsecret" "testtarget@example.com" fresh_store).1
  = Returns None ∧
  (NewAccount time1 "othersecret" "other@example.com" store_with_account).1
  = Returns None ∧
  (NewAccountHandle time2 "testsecret" "testhandle1" store_two_accounts).1
  = Returns None ∧
  (DeleteAccountHandle "othersecret" "testhandle1" store_with_handle).1
  = Returns () ∧
  ListAccountHandles "testsecret" store_after_foreign_delete
  = Returns (["testhandle1"], None) ∧
  HasHandleGlobal "testhandle1" store_after_foreign_delete = Returns false.
Proof. by_eval. Qed.

Lemma Delete_ok name bk key (db : DB) :
  db !! name = Some bk →
  bolt.Delete (Some name) key db = bolt.Done None (<[name := delete key bk]> db).
Proof. intros H. unfold bolt.Delete, bolt.with_bucket. by rewrite H. Qed.

Lemma DeleteAccountHandle_tx_run secret handle (db : DB) :
  is_Some (db !! secret) → is_Some (db !! handlesBucketName) →
  ∃ db', DeleteAccountHandle_tx secret handle db = bolt.Done None db' ∧
         (∀ b k, entry db' b k
                 = if decide ((b = secret ∨ b = handlesBucketName) ∧ k = handle)
                   then None else entry db b k) ∧
         (∀ n, is_Some (db' !! n) ↔ is_Some (db !! n)).
Proof.
  intros [bk Hbk] [hb Hhb]. unfold DeleteAccountHandle_tx, bolt.bind.
  rewrite (Bucket_Some _ _ _ Hbk), (Bucket_Some _ _ _ Hhb).
  rewrite (Delete_ok _ _ _ _ Hbk).
  destruct (<[secret := delete handle bk]> db !! handlesBucketName)
    as [g|] eqn:Hg.
  2: { rewrite lookup_insert in Hg. case_decide; congruence. }
  rewrite (Delete_ok _ _ _ _ Hg). eexists. split; [done|].
  rewrite lookup_insert in Hg.
  assert (∀ k, k ≠ handle → g !! k = hb !! k) as Hrest.
  { intros k Hne. case_decide; simplify_eq; [|done].
    by rewrite lookup_delete_ne. }
  split.
  - intros b k. rewrite !entry_insert_bucket.
    destruct (decide (k = handle)) as [->|Hkh].
    + destruct (decide (handlesBucketName = b)) as [<-|Hb].
      { rewrite lookup_delete_eq. rewrite decide_True; auto. }
      destruct (decide (secret = b)) as [<-|Hb'].
      { rewrite lookup_delete_eq. rewrite decide_True; auto. }
      rewrite decide_False; [done|]. intros [[?|?] _]; congruence.
    + rewrite (decide_False (P := _ ∧ k = handle)) by (by intros (_ & ?)).
      destruct (decide (handlesBucketName = b)) as [<-|Hb].
      { rewrite lookup_delete_ne by done. rewrite Hrest by done.
        by rewrite (entry_lookup _ _ _ _ Hhb). }
      destruct (decide (secret = b)) as [<-|Hb']; [|done].
      rewrite lookup_delete_ne by done.
      by rewrite (entry_lookup _ _ _ _ Hbk).
  - intros n1. rewrite !lookup_insert.
    repeat case_decide; simplify_eq; split; eauto.
Qed.

Lemma DeleteAccountHandle_entries secret handle (db : DB) :
  secret ≠ "" → is_Some (db !! secret) → is_Some (db !! handlesBucketName) →
  ∃ db', DeleteAccountHandle secret handle db = (Returns (), db') ∧
         (∀ b k, entry db' b k
                 = if decide ((b = secret ∨ b = handlesBucketName)
                              ∧ k = handle ∧ handle ≠ "")
                   then None else entry db b k) ∧
         (∀ n, is_Some (db' !! n) ↔ is_Some (db !! n)).
Proof.
  intros Hs Hbk Hhb. unfold DeleteAccountHandle.
  rewrite decide_False by done.
  destruct (decide (handle = "")) as [->|Hh].
  { exists db. split; [done|]. split; [|done]. intros b k.
    rewrite decide_False; [done|]. by intros (_ & _ & ?). }
  destruct (DeleteAccountHandle_tx_run secret handle db Hbk Hhb)
    as (db' & Htx & Hent & Hbuckets).
  rewrite (Update_commit _ _ _ Htx).
  2: { apply commits_no_new. intros b k v. rewrite Hent. by case_decide. }
  exists db'. split; [done|]. split; [|done].
  intros b k. rewrite Hent. apply decide_ext.
  split; [intros [? ?]; by auto|intros (? & ? & _); by auto].
Qed.

(** What [DeleteAccountHandle] does to a handle that lives in the
    namespace of another account: the owner keeps it, the global index
    loses it. *)
Lemma DeleteAccountHandle_foreign (owner other handle v : string) (db : DB) :
  opened db → other ≠ "" → handle ≠ "" → is_Some (db !! other) →
  other ≠ owner → owner ≠ handlesBucketName →
  entry db owner handle = Some v →
  ∃ db', DeleteAccountHandle other handle db = (Returns (), db') ∧
         entry db' owner handle = Some v ∧
         entry db' handlesBucketName handle = None.
Proof.
  intros (_ & _ & Hhb) Ho Hh Hbk Hne Hoh Hv.
  destruct (DeleteAccountHandle_entries other handle db Ho Hbk Hhb)
    as (db' & -> & Hent & _).
  exists db'. split; [done|]. rewrite !Hent. split.
  - rewrite decide_False; [done|]. intros [[?|?] _]; congruence.
  - by rewrite decide_True by auto.
Qed.

(** Called with the secret of the owner, [DeleteAccountHandle] removes the
    handle from both homes. *)
Lemma DeleteAccountHandle_owner (secret handle : string) (db : DB) :
  opened db → secret ≠ "" → handle ≠ "" → is_Some (db !! secret) →
  ∃ db', DeleteAccountHandle secret handle db = (Returns (), db') ∧
         entry db' secret handle = None ∧
         entry db' handlesBucketName handle = None.
Proof.
  intros (_ & _ & Hhb) Hs Hh Hbk.
  destruct (DeleteAccountHandle_entries secret handle db Hs Hbk Hhb)
    as (db' & -> & Hent & _).
  exists db'. split; [done|]. rewrite !Hent.
  by rewrite !decide_True by auto.
Qed.

(** ** deleteAccount *)

Lemma ListAccountHandles_absent secret (db : DB) :
  secret ≠ "" → db !! secret = None → ListAccountHandles secret db = Panics.
Proof.
  intros Hs Hfree. unfold ListAccountHandles.
  destruct (decide (secret = "")) as [|_]; [done|].
  unfold bolt.View, ListAccountHandles_tx, bolt.bind.
  by rewrite (Bucket_None _ _ Hfree).
Qed.

(** A secret without a namespace: listing its handles dereferences the
    [nil] bucket, so [DeleteAccount] panics before it changes anything. *)
Lemma DeleteAccount_absent secret (db : DB) :
  secret ≠ "" → db !! secret = None → DeleteAccount secret db = (Panics, db).
Proof.
  intros Hs Hfree. unfold DeleteAccount.
  destruct (decide (secret = "")) as [|_]; [done|].
  by rewrite ListAccountHandles_absent.
Qed.

(** C3.  In a freshly opened store no account has the secret
    ["nosuchsecret"]; [ListAccountHandles] panics on it, and so does
    [DeleteAccount], which therefore does not return to its caller. *)
Theorem DeleteAccount_unknown_secret_panics :
  HasAccount "nosuchsecret" fresh_store = Returns false ∧
  fresh_store !! "nosuchsecret" = None ∧
  ListAccountHandles "nosuchsecret" fresh_store = Panics ∧
  DeleteAccount "nosuchsecret" fresh_store = (Panics, fresh_store).
Proof. by_eval. Qed.

(** The secret ["handles"] names no account either, but it names the
    global index: [DeleteAccount] returns, and the index is gone. *)
Example DeleteAccount_of_the_index :
  HasAccount "handles" store_with_handle = Returns false ∧
  (DeleteAccount "handles" store_with_handle).1 = Returns () ∧
  (DeleteAccount "handles" store_with_handle).2 !! handlesBucketName = None ∧
  HasHandleGlobal "testhandle1" (DeleteAccount "handles" store_with_handle).2
  = Panics.
Proof. by_eval. Qed.

(** ** The service facade: [SendCommand] *)

(** The errors [SendCommand] returns by itself. *)
Lemma dispatch_Fails source c e :
  dispatch source c = Fails e →
  e = ErrEmptyCommand ∨ e = ErrUnknownCommand ∨ e = ErrWrongCommand.
Proof.
  unfold dispatch. intros H.
  repeat (case_match; simplify_eq); auto.
Qed.

(** A [delete] whose second token is neither [handle] nor [account]:
    no case of the inner switch is taken, nothing is sent, and the
    function goes on to wait for a result. *)
Lemma dispatch_delete_other source sub rest :
  sub ≠ "handle" → sub ≠ "account" →
  dispatch source ("delete" :: sub :: rest) = WaitsForever.
Proof.
  intros H1 H2. unfold dispatch.
  repeat (case_decide; simplify_eq/=; try done; try lia).
Qed.

(** C4.  [SendCommand] on ["delete everything"], from any source and in
    any server state: the command has two tokens, the second neither
    [handle] nor [account]; no error is returned and nothing is enqueued,
    the call waits for a result that nobody sends, and never returns. *)
Theorem SendCommand_delete_unknown_waits
    (fuel : nat) (now : GobTime) (source : string) (s : Server) :
  Fields "delete everything" = ["delete"; "everything"] ∧
  SendCommand_send source "delete everything" = WaitsForever ∧
  SendCommand fuel now source "delete everything" s = Some (Never s).
Proof. repeat split. Qed.

(** The sibling switch of [new] has the default case. *)
Example SendCommand_new_unknown_fails :
  SendCommand_send "rpc" "new everything now" = Fails ErrWrongCommand.
Proof. by_eval. Qed.

(** ** The command actor: [handleCommands] *)

(** C5.  From the source ["websocket"], new-account, delete-account and
    delete-handle are answered with [ErrInvalidPermission] and an empty
    result, the whole server state (store, map file, runs of [postmap],
    random source) being left as it was; a new-handle command is executed
    the same whatever its source, ["websocket"] included. *)
Theorem websocket_permissions (fuel : nat) (now : GobTime) (s : Server) :
  (∀ target,
      handleCommand fuel now s (newAccountCommand "websocket" target)
      = Some (Answered "" (Some ErrInvalidPermission) s)) ∧
  (∀ secret,
      handleCommand fuel now s (deleteAccountCommand "websocket" secret)
      = Some (Answered "" (Some ErrInvalidPermission) s)) ∧
  (∀ handle secret,
      handleCommand fuel now s (deleteHandleCommand "websocket" handle secret)
      = Some (Answered "" (Some ErrInvalidPermission) s)) ∧
  (∀ source secret,
      handleCommand fuel now s (newHandleCommand "websocket" secret)
      = handleCommand fuel now s (newHandleCommand source secret) ∧
      handleCommand fuel now s (newHandleCommand source secret)
      = answer_with <$> Server_NewHandle fuel now secret s).
Proof. repeat split. Qed.

(** ** The random token generator *)

Lemma alphabet_size : allowedCharactersNum = 62%Z.
Proof. reflexivity. Qed.

Lemma bitsPerIndex_minimal :
  bitsPerIndex = 6%Z ∧
  (allowedCharactersNum ≤ 2 ^ bitsPerIndex)%Z ∧
  (2 ^ (bitsPerIndex - 1) < allowedCharactersNum)%Z ∧
  indexMask = (2 ^ bitsPerIndex - 1)%Z.
Proof. by_eval. Qed.

Lemma alphabet_is_alnum :
  NoDup (list_ascii_of_string allowedCharacters) ∧
  ∀ c, c ∈ list_ascii_of_string allowedCharacters ↔ isAlnum c = true.
Proof.
  split.
  - compute_done.
  - intros c. split.
    + intros Hin. revert c Hin. apply Forall_forall. compute_done.
    + destruct c as [[] [] [] [] [] [] [] []]; intros H;
        first [ by vm_compute in H | compute_done ].
Qed.

Lemma charIndex_range (b : Byte.byte) :
  (0 ≤ charIndex b < allowedCharactersNum)%Z.
Proof. unfold charIndex. rewrite alphabet_size. apply Z.mod_pos_bound. lia. Qed.

Lemma charIndex_mask_mod (b : Byte.byte) :
  charIndex b = (Z.land (byte_val b) (2 ^ 6 - 1) mod 62)%Z.
Proof. reflexivity. Qed.

Lemma get_alphabet (n : nat) :
  (n < 62)%nat →
  ∃ c, String.get n allowedCharacters = Some c ∧ isAlnum c = true.
Proof.
  intros Hn.
  assert (Forall (λ n, ∃ c, String.get n allowedCharacters = Some c
                            ∧ isAlnum c = true) (seq 0 62)) as Hall.
  { repeat (constructor; [eexists; split; reflexivity|]). constructor. }
  rewrite Forall_forall in Hall. apply Hall. apply elem_of_seq. lia.
Qed.

Lemma charOf_alnum (b : Byte.byte) :
  ∃ c, charOf b = Some c ∧ isAlnum c = true.
Proof.
  apply get_alphabet. pose proof (charIndex_range b) as H.
  rewrite alphabet_size in H. lia.
Qed.

Lemma fillResult_map (buf : list Byte.byte) :
  ∃ r, fillResult buf = Some r ∧ Forall2 (λ b c, charOf b = Some c) buf r.
Proof.
  induction buf as [|b buf (r & IH & Hr)]; cbn [fillResult].
  - exists []. split; [done|]. constructor.
  - destruct (charOf_alnum b) as (c & Hc & _).
    rewrite Hc, IH. exists (c :: r). split; [done|]. by constructor.
Qed.

Lemma get_string_of_list_ascii (r : list ascii) (i : nat) :
  String.get i (string_of_list_ascii r) = r !! i.
Proof.
  revert i. induction r as [|c r IH]; intros [|i]; simpl; done.
Qed.

Lemma rand_Read_Some n src buf src' :
  rand_Read n src = (Some buf, src') →
  tape src = (buf ++ tape src')%list ∧ length buf = n.
Proof.
  unfold rand_Read. case_decide; [|done]. intros [= <- <-]. simpl. split.
  - by rewrite take_drop.
  - rewrite length_take. lia.
Qed.

(** C8.  For a length [size >= 0]: the mask keeps the least number of
    bits that covers the 62 symbols; when the source delivers, the
    generator takes exactly [size] bytes off it and returns, without
    error, a string of exactly [size] characters, the [i]-th being the
    symbol of the alphabet at index (byte [i] masked, modulo 62), a
    letter or a digit; when the source fails the generator returns its
    error; and it returns an error in no other case. *)
Theorem generateRandomString_spec (size : Z) (src : RandSource) :
  (0 ≤ size)%Z →
  ((allowedCharactersNum ≤ 2 ^ bitsPerIndex)%Z ∧
   (2 ^ (bitsPerIndex - 1) < allowedCharactersNum)%Z ∧
   indexMask = (2 ^ bitsPerIndex - 1)%Z ∧ allowedCharactersNum = 62%Z) ∧
  (∀ buf src',
      rand_Read (Z.to_nat size) src = (Some buf, src') →
      tape src = (buf ++ tape src')%list ∧ length buf = Z.to_nat size ∧
      ∃ s, generateRandomString size src = (Returns (s, None), src') ∧
           String.length s = Z.to_nat size ∧
           ∀ i b, buf !! i = Some b →
                  ∃ c, String.get i s = Some c ∧
                       String.get
                         (Z.to_nat (Z.land (byte_val b) indexMask
                                    mod allowedCharactersNum))
                         allowedCharacters = Some c ∧
                       isAlnum c = true) ∧
  (∀ src',
      rand_Read (Z.to_nat size) src = (None, src') →
      generateRandomString size src
      = (Returns ("", Some (ErrSystem "rand.Read")), src')) ∧
  (∀ s e src',
      generateRandomString size src = (Returns (s, Some e), src') →
      (rand_Read (Z.to_nat size) src).1 = None).
Proof.
  intros Hsize. split; [by_eval|]. unfold generateRandomString.
  destruct (Z.ltb_spec size 0) as [|_]; [lia|].
  split; [|split].
  - intros buf src' Hread. rewrite Hread.
    destruct (rand_Read_Some _ _ _ _ Hread) as [Htape Hlen].
    split; [done|]. split; [done|].
    destruct (fillResult_map buf) as (r & -> & Hr).
    eexists. split; [done|]. split.
    + rewrite length_string_of_list_ascii.
      apply Forall2_length in Hr. lia.
    + intros i b Hb. rewrite get_string_of_list_ascii.
      destruct (Forall2_lookup_l _ _ _ _ _ Hr Hb) as (c & Hc & Hbc).
      exists c. split; [done|]. split; [exact Hbc|].
      destruct (charOf_alnum b) as (c' & Hc' & Hal). congruence.
  - intros src' Hread. by rewrite Hread.
  - intros s e src' Hgen.
    destruct (rand_Read (Z.to_nat size) src) as [[buf|] src''] eqn:Hread; [|done].
    destruct (fillResult_map buf) as (r & Hfill & _).
    rewrite Hfill in Hgen. done.
Qed.

Lemma generateRandomString_spec_witness :
  ∃ s, generateRandomString handleSize {| tape := sample_tape |}
       = (Returns (s, None), {| tape := drop 18 sample_tape |}) ∧
       String.length s = Z.to_nat handleSize ∧
       ∀ i b, take 18 sample_tape !! i = Some b →
              ∃ c, String.get i s = Some c ∧
                   String.get
                     (Z.to_nat (Z.land (byte_val b) indexMask
                                mod allowedCharactersNum))
                     allowedCharacters = Some c ∧
                   isAlnum c = true.
Proof.
  apply (generateRandomString_spec handleSize {| tape := sample_tape |}).
  - unfold handleSize. lia.
  - by_eval.
Defined.

Example generateRandomString_sample :
  generateRandomString handleSize {| tape := sample_tape |}
  = (Returns ("WXYZ012345HIJKLMNO", None), {| tape := drop 18 sample_tape |}).
Proof. by_eval. Qed.

(** ** The mail-system synchronizer *)

Lemma scan_all_fit (ls : list string) :
  Forall (λ l, scanner.fits l = true) ls →
  scanner.scan ls = scanner.dropCR <$> ls.
Proof.
  induction 1 as [|l ls Hl _ IH]; simpl; [done|]. by rewrite Hl, IH.
Qed.

Lemma raw_lines_line (l rest : string) :
  has_newline l = false →
  scanner.raw_lines (l +:+ String newline rest) = l :: scanner.raw_lines rest.
Proof.
  induction l as [|c l IH]; simpl; intros Hl.
  - done.
  - apply orb_false_iff in Hl as [Hc Hl]. rewrite Hc. by rewrite IH.
Qed.

Lemma raw_lines_no_newline (content : string) :
  Forall (λ l, has_newline l = false) (scanner.raw_lines content).
Proof.
  induction content as [|c s IH]; simpl; [constructor|].
  destruct (Ascii.eqb c newline) eqn:Hc.
  - by constructor.
  - destruct (scanner.raw_lines s) as [|l ls].
    + constructor; [|constructor]. simpl. by rewrite Hc.
    + inversion IH; subst. constructor; [|done]. simpl. by rewrite Hc.
Qed.

Lemma dropCR_no_newline (l : string) :
  has_newline l = false → has_newline (scanner.dropCR l) = false.
Proof.
  induction l as [|c l IH]; [done|]. intros Hl. simpl in Hl.
  apply orb_false_iff in Hl as [Hc Hl]. simpl.
  destruct l as [|c' l']; [by destruct (Ascii.eqb c carriage_return); simpl; rewrite ?Hc|].
  simpl in *. rewrite Hc. simpl. by apply IH.
Qed.

(** What was written is read back as the lines that were written. *)
Lemma raw_lines_write_lines (ls : list string) :
  Forall (λ l, has_newline l = false) ls →
  scanner.raw_lines (write_lines ls) = ls.
Proof.
  induction 1 as [|l ls Hl _ IH]; [done|].
  change (write_lines (l :: ls)) with (l +:+ String newline (write_lines ls)).
  rewrite raw_lines_line by done. by rewrite IH.
Qed.

Lemma RemoveHandle_run (p : PostfixWriter) (h content : string) (m : MailHost) :
  host_works m → mapfile m = Some content →
  RemoveHandle p h m
  = invokePostmap
      (write_mapfile
         (write_lines (filter (λ l, keep_line h l = true)
                         (scanner.tokens content))) m).
Proof.
  intros (Ho & Hw & Ht & Hr) Hm. unfold RemoveHandle.
  by rewrite Ho, Hm, Ht, Hw, Hr.
Qed.

(** With the rename failing, [RemoveHandle] leaves the map as it was and
    still runs [postmap]. *)
Lemma RemoveHandle_rename_fails (p : PostfixWriter) (h content : string)
    (m : MailHost) :
  open_fails m = false → tempfile_fails m = false → rename_fails m = true →
  mapfile m = Some content →
  RemoveHandle p h m = invokePostmap m.
Proof.
  intros Ho Ht Hr Hm. unfold RemoveHandle. by rewrite Ho, Hm, Ht, Hr.
Qed.

(** X23.  On a host where opening the map file, creating and writing the
    temporary file and renaming it over the map all succeed, when the map
    file exists and each of its lines fits the scanner's buffer,
    [RemoveHandle h] replaces the content by the lines that do not start
    with [h], in their order, each followed by a newline, then runs
    [postmap] on the new content, and returns the error of [postmap] if
    any.  The lines are those [bufio.ScanLines] yields: the text cut at
    newlines, a carriage return before the newline dropped. *)
Lemma RemoveHandle_keeps_other_lines
    (p : PostfixWriter) (h content : string) (m : MailHost) :
  open_fails m = false → tempfile_fails m = false →
  write_fails m = false → rename_fails m = false →
  mapfile m = Some content →
  Forall (λ l, scanner.fits l = true) (scanner.raw_lines content) →
  ∃ kept,
    kept = filter (λ l, String.prefix h l = false)
             (scanner.dropCR <$> scanner.raw_lines content) ∧
    mapfile (RemoveHandle p h m).2 = Some (write_lines kept) ∧
    scanner.raw_lines (write_lines kept) = kept ∧
    postmap_runs (RemoveHandle p h m).2
    = (postmap_runs m ++ [Some (write_lines kept)])%list ∧
    (RemoveHandle p h m).1
    = (if postmap_fails m then Some (ErrSystem "postmap") else None).
Proof.
  intros Ho Ht Hw Hr Hm Hfit. eexists. split; [reflexivity|].
  rewrite (RemoveHandle_run p h content m) by done.
  unfold invokePostmap, write_mapfile. simpl.
  unfold scanner.tokens. rewrite (scan_all_fit _ Hfit).
  assert (∀ ls : list string, filter (λ l, keep_line h l = true) ls
                = filter (λ l, String.prefix h l = false) ls) as Hf.
  { intros ls. apply list_filter_iff. intros l. unfold keep_line.
    by destruct (String.prefix h l). }
  rewrite Hf. split; [by destruct (postmap_fails m)|].
  split.
  2: { by destruct (postmap_fails m). }
  apply raw_lines_write_lines. apply Forall_forall.
  intros l [_ Hin]%list_elem_of_filter.
  apply list_elem_of_fmap in Hin as (l0 & -> & Hin).
  apply dropCR_no_newline.
  pose proof (raw_lines_no_newline content) as Hall.
  rewrite Forall_forall in Hall. by apply Hall.
Qed.

Example RemoveHandle_keeps_other_lines_sample :
  ∃ kept,
    kept = filter (λ l, String.prefix "ab" l = false)
             (scanner.dropCR <$> scanner.raw_lines sample_map) ∧
    mapfile (RemoveHandle sample_writer "ab" (host_with sample_map)).2
    = Some (write_lines kept) ∧
    scanner.raw_lines (write_lines kept) = kept ∧
    postmap_runs (RemoveHandle sample_writer "ab" (host_with sample_map)).2
    = ([] ++ [Some (write_lines kept)])%list ∧
    (RemoveHandle sample_writer "ab" (host_with sample_map)).1 = None.
Proof.
  apply (RemoveHandle_keeps_other_lines sample_writer "ab" sample_map
           (host_with sample_map)); try reflexivity.
  by_eval.
Defined.

Example RemoveHandle_sample :
  mapfile (RemoveHandle sample_writer "ab" (host_with sample_map)).2
  = Some ("xyz@example.org b@example.com" +:+ String newline "").
Proof. by_eval. Qed.

Lemma long_text_no_newline (n : Z) : has_newline (long_text n) = false.
Proof.
  unfold long_text. induction (Z.to_nat n) as [|k IH]; simpl; [done|].
  exact IH.
Qed.

(** Where the rename fails, [RemoveHandle] returns no error and the line
    is still in the map; where the file cannot be opened or written,
    [AddHandle] returns the error and no handle. *)
Example host_faults_sample :
  RemoveHandle sample_writer "ab" (host_rename_failing sample_map)
  = (None, {| mapfile := Some sample_map; postmap_runs := [Some sample_map];
              postmap_fails := false; open_fails := false;
              write_fails := false; tempfile_fails := false;
              rename_fails := true |}) ∧
  AddHandle sample_writer "h" "t@example.com" (host_open_failing sample_map)
  = (("", Some (ErrSystem "open")), host_open_failing sample_map) ∧
  AddHandle sample_writer "h" "t@example.com" (host_write_failing sample_map)
  = (("", Some (ErrSystem "write")), host_write_failing sample_map).
Proof. by_eval. Qed.

Lemma long_line_does_not_fit : scanner.fits long_line = false.
Proof.
  unfold scanner.fits, long_line. rewrite length_long_text by done.
  apply Z.ltb_irrefl.
Qed.

Lemma prefix_head_differs (a b : ascii) (s1 s2 : string) :
  a ≠ b → String.prefix (String a s1) (String b s2) = false.
Proof. intros Hab. simpl. by destruct (ascii_dec a b). Qed.

(** C9.  A map file of two lines, the first of 65536 letters, and a
    handle that neither line starts with: the scanner gives up on the
    first line, [RemoveHandle] writes nothing to the temporary file,
    renames it over the map and returns no error, so the file that should
    have kept both lines ends up empty. *)
Theorem RemoveHandle_long_line_empties_map :
  scanner.raw_lines map_with_long_line
  = [long_line; "alias@example.org user@example.com"] ∧
  String.prefix "gone" long_line = false ∧
  String.prefix "gone" "alias@example.org user@example.com" = false ∧
  RemoveHandle sample_writer "gone" (host_with map_with_long_line)
  = (None, {| mapfile := Some ""; postmap_runs := [Some ""];
              postmap_fails := false; open_fails := false;
              write_fails := false; tempfile_fails := false;
              rename_fails := false |}).
Proof.
  assert (scanner.raw_lines map_with_long_line
          = [long_line; "alias@example.org user@example.com"]) as Hlines.
  { unfold map_with_long_line.
    rewrite raw_lines_line by apply long_text_no_newline.
    by rewrite raw_lines_line. }
  split; [exact Hlines|]. split; [|split; [done|]].
  - unfold long_line. rewrite long_text_succ by done.
    apply prefix_head_differs. discriminate.
  - rewrite (RemoveHandle_run _ _ map_with_long_line);
      [|repeat split; reflexivity|reflexivity].
    unfold scanner.tokens. rewrite Hlines.
    cbn [scanner.scan]. by rewrite long_line_does_not_fit.
Qed.

(** ** Where errors come from *)

Lemma OpenIncognitoData_quiet (db : DB) :
  quiet (error_only (OpenIncognitoData db).1).
Proof.
  unfold quiet, OpenIncognitoData, OpenIncognitoData_tx.
  unfold_bolt. split_cases.
Qed.

Lemma NewAccount_quiet now secret target (db : DB) :
  quiet (error_only (NewAccount now secret target db).1).
Proof. unfold quiet, NewAccount, NewAccount_tx. unfold_bolt. split_cases. Qed.

Lemma NewAccountHandle_quiet now secret handle (db : DB) :
  quiet (error_only (NewAccountHandle now secret handle db).1).
Proof.
  unfold quiet, NewAccountHandle, NewAccountHandle_tx. unfold_bolt. split_cases.
Qed.

Lemma GetAccountTarget_quiet secret (db : DB) :
  quiet (error_in (GetAccountTarget secret db)).
Proof.
  unfold quiet, GetAccountTarget, GetAccountTarget_tx. unfold_bolt. split_cases.
Qed.

Lemma ListAccountHandles_quiet secret (db : DB) :
  quiet (error_in (ListAccountHandles secret db)).
Proof.
  unfold quiet, ListAccountHandles, ListAccountHandles_tx. unfold_bolt. split_cases.
Qed.

Lemma generateRandomString_quiet size src :
  quiet (error_in (generateRandomString size src).1).
Proof. unfold quiet, generateRandomString. split_cases. Qed.

Lemma invokePostmap_quiet m : quiet (invokePostmap m).1.
Proof. unfold quiet, invokePostmap. split_cases. Qed.

Lemma AddHandle_quiet p h t m : quiet (AddHandle p h t m).1.2.
Proof.
  unfold AddHandle.
  pose proof (invokePostmap_quiet
    (write_mapfile (default "" (mapfile m) +:+ (h +:+ domain p) +:+ " " +:+ t
                    +:+ String newline "") m)) as H.
  unfold quiet in *. split_cases.
Qed.

Lemma RemoveHandle_quiet p h m : quiet (RemoveHandle p h m).1.
Proof.
  unfold RemoveHandle. destruct (open_fails m); [done|].
  destruct (mapfile m); [|done]. destruct (tempfile_fails m); [done|].
  apply invokePostmap_quiet.
Qed.

Lemma removeHandles_quiet p handles m : quiet (removeHandles p handles m).1.
Proof.
  revert m. induction handles as [|h rest IH]; intros m; simpl; [done|].
  pose proof (RemoveHandle_quiet p h m) as H.
  destruct (RemoveHandle p h m) as [[e|] m']; [exact H|apply IH].
Qed.

Lemma dispatch_quiet source c e : dispatch source c = Fails e → quiet (Some e).
Proof.
  intros H. destruct (dispatch_Fails _ _ _ H) as [H1|[H1|H1]]; by subst.
Qed.

Lemma freshHandle_quiet fuel s r :
  freshHandle fuel s = Some r → quiet (error_in r.1).
Proof.
  revert s. induction fuel as [|fuel IH]; intros s; simpl; [done|].
  pose proof (generateRandomString_quiet handleSize (rand s)) as Hg.
  destruct (generateRandomString handleSize (rand s)) as [[[str [e|]]|] r0];
    simpl in Hg; try (intros [= <-]; done).
  destruct (HasHandleGlobal str (persistence s)) as [[]|];
    try (intros [= <-]; done).
  apply IH.
Qed.

Lemma freshSecret_quiet fuel s r :
  freshSecret fuel s = Some r → quiet (error_in r.1).
Proof.
  revert s. induction fuel as [|fuel IH]; intros s; simpl; [done|].
  pose proof (generateRandomString_quiet accountSecretSize (rand s)) as Hg.
  destruct (generateRandomString accountSecretSize (rand s)) as [[[str [e|]]|] r0];
    simpl in Hg; try (intros [= <-]; done).
  destruct (HasAccount str (persistence s)) as [[]|];
    try (intros [= <-]; done).
  apply IH.
Qed.

Lemma Server_NewHandle_quiet fuel now accountSecret s r :
  Server_NewHandle fuel now accountSecret s = Some r → quiet (error_in r.1).
Proof.
  unfold Server_NewHandle.
  pose proof (GetAccountTarget_quiet accountSecret (persistence s)) as Ht.
  destruct (GetAccountTarget accountSecret (persistence s)) as [[target [e|]]|];
    simpl in Ht; try (intros [= <-]; done).
  destruct (freshHandle fuel s) as [[o s1]|] eqn:Hf; [|done].
  apply freshHandle_quiet in Hf. simpl in Hf.
  destruct o as [[newHandle [e|]]|]; simpl in Hf; try (intros [= <-]; done).
  pose proof (NewAccountHandle_quiet now accountSecret newHandle (persistence s1)) as Hn.
  destruct (NewAccountHandle now accountSecret newHandle (persistence s1))
    as [[[e|]|] db]; simpl in Hn; try (intros [= <-]; done).
  pose proof (AddHandle_quiet (mailSystemWriter (set_persistence db s1))
                newHandle target (host (set_persistence db s1))) as Ha.
  destruct (AddHandle _ _ _ _) as [[full [e|]] m]; simpl in Ha;
    intros [= <-]; done.
Qed.

Lemma Server_NewAccount_quiet fuel now target s r :
  Server_NewAccount fuel now target s = Some r → quiet (error_in r.1).
Proof.
  unfold Server_NewAccount.
  destruct (freshSecret fuel s) as [[o s1]|] eqn:Hf; [|done].
  apply freshSecret_quiet in Hf. simpl in Hf.
  destruct o as [[secret [e|]]|]; simpl in Hf; try (intros [= <-]; done).
  pose proof (NewAccount_quiet now secret target (persistence s1)) as Hn.
  destruct (NewAccount now secret target (persistence s1))
    as [[[e|]|] db]; simpl in Hn; intros [= <-]; done.
Qed.

Lemma Server_DeleteHandle_quiet secret handle s :
  quiet (error_only (Server_DeleteHandle secret handle s).1).
Proof.
  unfold Server_DeleteHandle.
  destruct (HasAccount secret (persistence s)) as [[]|]; try done.
  destruct (DeleteAccountHandle secret handle (persistence s)) as [[[]|] db];
    try done.
  simpl. by destruct (RemoveHandle _ _ _).
Qed.

Lemma Server_DeleteAccount_quiet secret s :
  quiet (error_only (Server_DeleteAccount secret s).1).
Proof.
  unfold Server_DeleteAccount.
  destruct (HasAccount secret (persistence s)) as [[]|]; try done.
  pose proof (ListAccountHandles_quiet secret (persistence s)) as Hl.
  destruct (ListAccountHandles secret (persistence s)) as [[handles [e|]]|];
    simpl in Hl; try done.
  pose proof (removeHandles_quiet (mailSystemWriter s) handles (host s)) as Hr.
  destruct (removeHandles _ _ _) as [[e|] m]; simpl in Hr; try done.
  by destruct (DeleteAccount _ _) as [[[]|] db].
Qed.

Lemma Server_ListHandles_quiet secret s :
  quiet (error_in (Server_ListHandles secret s)).
Proof.
  unfold Server_ListHandles.
  destruct (HasAccount secret (persistence s)) as [[]|]; try done.
  pose proof (ListAccountHandles_quiet secret (persistence s)) as Hl.
  by destruct (ListAccountHandles secret (persistence s)) as [[handles [e|]]|].
Qed.

Lemma handleCommand_quiet fuel now s c res err s' :
  handleCommand fuel now s c = Some (Answered res err s') → quiet err.
Proof.
  destruct c as [source secret|source target|source handle secret|source secret|];
    simpl; try done.
  - destruct (Server_NewHandle fuel now secret s) as [[o s1]|] eqn:Hn; [|done].
    apply Server_NewHandle_quiet in Hn. simpl in *.
    destruct o as [[r e]|]; intros [= <- <- <-]; done.
  - case_decide; [intros [= <- <- <-]; done|].
    destruct (Server_NewAccount fuel now target s) as [[o s1]|] eqn:Hn; [|done].
    apply Server_NewAccount_quiet in Hn. simpl in *.
    destruct o as [[r e]|]; intros [= <- <- <-]; done.
  - case_decide; [intros [= <- <- <-]; done|].
    pose proof (Server_DeleteHandle_quiet secret handle s) as Hd.
    destruct (Server_DeleteHandle secret handle s) as [[[e|]|] s1];
      simpl in *; intros [= <- <- <-]; done.
  - case_decide; [intros [= <- <- <-]; done|].
    pose proof (Server_DeleteAccount_quiet secret s) as Hd.
    destruct (Server_DeleteAccount secret s) as [[[e|]|] s1];
      simpl in *; intros [= <- <- <-]; done.
Qed.

Lemma error_of_quiet (c : call) (s : Server) : quiet (error_of c s).
Proof.
  destruct c; simpl.
  - apply OpenIncognitoData_quiet.
  - apply NewAccount_quiet.
  - apply NewAccountHandle_quiet.
  - apply GetAccountTarget_quiet.
  - apply ListAccountHandles_quiet.
  - apply generateRandomString_quiet.
  - apply AddHandle_quiet.
  - apply RemoveHandle_quiet.
  - unfold SendCommand, SendCommand_send.
    destruct (dispatch source (Fields args)) eqn:Hd; try done.
    + by apply dispatch_quiet in Hd.
    + destruct (handleCommand _ _ _ _) as [[|res err s'|]|] eqn:H; try done.
      by apply handleCommand_quiet in H.
  - destruct (Server_NewHandle _ _ _ _) eqn:H; [|done].
    by apply Server_NewHandle_quiet in H.
  - destruct (Server_NewAccount _ _ _ _) eqn:H; [|done].
    by apply Server_NewAccount_quiet in H.
  - apply Server_DeleteHandle_quiet.
  - apply Server_DeleteAccount_quiet.
  - apply Server_ListHandles_quiet.
  - destruct (handleCommand _ _ _ _) as [[|res err s'|]|] eqn:H; try done.
    by apply handleCommand_quiet in H.
Qed.

(** ** The server's delete-handle *)

Lemma DeleteAccountHandle_returns secret handle (db : DB) :
  is_Some (db !! handlesBucketName) →
  ∃ db', DeleteAccountHandle secret handle db = (Returns (), db').
Proof.
  intros Hhb. destruct (decide (secret = "")) as [->|Hs].
  { unfold DeleteAccountHandle. rewrite decide_True by done. eauto. }
  destruct (db !! secret) as [bk|] eqn:Hbk.
  - destruct (DeleteAccountHandle_entries secret handle db Hs)
      as (db' & -> & _); eauto.
  - unfold DeleteAccountHandle. rewrite decide_False by done.
    case_decide; [eauto|].
    unfold bolt.Update, DeleteAccountHandle_tx, bolt.bind.
    rewrite (Bucket_None _ _ Hbk). eauto.
Qed.

(** C10.  In an opened store where [HasAccount secret] holds, the
    server's [DeleteHandle] returns no error whatever the handle (one
    that exists nowhere, one that another account owns), and the command
    loop answers a delete-handle command from a source other than
    ["websocket"] with ["success"] and no error; and no call of the system
    returns [ErrHandleNotFound]. *)
Theorem Server_DeleteHandle_succeeds
    (fuel : nat) (now : GobTime) (s : Server) (secret handle source : string) :
  opened (persistence s) →
  HasAccount secret (persistence s) = Returns true →
  (∃ s', Server_DeleteHandle secret handle s = (Returns None, s') ∧
         (source ≠ "websocket" →
          handleCommand fuel now s (deleteHandleCommand source handle secret)
          = Some (Answered "success" None s'))) ∧
  (∀ c s0, error_of c s0 ≠ Some ErrHandleNotFound).
Proof.
  intros (_ & _ & Hh) Hacc. split; [|intros c s0; apply error_of_quiet].
  destruct (DeleteAccountHandle_returns secret handle _ Hh) as (db' & Hdel).
  unfold handleCommand, Server_DeleteHandle. rewrite Hacc, Hdel.
  destruct (RemoveHandle _ _ _) as [e m]. eexists. split; [done|].
  intros Hsrc. by rewrite decide_False.
Qed.

Lemma Server_DeleteHandle_succeeds_witness :
  (∃ s', Server_DeleteHandle "othersecret" "testhandle1" sample_server
         = (Returns None, s') ∧
         ("rpc" ≠ "websocket" →
          handleCommand 0 time0 sample_server
            (deleteHandleCommand "rpc" "testhandle1" "othersecret")
          = Some (Answered "success" None s'))) ∧
  (∀ c s0, error_of c s0 ≠ Some ErrHandleNotFound).
Proof.
  apply (Server_DeleteHandle_succeeds 0 time0 sample_server
           "othersecret" "testhandle1" "rpc").
  - by_eval.
  - by_eval.
Defined.

(** The handle of another account, and a handle nobody has. *)
Example Server_DeleteHandle_samples :
  (Server_DeleteHandle "othersecret" "testhandle1" sample_server).1
  = Returns None ∧
  (Server_DeleteHandle "othersecret" "nosuchhandle" sample_server).1
  = Returns None ∧
  (Server_DeleteHandle "nosuchsecret" "testhandle1" sample_server).1
  = Returns (Some ErrAccountNotFound).
Proof. by_eval. Qed.

(** ** The static buckets stay *)

Lemma keeps_buckets_refl (db : DB) : keeps_buckets db db.
Proof. by intros n Hn. Qed.

Lemma keeps_buckets_insert (db db' : DB) name bk :
  keeps_buckets db db' → keeps_buckets db (<[name := bk]> db').
Proof.
  intros H n Hn. destruct (decide (name = n)) as [->|Hne].
  - rewrite lookup_insert_eq. eauto.
  - rewrite lookup_insert_ne by done. by apply H.
Qed.

Lemma keeps_buckets_opened (db db' : DB) :
  keeps_buckets db db' → opened db → opened db'.
Proof. intros H (Ht & Ha & Hh). unfold opened. auto. Qed.

Create HintDb buckets.
#[local] Hint Resolve keeps_buckets_refl keeps_buckets_insert : buckets.

Lemma NewAccount_keeps_buckets now secret target (db : DB) :
  keeps_buckets db (NewAccount now secret target db).2.
Proof. unfold NewAccount, NewAccount_tx. unfold_bolt. split_cases; eauto with buckets. Qed.

Lemma NewAccountHandle_keeps_buckets now secret handle (db : DB) :
  keeps_buckets db (NewAccountHandle now secret handle db).2.
Proof.
  unfold NewAccountHandle, NewAccountHandle_tx. unfold_bolt. split_cases; eauto with buckets.
Qed.

Lemma DeleteAccountHandle_keeps_buckets secret handle (db : DB) :
  keeps_buckets db (DeleteAccountHandle secret handle db).2.
Proof.
  unfold DeleteAccountHandle, DeleteAccountHandle_tx. unfold_bolt.
  split_cases; eauto with buckets.
Qed.

Lemma NewAccountHandle_frame now secret handle (db : DB) b k :
  b ≠ secret → b ≠ handlesBucketName →
  entry (NewAccountHandle now secret handle db).2 b k = entry db b k.
Proof.
  intros Hb Hh. unfold NewAccountHandle, NewAccountHandle_tx. unfold_bolt.
  split_cases. rewrite !entry_insert_bucket.
  by rewrite !decide_False by congruence.
Qed.

Lemma DeleteAccountHandle_frame secret handle (db : DB) b k :
  b ≠ secret → b ≠ handlesBucketName →
  entry (DeleteAccountHandle secret handle db).2 b k = entry db b k.
Proof.
  intros Hb Hh. unfold DeleteAccountHandle, DeleteAccountHandle_tx. unfold_bolt.
  split_cases. rewrite !entry_insert_bucket.
  by rewrite !decide_False by congruence.
Qed.

Lemma NewAccountHandle_returns now secret handle (db : DB) :
  is_Some (db !! handlesBucketName) →
  (NewAccountHandle now secret handle db).1 ≠ Panics.
Proof.
  intros [hb Hhb]. unfold NewAccountHandle. case_decide; [done|].
  unfold bolt.Update.
  destruct (NewAccountHandle_tx now secret handle db) as [[e|] db1|] eqn:Htx.
  - done.
  - rewrite decide_True by (by eapply NewAccountHandle_tx_commits). done.
  - exfalso. revert Htx. unfold NewAccountHandle_tx. unfold_bolt.
    split_cases.
    match goal with
    | H : <[_:=_]> _ !! _ = None |- _ =>
        rewrite lookup_insert in H; case_decide; congruence
    end.
Qed.

(** An opened store with its accounts in order: a secret that
    [accounts] or [targets] knows is not empty, is not the name of a
    static bucket, and has its namespace. *)
Lemma well_kept_fresh_store : well_kept fresh_store.
Proof.
  split; [apply opened_fresh_store|].
  rewrite fresh_store_buckets.
  split; intros s [v Hv]; unfold entry in Hv; simplify_map_eq.
Qed.

Lemma NewAccount_cases now secret target (db : DB) tb ab :
  db !! targetsBucketName = Some tb → db !! accountsBucketName = Some ab →
  match NewAccount now secret target db with
  | (Returns (Some _), db') => db' = db
  | (Returns None, db') =>
      secret ≠ "" ∧ db !! secret = None ∧
      db' = <[accountsBucketName := <[secret := gob now]> ab]>
              (<[targetsBucketName := <[secret := target]> tb]>
                 (<[secret := ∅]> db))
  | (Panics, db') => db' = db ∧ ¬ bolt.pair_fits secret target
  end.
Proof.
  intros Ht Ha. unfold NewAccount.
  destruct (decide (secret = "")) as [|Hs]; [done|].
  destruct (decide (target = "")) as [|Htg]; [done|].
  unfold bolt.Update, NewAccount_tx, bolt.bind.
  destruct (db !! secret) as [bk|] eqn:Hsec.
  { by rewrite (Bucket_Some _ _ _ Hsec). }
  assert (secret ≠ targetsBucketName) as Hst by congruence.
  assert (secret ≠ accountsBucketName) as Hsa by congruence.
  rewrite (Bucket_None _ _ Hsec). unfold bolt.CreateBucket.
  rewrite decide_False by done. rewrite Hsec.
  erewrite Bucket_Some; last by rewrite lookup_insert_ne.
  unfold bolt.Put at 1. unfold bolt.with_bucket.
  rewrite lookup_insert_ne by done. rewrite Ht. rewrite decide_False by done.
  destruct (Z.ltb_spec bolt.MaxKeySize (Z.of_nat (String.length secret)))
    as [|Hkf]; [done|].
  destruct (_ <? _)%Z; [done|].
  erewrite Bucket_Some; last by rewrite lookup_insert_ne, lookup_insert_ne.
  unfold bolt.Put, bolt.with_bucket.
  rewrite lookup_insert_ne by done. rewrite lookup_insert_ne by done.
  rewrite Ha. rewrite decide_False by done.
  destruct (_ <? _)%Z; [done|].
  destruct (_ <? _)%Z; [done|].
  unfold bolt.ret. cbv beta iota.
  case_decide as Hc; [done|]. split; [done|]. intros Hpf. apply Hc.
  by apply NewAccount_tx_commits.
Qed.

Lemma static_bucket (db : DB) name : opened db → static name → is_Some (db !! name).
Proof. intros (Ht & Ha & Hh) [ -> | [ -> | -> ] ]; done. Qed.

Lemma well_kept_NewAccount now secret target (db : DB) :
  well_kept db →
  (bolt.pair_fits secret target →
   (NewAccount now secret target db).1 ≠ Panics) ∧
  well_kept (NewAccount now secret target db).2.
Proof.
  intros (Hop & Hacc & Htar).
  destruct Hop as ([tb Ht] & [ab Ha] & Hh).
  pose proof (NewAccount_cases now secret target db tb ab Ht Ha) as Hcases.
  destruct (NewAccount now secret target db) as [[[e|]|] db']; simpl;
    [subst db'; split; [done|] | | ].
  { split; [by unfold opened; eauto|done]. }
  2: { destruct Hcases as [-> Hpf]. split; [done|].
       split; [by unfold opened; eauto|done]. }
  destruct Hcases as (Hs & Hfree & ->). split; [done|].
  assert (secret ≠ targetsBucketName) as Hst by congruence.
  assert (secret ≠ accountsBucketName) as Hsa by congruence.
  assert (opened db) as Hop by (unfold opened; eauto).
  split; [|split].
  - eapply keeps_buckets_opened; [|exact Hop]. eauto with buckets.
  - intros s. rewrite entry_insert_bucket, decide_True by done.
    destruct (decide (secret = s)) as [<-|Hne].
    + intros _. split; [done|]. split.
      * intros Hstatic. apply (static_bucket db) in Hstatic; [|done].
        rewrite Hfree in Hstatic. by destruct Hstatic.
      * do 2 (rewrite lookup_insert_ne by done). rewrite lookup_insert_eq. eauto.
    + rewrite lookup_insert_ne by done. intros Hs'.
      destruct (Hacc s) as (? & ? & ?); [by unfold entry; rewrite Ha|].
      split; [done|]. split; [done|].
      match goal with |- is_Some (?m !! s) =>
        assert (keeps_buckets db m) as Hkeep by eauto with buckets end.
      by apply Hkeep.
  - intros s. rewrite !entry_insert_bucket.
    rewrite (decide_False (P := accountsBucketName = targetsBucketName)) by done.
    rewrite !decide_True by done.
    destruct (decide (secret = s)) as [<-|Hne].
    + intros _. rewrite lookup_insert_eq. eauto.
    + rewrite !lookup_insert_ne by done. intros Hs'.
      specialize (Htar s). unfold entry in Htar. rewrite Ht, Ha in Htar.
      by apply Htar.
Qed.

Lemma well_kept_frame (db db' : DB) secret :
  well_kept db → keeps_buckets db db' →
  (∀ b k, b ≠ secret → b ≠ handlesBucketName → entry db' b k = entry db b k) →
  ¬ static secret → well_kept db'.
Proof.
  intros (Hop & Hacc & Htar) Hkeep Hframe Hns.
  assert (targetsBucketName ≠ secret) as Hst
    by (intros <-; apply Hns; unfold static; auto).
  assert (accountsBucketName ≠ secret) as Hsa
    by (intros <-; apply Hns; unfold static; auto).
  split; [by eapply keeps_buckets_opened|]. split.
  - intros s. rewrite Hframe by done. intros Hs.
    destruct (Hacc s Hs) as (? & ? & ?). auto.
  - intros s. rewrite !Hframe by done. apply Htar.
Qed.

Lemma well_kept_NewAccountHandle now secret handle (db : DB) :
  well_kept db → ¬ static secret →
  (NewAccountHandle now secret handle db).1 ≠ Panics ∧
  well_kept (NewAccountHandle now secret handle db).2.
Proof.
  intros Hwk Hns. split.
  - apply NewAccountHandle_returns. by destruct Hwk as ((_ & _ & Hh) & _).
  - apply (well_kept_frame db _ secret); [done| | |done].
    + apply NewAccountHandle_keeps_buckets.
    + intros b k ? ?. by apply NewAccountHandle_frame.
Qed.

Lemma well_kept_DeleteAccountHandle secret handle (db : DB) :
  well_kept db → ¬ static secret →
  (DeleteAccountHandle secret handle db).1 = Returns () ∧
  well_kept (DeleteAccountHandle secret handle db).2.
Proof.
  intros Hwk Hns. split.
  - destruct (DeleteAccountHandle_returns secret handle db) as (db' & ->); [|done].
    by destruct Hwk as ((_ & _ & Hh) & _).
  - apply (well_kept_frame db _ secret); [done| | |done].
    + apply DeleteAccountHandle_keeps_buckets.
    + intros b k ? ?. by apply DeleteAccountHandle_frame.
Qed.

Lemma deleteHandles_kept secret handles (db : DB) :
  well_kept db → ¬ static secret →
  (deleteHandles secret handles db).1 = Returns () ∧
  well_kept (deleteHandles secret handles db).2 ∧
  keeps_buckets db (deleteHandles secret handles db).2.
Proof.
  intros Hwk Hns. revert db Hwk.
  induction handles as [|v rest IH]; intros db Hwk; simpl.
  - split; [done|]. split; [done|]. apply keeps_buckets_refl.
  - destruct (well_kept_DeleteAccountHandle secret v db Hwk Hns) as [Hr Hwk'].
    pose proof (DeleteAccountHandle_keeps_buckets secret v db) as Hk.
    destruct (DeleteAccountHandle secret v db) as [o db']. simpl in *. subst o.
    destruct (IH db' Hwk') as (Hr' & Hwk'' & Hk').
    split; [done|]. split; [done|]. intros n Hn. by apply Hk', Hk.
Qed.

Lemma ListAccountHandles_present secret bk (db : DB) :
  secret ≠ "" → db !! secret = Some bk →
  ListAccountHandles secret db = Returns (bolt.keys bk, None).
Proof.
  intros Hs Hbk. unfold ListAccountHandles.
  destruct (decide (secret = "")) as [|_]; [done|].
  unfold bolt.View, ListAccountHandles_tx, bolt.bind.
  rewrite (Bucket_Some _ _ _ Hbk). unfold bolt.ForEach_keys, bolt.with_bucket.
  by rewrite Hbk.
Qed.

Lemma DeleteAccount_tx_ok secret bk tb ab (db : DB) :
  db !! secret = Some bk →
  db !! targetsBucketName = Some tb → db !! accountsBucketName = Some ab →
  secret ≠ targetsBucketName → secret ≠ accountsBucketName →
  DeleteAccount_tx secret db
  = bolt.Done None
      (<[accountsBucketName := delete secret ab]>
         (<[targetsBucketName := delete secret tb]> (delete secret db))).
Proof.
  intros Hbk Ht Ha Hst Hsa. unfold DeleteAccount_tx, bolt.bind.
  unfold bolt.DeleteBucket. rewrite Hbk.
  erewrite Bucket_Some; last by rewrite lookup_delete_ne.
  erewrite Delete_ok; last by rewrite lookup_delete_ne.
  erewrite Bucket_Some; last by rewrite lookup_insert_ne, lookup_delete_ne.
  erewrite Delete_ok; [done|]. by rewrite lookup_insert_ne, lookup_delete_ne.
Qed.

Lemma DeleteAccount_tx_commits secret tb ab (db : DB) :
  db !! targetsBucketName = Some tb → db !! accountsBucketName = Some ab →
  bolt.commits db
    (<[accountsBucketName := delete secret ab]>
       (<[targetsBucketName := delete secret tb]> (delete secret db))).
Proof.
  intros Ht Ha. apply commits_no_new. intros b k v.
  rewrite !entry_insert_bucket.
  destruct (decide (accountsBucketName = b)) as [<-|Hba].
  { intros [_ Hv]%lookup_delete_Some. by rewrite (entry_lookup _ _ _ _ Ha). }
  destruct (decide (targetsBucketName = b)) as [<-|Hbt].
  { intros [_ Hv]%lookup_delete_Some. by rewrite (entry_lookup _ _ _ _ Ht). }
  unfold entry. destruct (decide (secret = b)) as [<-|Hsb].
  - by rewrite lookup_delete_eq.
  - by rewrite lookup_delete_ne.
Qed.

Lemma well_kept_DeleteAccount secret (db : DB) :
  well_kept db → secret ≠ "" → ¬ static secret → is_Some (db !! secret) →
  (DeleteAccount secret db).1 = Returns () ∧
  well_kept (DeleteAccount secret db).2.
Proof.
  intros Hwk Hs Hns [bk Hbk]. unfold DeleteAccount.
  destruct (decide (secret = "")) as [|_]; [done|].
  rewrite (ListAccountHandles_present _ _ _ Hs Hbk).
  destruct (deleteHandles_kept secret (bolt.keys bk) db Hwk Hns)
    as (Hr & Hwk1 & Hk).
  destruct (deleteHandles secret (bolt.keys bk) db) as [o db1].
  simpl in Hr, Hwk1, Hk. subst o.
  destruct (Hk secret) as [bk1 Hbk1]; [eauto|].
  destruct Hwk1 as (Hop1 & Hacc1 & Htar1).
  pose proof Hop1 as ([tb Ht] & [ab Ha] & [hb Hh]).
  assert (secret ≠ targetsBucketName) as Hst
    by (intros ->; apply Hns; unfold static; auto).
  assert (secret ≠ accountsBucketName) as Hsa
    by (intros ->; apply Hns; unfold static; auto).
  assert (secret ≠ handlesBucketName) as Hsh
    by (intros ->; apply Hns; unfold static; auto).
  rewrite (Update_commit _ _ _ (DeleteAccount_tx_ok _ _ _ _ _ Hbk1 Ht Ha Hst Hsa))
    by (by apply DeleteAccount_tx_commits).
  simpl. split; [done|]. split; [|split].
  - unfold opened.
    rewrite lookup_insert_ne, lookup_insert_eq by done.
    rewrite lookup_insert_eq.
    rewrite !lookup_insert_ne, lookup_delete_ne by done.
    rewrite Hh. eauto.
  - intros s. rewrite entry_insert_bucket, decide_True by done.
    intros [v Hv]. apply lookup_delete_Some in Hv as [Hne Hv].
    destruct (Hacc1 s) as (? & Hnst & [bs Hbs]).
    { unfold entry. rewrite Ha. simpl. eauto. }
    split; [done|]. split; [done|].
    rewrite !lookup_insert_ne, lookup_delete_ne by
      (try done; intros <-; apply Hnst; unfold static; auto).
    eauto.
  - intros s. rewrite !entry_insert_bucket.
    rewrite (decide_False (P := accountsBucketName = targetsBucketName)) by done.
    rewrite !decide_True by done.
    intros [v Hv]. apply lookup_delete_Some in Hv as [Hne Hv].
    rewrite lookup_delete_ne by done.
    specialize (Htar1 s). unfold entry in Htar1. rewrite Ht, Ha in Htar1.
    apply Htar1. simpl. eauto.
Qed.

(** ** The command loop does not panic *)

Lemma HasAccount_opened secret (db : DB) :
  is_Some (db !! accountsBucketName) →
  HasAccount secret db
  = Returns (bool_decide (secret ≠ "" ∧ is_Some (entry db accountsBucketName secret))).
Proof.
  intros Ha. destruct (decide (secret = "")) as [->|Hs].
  { rewrite bool_decide_eq_false_2; [done|]. by intros [? _]. }
  destruct (entry db accountsBucketName secret) as [v|] eqn:He.
  - rewrite (HasAccount_true _ _ _ Hs He). rewrite bool_decide_eq_true_2; eauto.
  - rewrite (HasAccount_false _ _ Ha He). rewrite bool_decide_eq_false_2; [done|].
    intros [_ [? ?]]. done.
Qed.


Lemma GetAccountTarget_opened secret (db : DB) :
  is_Some (db !! targetsBucketName) →
  match GetAccountTarget secret db with
  | Returns (_, None) => secret ≠ "" ∧ is_Some (entry db targetsBucketName secret)
  | Returns (_, Some _) => True
  | Panics => False
  end.
Proof.
  intros [tb Htb]. unfold GetAccountTarget, GetAccountTarget_tx, entry.
  unfold_bolt. rewrite Htb. split_cases.
Qed.






Lemma known_secret_not_static (db : DB) secret :
  well_kept db → is_Some (entry db accountsBucketName secret) →
  secret ≠ "" ∧ ¬ static secret ∧ is_Some (db !! secret).
Proof. intros (_ & Hacc & _). apply Hacc. Qed.







(** A new-account command with a target of 2^31 - 2 letters: the store
    accepts the target, which is no longer than [MaxValueSize], and the
    loop panics when the transaction is committed. *)
Example handleCommands_long_target_panics :
  value_fits (long_text bolt.MaxValueSize) ∧
  ¬ target_fits (newAccountCommand "rpc" (long_text bolt.MaxValueSize)) ∧
  ∃ s', handleCommands 1 sample_server_long_tape
          [(time0, newAccountCommand "rpc" (long_text bolt.MaxValueSize))]
        = Some ([], Panicked s').
Proof.
  split; [|split].
  - unfold value_fits. rewrite length_long_text by done. lia.
  - unfold target_fits. rewrite length_long_text by done.
    change bolt.maxAllocSize with 2147483647%Z.
    change bolt.MaxValueSize with 2147483646%Z.
    change accountSecretSize with 64%Z. lia.
  - cbn [handleCommands handleCommand].
    rewrite decide_False by discriminate. unfold Server_NewAccount.
    assert (∃ s1, freshSecret 1 sample_server_long_tape
                  = Some (Returns (sample_new_secret, None), s1)
                  ∧ persistence s1 = store_with_handle) as (s1 & -> & Hp).
    { eexists. split; by_eval. }
    cbv beta iota. rewrite Hp.
    rewrite NewAccount_pair_too_large.
    + cbn [fmap option_fmap option_map answer_with]. by eexists.
    + by_eval.
    + discriminate.
    + by apply long_text_nonempty.
    + by_eval.
    + unfold value_fits. rewrite length_long_text by done. lia.
    + by_eval.
    + by_eval.
    + unfold bolt.pair_fits. rewrite length_long_text by done.
      change bolt.maxAllocSize with 2147483647%Z.
      change bolt.MaxValueSize with 2147483646%Z. simpl. lia.
Qed.

(** ** Enough fuel *)





(** ** A run of the command loop *)

(** A new handle asked for over the websocket, then the account deleted
    over the same transport (refused), then locally (done): the answers,
    and the store and the map file at the end. *)
Example handleCommands_sample :
  fst <$> sample_run
  = Some [("WXYZ012345HIJKLMNO@example.org", None);
          ("", Some ErrInvalidPermission);
          ("success", None)] ∧
  (λ s', HasAccount "testsecret" (persistence s')) <$> sample_end
  = Some (Returns false) ∧
  (λ s', HasAccount "othersecret" (persistence s')) <$> sample_end
  = Some (Returns true) ∧
  (λ s', HasHandleGlobal "WXYZ012345HIJKLMNO" (persistence s')) <$> sample_end
  = Some (Returns false) ∧
  (λ s', HasHandleGlobal "testhandle1" (persistence s')) <$> sample_end
  = Some (Returns false) ∧
  (λ s', mapfile (host s')) <$> sample_end = Some (Some sample_map).
Proof. by_eval. Qed.

(** * Further properties of the code *)

(** ** Opening the store *)

(** X1.  [OpenIncognitoData] never fails on the content of a database
    file; afterwards the three static buckets exist, every bucket the
    file had is there with the content it had, a bucket the file did not
    have is a static bucket and is empty, and a store that was opened
    before is left exactly as it was. *)
Theorem OpenIncognitoData_preserves (file : DB) :
  ∃ db, OpenIncognitoData file = (Returns None, db) ∧
        opened db ∧
        (∀ n bk, file !! n = Some bk → db !! n = Some bk) ∧
        (∀ n, file !! n = None → is_Some (db !! n) →
              static n ∧ db !! n = Some ∅) ∧
        (opened file → db = file).
Proof.
  destruct (OpenIncognitoData_tx_run file)
    as (db & Htx & Hc & _ & Ht & Ha & Hh & K & N & I).
  exists db. unfold OpenIncognitoData. rewrite (Update_commit _ _ _ Htx Hc).
  split; [done|]. split; [by unfold opened|]. done.
Qed.

(** ** The order of the keys *)

Lemma ascii_compare_refl (a : ascii) : (a ?= a)%char = Eq.
Proof. unfold Ascii.compare. apply N.compare_refl. Qed.

Lemma ascii_compare_lt_trans (a b c : ascii) :
  (a ?= b)%char = Lt → (b ?= c)%char = Lt → (a ?= c)%char = Lt.
Proof. unfold Ascii.compare. rewrite !N.compare_lt_iff. lia. Qed.

Lemma key_le_trans : Transitive bolt.key_le.
Proof.
  unfold bolt.key_le, String.leb.
  intros a. induction a as [|x a IH]; intros [|y b] [|z c]; simpl; try done.
  intros Hab Hbc.
  destruct (x ?= y)%char eqn:Hxy; [| |done].
  - apply Ascii.compare_eq_iff in Hxy as ->.
    destruct (y ?= z)%char eqn:Hyz; [|done..].
    by apply (IH b c).
  - destruct (y ?= z)%char eqn:Hyz; [| |done].
    + apply Ascii.compare_eq_iff in Hyz as <-. by rewrite Hxy.
    + by rewrite (ascii_compare_lt_trans _ _ _ Hxy Hyz).
Qed.

Lemma key_le_total : Total bolt.key_le.
Proof. intros a b. apply String.leb_total. Qed.

Lemma elem_of_keys (bk : bucket) (k : string) :
  k ∈ bolt.keys bk ↔ is_Some (bk !! k).
Proof.
  unfold bolt.keys. rewrite merge_sort_Permutation.
  rewrite list_elem_of_fmap. split.
  - intros ([k' v] & -> & Hin). apply elem_of_map_to_list in Hin. by exists v.
  - intros [v Hv]. exists (k, v). split; [done|]. by apply elem_of_map_to_list.
Qed.

Lemma NoDup_keys (bk : bucket) : NoDup (bolt.keys bk).
Proof.
  unfold bolt.keys. rewrite merge_sort_Permutation.
  apply NoDup_fst_map_to_list.
Qed.

Lemma keys_empty : bolt.keys ∅ = [].
Proof. reflexivity. Qed.

(** ** What the operations on handles do to the entries *)


Lemma HasHandleGlobal_entry handle (db : DB) :
  is_Some (db !! handlesBucketName) →
  HasHandleGlobal handle db
  = Returns (bool_decide (handle ≠ "" ∧ is_Some (entry db handlesBucketName handle))).
Proof.
  intros [hb Hhb]. unfold HasHandleGlobal.
  destruct (decide (handle = "")) as [->|Hh].
  { rewrite bool_decide_eq_false_2; [done|]. by intros [? _]. }
  unfold bolt.View, HasHandleGlobal_tx, bolt.bind.
  rewrite (Bucket_Some _ _ _ Hhb), (Get_lookup _ _ _ _ Hhb).
  rewrite (entry_lookup _ _ _ _ Hhb).
  destruct (hb !! handle) as [v|]; simpl.
  - rewrite bool_decide_eq_true_2; eauto.
  - rewrite bool_decide_eq_false_2; [done|]. by intros [_ [? ?]].
Qed.

Lemma ListAccountHandles_elem secret (db : DB) :
  secret ≠ "" → is_Some (db !! secret) →
  ∃ handles, ListAccountHandles secret db = Returns (handles, None) ∧
             ∀ h, h ∈ handles ↔ is_Some (entry db secret h).
Proof.
  intros Hs [bk Hbk]. exists (bolt.keys bk).
  split; [by apply ListAccountHandles_present|].
  intros h. rewrite (entry_lookup _ _ _ _ Hbk). apply elem_of_keys.
Qed.

Lemma ListAccountHandles_bucket secret (db db' : DB) :
  db' !! secret = db !! secret →
  ListAccountHandles secret db' = ListAccountHandles secret db.
Proof.
  intros H. unfold ListAccountHandles, ListAccountHandles_tx. unfold_bolt.
  rewrite H. destruct (decide (secret = "")); [done|].
  destruct (db !! secret) as [bk|] eqn:E; [|done]. by rewrite H, E.
Qed.

(** X2.  For a non-empty secret that has a namespace,
    [ListAccountHandles] returns without error exactly the keys of the
    namespace, each once, in byte order. *)
Theorem ListAccountHandles_sorted (secret : string) (db : DB) :
  secret ≠ "" → is_Some (db !! secret) →
  ∃ handles, ListAccountHandles secret db = Returns (handles, None) ∧
             (∀ h, h ∈ handles ↔ is_Some (entry db secret h)) ∧
             NoDup handles ∧
             StronglySorted (λ a b, String.leb a b = true) handles.
Proof.
  intros Hs [bk Hbk]. exists (bolt.keys bk).
  split; [by apply ListAccountHandles_present|]. split; [|split].
  - intros h. rewrite (entry_lookup _ _ _ _ Hbk). apply elem_of_keys.
  - apply NoDup_keys.
  - exact (@StronglySorted_merge_sort _ bolt.key_le _ key_le_trans key_le_total _).
Qed.

Lemma ListAccountHandles_sorted_witness :
  ∃ handles, ListAccountHandles "testsecret" store_with_handle
             = Returns (handles, None) ∧
             (∀ h, h ∈ handles
                   ↔ is_Some (entry store_with_handle "testsecret" h)) ∧
             NoDup handles ∧
             StronglySorted (λ a b, String.leb a b = true) handles.
Proof.
  apply (ListAccountHandles_sorted "testsecret" store_with_handle).
  - discriminate.
  - by_eval.
Defined.

(** X3.  When [NewAccountHandle] succeeds, the handle was not in the
    global index and is in it afterwards; the handles listed for the
    account are those listed before and the new one; the answers of
    [HasHandleGlobal] for the other handles and the buckets of the other
    accounts are as before. *)
Theorem NewAccountHandle_listed
    (now : GobTime) (secret handle : string) (db db' : DB) :
  NewAccountHandle now secret handle db = (Returns None, db') →
  HasHandleGlobal handle db = Returns false ∧
  HasHandleGlobal handle db' = Returns true ∧
  (∃ before after,
      ListAccountHandles secret db = Returns (before, None) ∧
      ListAccountHandles secret db' = Returns (after, None) ∧
      ∀ h, h ∈ after ↔ h = handle ∨ h ∈ before) ∧
  (∀ h, h ≠ handle → HasHandleGlobal h db' = HasHandleGlobal h db) ∧
  (∀ other, other ≠ secret → other ≠ handlesBucketName →
            db' !! other = db !! other).
Proof.
  intros Hnew.
  destruct (NewAccountHandle_inv _ _ _ _ _ Hnew)
    as (Hs & Hh & Hbk & Hhb & Hfree & Hent & Hbuckets).
  assert (is_Some (db' !! handlesBucketName)) as Hhb' by by apply Hbuckets.
  assert (is_Some (db' !! secret)) as Hbk' by by apply Hbuckets.
  split; [|split; [|split; [|split]]].
  - rewrite (HasHandleGlobal_entry _ _ Hhb), Hfree.
    rewrite bool_decide_eq_false_2; [done|]. by intros [_ [? ?]].
  - rewrite (HasHandleGlobal_entry _ _ Hhb'), Hent.
    rewrite decide_True by auto. rewrite bool_decide_eq_true_2; eauto.
  - destruct (ListAccountHandles_elem secret db Hs Hbk) as (before & Hb & Hin).
    destruct (ListAccountHandles_elem secret db' Hs Hbk') as (after & Ha & Hin').
    exists before, after. split; [done|]. split; [done|].
    intros h. rewrite Hin, Hin', Hent.
    destruct (decide (h = handle)) as [->|Hne].
    + rewrite decide_True by auto. split; eauto.
    + rewrite decide_False by (by intros [_ ?]). split; [by auto|].
      by intros [?|?].
  - intros h Hne. rewrite (HasHandleGlobal_entry _ _ Hhb).
    rewrite (HasHandleGlobal_entry _ _ Hhb'), Hent.
    by rewrite decide_False by (by intros [_ ?]).
  - intros other Ho Hoh. apply bucket_ext; [apply Hbuckets|].
    intros k. rewrite Hent. rewrite decide_False; [done|].
    by intros [[?|?] _].
Qed.

Lemma NewAccountHandle_listed_witness :
  HasHandleGlobal "testhandle1" store_two_accounts = Returns false ∧
  HasHandleGlobal "testhandle1" store_with_handle = Returns true ∧
  (∃ before after,
      ListAccountHandles "testsecret" store_two_accounts
      = Returns (before, None) ∧
      ListAccountHandles "testsecret" store_with_handle
      = Returns (after, None) ∧
      ∀ h, h ∈ after ↔ h = "testhandle1" ∨ h ∈ before) ∧
  (∀ h, h ≠ "testhandle1" →
        HasHandleGlobal h store_with_handle
        = HasHandleGlobal h store_two_accounts) ∧
  (∀ other, other ≠ "testsecret" → other ≠ handlesBucketName →
            store_with_handle !! other = store_two_accounts !! other).
Proof.
  apply (NewAccountHandle_listed time2 "testsecret" "testhandle1"
           store_two_accounts store_with_handle).
  by_eval.
Defined.

(** X4.  In an opened store, [DeleteAccountHandle] with a non-empty
    handle and the secret of an existing namespace returns; the handle is
    then out of the global index and out of the list of the account (it
    is not asked whether the account owned it), the other handles of the
    account are listed as before, the answers of [HasHandleGlobal] for
    the other handles and the buckets of the other accounts are as
    before. *)
Theorem DeleteAccountHandle_unlisted (secret handle : string) (db : DB) :
  opened db → secret ≠ "" → handle ≠ "" → is_Some (db !! secret) →
  ∃ db', DeleteAccountHandle secret handle db = (Returns (), db') ∧
         HasHandleGlobal handle db' = Returns false ∧
         (∃ before after,
             ListAccountHandles secret db = Returns (before, None) ∧
             ListAccountHandles secret db' = Returns (after, None) ∧
             ∀ h, h ∈ after ↔ h ≠ handle ∧ h ∈ before) ∧
         (∀ h, h ≠ handle → HasHandleGlobal h db' = HasHandleGlobal h db) ∧
         (∀ other, other ≠ secret → other ≠ handlesBucketName →
                   db' !! other = db !! other).
Proof.
  intros (_ & _ & Hhb) Hs Hh Hbk.
  destruct (DeleteAccountHandle_entries secret handle db Hs Hbk Hhb)
    as (db' & Hdel & Hent & Hbuckets).
  assert (is_Some (db' !! handlesBucketName)) as Hhb' by by apply Hbuckets.
  assert (is_Some (db' !! secret)) as Hbk' by by apply Hbuckets.
  exists db'. split; [done|]. split; [|split; [|split]].
  - rewrite (HasHandleGlobal_entry _ _ Hhb'), Hent.
    rewrite decide_True by auto.
    rewrite bool_decide_eq_false_2; [done|]. by intros [_ [? ?]].
  - destruct (ListAccountHandles_elem secret db Hs Hbk) as (before & Hb & Hin).
    destruct (ListAccountHandles_elem secret db' Hs Hbk') as (after & Ha & Hin').
    exists before, after. split; [done|]. split; [done|].
    intros h. rewrite Hin, Hin', Hent.
    destruct (decide (h = handle)) as [->|Hne].
    + rewrite decide_True by auto. split; [by intros [? ?]|by intros [? _]].
    + rewrite decide_False by (by intros (_ & ? & _)). split; [by auto|].
      by intros [_ ?].
  - intros h Hne. rewrite (HasHandleGlobal_entry _ _ Hhb).
    rewrite (HasHandleGlobal_entry _ _ Hhb'), Hent.
    by rewrite decide_False by (by intros (_ & ? & _)).
  - intros other Ho Hoh. apply bucket_ext; [apply Hbuckets|].
    intros k. rewrite Hent. rewrite decide_False; [done|].
    by intros [[?|?] _].
Qed.

Lemma DeleteAccountHandle_unlisted_witness :
  ∃ db', DeleteAccountHandle "testsecret" "testhandle1" store_with_handle
         = (Returns (), db') ∧
         HasHandleGlobal "testhandle1" db' = Returns false ∧
         (∃ before after,
             ListAccountHandles "testsecret" store_with_handle
             = Returns (before, None) ∧
             ListAccountHandles "testsecret" db' = Returns (after, None) ∧
             ∀ h, h ∈ after ↔ h ≠ "testhandle1" ∧ h ∈ before) ∧
         (∀ h, h ≠ "testhandle1" →
               HasHandleGlobal h db' = HasHandleGlobal h store_with_handle) ∧
         (∀ other, other ≠ "testsecret" → other ≠ handlesBucketName →
                   db' !! other = store_with_handle !! other).
Proof.
  apply (DeleteAccountHandle_unlisted "testsecret" "testhandle1"
           store_with_handle).
  - by_eval.
  - discriminate.
  - discriminate.
  - by_eval.
Defined.

(** X5.  A handle that [NewAccountHandle] has just added to an account
    that did not list it is taken away again by [DeleteAccountHandle]
    with the same secret, and the store is then exactly what it was
    before the two calls. *)
Theorem NewAccountHandle_then_DeleteAccountHandle
    (now : GobTime) (secret handle : string) (db db' : DB) :
  NewAccountHandle now secret handle db = (Returns None, db') →
  entry db secret handle = None →
  DeleteAccountHandle secret handle db' = (Returns (), db).
Proof.
  intros Hnew Hfresh.
  destruct (NewAccountHandle_inv _ _ _ _ _ Hnew)
    as (Hs & Hh & Hbk & Hhb & Hfree & Hent & Hbuckets).
  assert (is_Some (db' !! handlesBucketName)) as Hhb' by by apply Hbuckets.
  assert (is_Some (db' !! secret)) as Hbk' by by apply Hbuckets.
  destruct (DeleteAccountHandle_entries secret handle db' Hs Hbk' Hhb')
    as (db'' & -> & Hent' & Hbuckets').
  f_equal. apply DB_ext.
  - intros n. by rewrite Hbuckets', Hbuckets.
  - intros b k. rewrite Hent', Hent.
    destruct (decide ((b = secret ∨ b = handlesBucketName) ∧ k = handle))
      as [[Hb ->]|Hno].
    + rewrite decide_True by auto. by destruct Hb as [->| ->].
    + rewrite decide_False; [done|]. intros (? & ? & _). by apply Hno.
Qed.

Lemma NewAccountHandle_then_DeleteAccountHandle_witness :
  DeleteAccountHandle "testsecret" "testhandle1" store_with_handle
  = (Returns (), store_two_accounts).
Proof.
  apply (NewAccountHandle_then_DeleteAccountHandle time2 "testsecret"
           "testhandle1" store_two_accounts store_with_handle).
  - by_eval.
  - by_eval.
Defined.

(** ** Deleting an account *)

Lemma deleteHandles_entries secret hs (db : DB) :
  secret ≠ "" → is_Some (db !! secret) → is_Some (db !! handlesBucketName) →
  ∃ db', deleteHandles secret hs db = (Returns (), db') ∧
         (∀ b k, entry db' b k
                 = if decide ((b = secret ∨ b = handlesBucketName)
                              ∧ k ∈ hs ∧ k ≠ "")
                   then None else entry db b k) ∧
         (∀ n, is_Some (db' !! n) ↔ is_Some (db !! n)).
Proof.
  intros Hs. revert db.
  induction hs as [|v rest IH]; intros db Hbk Hhb; simpl.
  - exists db. split; [done|]. split; [|done]. intros b k.
    rewrite decide_False; [done|]. intros (_ & Hin & _). by apply elem_of_nil in Hin.
  - destruct (DeleteAccountHandle_entries secret v db Hs Hbk Hhb)
      as (db1 & -> & Hent1 & Hb1).
    destruct (IH db1) as (db2 & -> & Hent2 & Hb2); [by apply Hb1..|].
    exists db2. split; [done|]. split.
    + intros b k. rewrite Hent2, Hent1.
      destruct (decide ((b = secret ∨ b = handlesBucketName) ∧ k ∈ rest ∧ k ≠ ""))
        as [(Hb & Hin & Hk)|Hno].
      { rewrite decide_True; [done|]. split; [done|]. split; [|done].
        by apply list_elem_of_further. }
      destruct (decide ((b = secret ∨ b = handlesBucketName) ∧ k = v ∧ v ≠ ""))
        as [(Hb & -> & Hk)|Hno'].
      { rewrite decide_True; [done|]. split; [done|]. split; [|done].
        by apply list_elem_of_here. }
      rewrite decide_False; [done|]. intros (Hb & Hin & Hk).
      apply elem_of_cons in Hin as [->|Hin]; [by apply Hno'|by apply Hno].
    + intros n. by rewrite Hb2, Hb1.
Qed.

Lemma DeleteAccount_entries secret (db : DB) :
  opened db → secret ≠ "" → ¬ static secret → is_Some (db !! secret) →
  ∃ db', DeleteAccount secret db = (Returns (), db') ∧
         db' !! secret = None ∧
         (∀ n, n ≠ secret → is_Some (db' !! n) ↔ is_Some (db !! n)) ∧
         (∀ b k, b ≠ secret →
                 entry db' b k
                 = if decide ((b = handlesBucketName
                               ∧ is_Some (entry db secret k) ∧ k ≠ "")
                              ∨ ((b = targetsBucketName ∨ b = accountsBucketName)
                                 ∧ k = secret))
                   then None else entry db b k).
Proof.
  intros Hop Hs Hns [bk Hbk]. pose proof Hop as (Ht & Ha & Hh).
  assert (secret ≠ targetsBucketName) as Hst
    by (intros ->; apply Hns; unfold static; auto).
  assert (secret ≠ accountsBucketName) as Hsa
    by (intros ->; apply Hns; unfold static; auto).
  assert (secret ≠ handlesBucketName) as Hsh
    by (intros ->; apply Hns; unfold static; auto).
  unfold DeleteAccount. rewrite decide_False by done.
  rewrite (ListAccountHandles_present _ _ _ Hs Hbk).
  destruct (deleteHandles_entries secret (bolt.keys bk) db Hs) as
    (db1 & -> & Hent1 & Hb1); [by eauto|done|].
  destruct (proj2 (Hb1 secret)) as [bk1 Hbk1]; [by eauto|].
  destruct (proj2 (Hb1 targetsBucketName) Ht) as [tb Htb].
  destruct (proj2 (Hb1 accountsBucketName) Ha) as [ab Hab].
  rewrite (Update_commit _ _ _ (DeleteAccount_tx_ok _ _ _ _ _ Hbk1 Htb Hab Hst Hsa))
    by (by apply DeleteAccount_tx_commits).
  eexists. split; [done|]. split; [|split].
  - rewrite !lookup_insert_ne by done. apply lookup_delete_eq.
  - intros n Hn. rewrite <- Hb1. rewrite !lookup_insert.
    repeat case_decide; simplify_eq; rewrite ?lookup_delete_ne by done;
      split; eauto.
  - intros b k Hb. rewrite !entry_insert_bucket.
    assert (∀ k', entry db1 b k'
                  = if decide (b = handlesBucketName ∧ k' ∈ bolt.keys bk ∧ k' ≠ "")
                    then None else entry db b k') as Hent.
    { intros k'. rewrite Hent1. apply decide_ext.
      split; [intros [[?|?] ?]; by auto|intros [? ?]; by auto]. }
    destruct (decide (accountsBucketName = b)) as [<-|Hba].
    { destruct (decide (k = secret)) as [->|Hk].
      - rewrite lookup_delete_eq. rewrite decide_True; auto.
      - rewrite lookup_delete_ne by done.
        rewrite <- (entry_lookup db1 accountsBucketName ab) by done.
        rewrite Hent. rewrite decide_False by (by intros [? _]).
        rewrite decide_False; [done|]. intros [[? _]|[_ ?]]; done. }
    destruct (decide (targetsBucketName = b)) as [<-|Hbt].
    { destruct (decide (k = secret)) as [->|Hk].
      - rewrite lookup_delete_eq. rewrite decide_True; auto.
      - rewrite lookup_delete_ne by done.
        rewrite <- (entry_lookup db1 targetsBucketName tb) by done.
        rewrite Hent. rewrite decide_False by (by intros [? _]).
        rewrite decide_False; [done|]. intros [[? _]|[_ ?]]; done. }
    assert (entry (delete secret db1) b k = entry db1 b k) as ->.
    { unfold entry. by rewrite lookup_delete_ne. }
    rewrite Hent. apply decide_ext. rewrite elem_of_keys.
    rewrite (entry_lookup _ _ _ _ Hbk). split; [by auto|].
    intros [?|[[?|?] _]]; [done|congruence..].
Qed.

Lemma GetAccountTarget_cases secret (db : DB) :
  is_Some (db !! targetsBucketName) →
  GetAccountTarget secret db
  = if decide (secret = "") then Returns ("", Some ErrEmptySecret)
    else match entry db targetsBucketName secret with
         | Some t => Returns (t, None)
         | None => Returns ("", Some ErrAccountNotFound)
         end.
Proof.
  intros [tb Htb]. unfold GetAccountTarget. case_decide; [done|].
  unfold bolt.View, GetAccountTarget_tx, bolt.bind.
  rewrite (Bucket_Some _ _ _ Htb), (Get_lookup _ _ _ _ Htb).
  rewrite (entry_lookup _ _ _ _ Htb). by destruct (tb !! secret).
Qed.

Lemma HasAccount_known secret (db : DB) :
  well_kept db → HasAccount secret db = Returns true →
  secret ≠ "" ∧ ¬ static secret ∧ is_Some (db !! secret) ∧
  is_Some (entry db accountsBucketName secret).
Proof.
  intros Hwk. pose proof Hwk as ((_ & Ha & _) & _).
  rewrite (HasAccount_opened _ _ Ha). intros [= Hb].
  apply bool_decide_eq_true in Hb as [Hs Hk].
  destruct (known_secret_not_static _ _ Hwk Hk) as (_ & ? & ?). done.
Qed.

(** X6.  In a well-kept store, [DeleteAccount] on the secret of an
    account returns and leaves a well-kept store in which the account is
    unknown ([HasAccount] is false, [GetAccountTarget] fails with
    [ErrAccountNotFound], the namespace is gone) and none of the handles it
    listed is in the global index; the other accounts, their targets,
    their namespaces and the handles the account did not list are as
    before. *)
Theorem DeleteAccount_removes (secret : string) (db : DB) :
  well_kept db → HasAccount secret db = Returns true →
  ∃ db', DeleteAccount secret db = (Returns (), db') ∧
         well_kept db' ∧
         HasAccount secret db' = Returns false ∧
         GetAccountTarget secret db' = Returns ("", Some ErrAccountNotFound) ∧
         db' !! secret = None ∧
         (∀ h, is_Some (entry db secret h) →
               HasHandleGlobal h db' = Returns false) ∧
         (∀ h, entry db secret h = None →
               HasHandleGlobal h db' = HasHandleGlobal h db) ∧
         (∀ other, other ≠ secret →
                   HasAccount other db' = HasAccount other db ∧
                   GetAccountTarget other db' = GetAccountTarget other db) ∧
         (∀ other, other ≠ secret → ¬ static other →
                   db' !! other = db !! other).
Proof.
  intros Hwk Hacc.
  destruct (HasAccount_known _ _ Hwk Hacc) as (Hs & Hns & Hbk & Hk).
  pose proof Hwk as (Hop & _). pose proof Hop as (Ht & Ha & Hh).
  destruct (well_kept_DeleteAccount secret db Hwk Hs Hns Hbk) as [_ Hwk'].
  destruct (DeleteAccount_entries secret db Hop Hs Hns Hbk)
    as (db' & Hdel & Hgone & Hbuckets & Hent).
  rewrite Hdel in Hwk'. simpl in Hwk'.
  pose proof Hwk' as ((Ht' & Ha' & Hh') & _).
  assert (secret ≠ targetsBucketName) as Hst
    by (intros ->; apply Hns; unfold static; auto).
  assert (secret ≠ accountsBucketName) as Hsa
    by (intros ->; apply Hns; unfold static; auto).
  assert (secret ≠ handlesBucketName) as Hsh
    by (intros ->; apply Hns; unfold static; auto).
  exists db'. split; [done|]. split; [done|].
  split; [|split; [|split; [done|split; [|split; [|split]]]]].
  - rewrite (HasAccount_opened _ _ Ha'). rewrite Hent by done.
    rewrite decide_True by auto.
    rewrite bool_decide_eq_false_2; [done|]. by intros [_ [? ?]].
  - rewrite (GetAccountTarget_cases _ _ Ht'). rewrite decide_False by done.
    rewrite Hent by done. by rewrite decide_True by auto.
  - intros h Hlisted. rewrite (HasHandleGlobal_entry _ _ Hh').
    rewrite bool_decide_eq_false_2; [done|]. intros [Hne [v Hv]].
    rewrite Hent in Hv by done. rewrite decide_True in Hv by auto. done.
  - intros h Hnot. rewrite (HasHandleGlobal_entry _ _ Hh').
    rewrite (HasHandleGlobal_entry _ _ Hh). rewrite Hent by done.
    rewrite decide_False; [done|]. rewrite Hnot.
    intros [(_ & [? ?] & _)|[[?|?] _]]; done.
  - intros other Ho. split.
    + rewrite (HasAccount_opened _ _ Ha'), (HasAccount_opened _ _ Ha).
      rewrite Hent by done. rewrite decide_False; [done|].
      intros [[? _]|[_ ?]]; done.
    + rewrite (GetAccountTarget_cases _ _ Ht'), (GetAccountTarget_cases _ _ Ht).
      rewrite Hent by done. rewrite (decide_False (P := _ ∨ _)); [done|].
      intros [[? _]|[_ ?]]; done.
  - intros other Ho Hnso. apply bucket_ext; [by apply Hbuckets|].
    intros k. rewrite Hent by done. rewrite decide_False; [done|].
    intros [[-> _]|[[-> | ->] _]]; apply Hnso; unfold static; auto.
Qed.

Lemma DeleteAccount_removes_witness :
  ∃ db', DeleteAccount "testsecret" store_with_handle = (Returns (), db') ∧
         well_kept db' ∧
         HasAccount "testsecret" db' = Returns false ∧
         GetAccountTarget "testsecret" db'
         = Returns ("", Some ErrAccountNotFound) ∧
         db' !! "testsecret" = None ∧
         (∀ h, is_Some (entry store_with_handle "testsecret" h) →
               HasHandleGlobal h db' = Returns false) ∧
         (∀ h, entry store_with_handle "testsecret" h = None →
               HasHandleGlobal h db' = HasHandleGlobal h store_with_handle) ∧
         (∀ other, other ≠ "testsecret" →
                   HasAccount other db' = HasAccount other store_with_handle ∧
                   GetAccountTarget other db'
                   = GetAccountTarget other store_with_handle) ∧
         (∀ other, other ≠ "testsecret" → ¬ static other →
                   db' !! other = store_with_handle !! other).
Proof.
  apply (DeleteAccount_removes "testsecret" store_with_handle).
  - apply well_kept_NewAccountHandle; [|by_eval].
    apply well_kept_NewAccount. apply well_kept_NewAccount.
    apply well_kept_fresh_store.
  - by_eval.
Defined.

(** X7.  In a well-kept store, an account that [NewAccount] has just
    created is removed again by [DeleteAccount], and the store is then
    exactly what it was before the two calls. *)
Theorem NewAccount_then_DeleteAccount
    (now : GobTime) (secret target : string) (db db' : DB) :
  well_kept db →
  NewAccount now secret target db = (Returns None, db') →
  DeleteAccount secret db' = (Returns (), db).
Proof.
  intros Hwk Hnew. pose proof Hwk as (Hop & Hacc & Htar).
  pose proof Hop as ([tb Htb] & [ab Hab] & Hh).
  pose proof (NewAccount_cases now secret target db tb ab Htb Hab) as Hc.
  rewrite Hnew in Hc. destruct Hc as (Hs & Hfree & Hdb').
  assert (¬ static secret) as Hns.
  { intros Hst. apply (static_bucket db) in Hst; [|done].
    rewrite Hfree in Hst. by destruct Hst. }
  assert (secret ≠ targetsBucketName) as Hst
    by (intros ->; apply Hns; unfold static; auto).
  assert (secret ≠ accountsBucketName) as Hsa
    by (intros ->; apply Hns; unfold static; auto).
  assert (entry db accountsBucketName secret = None) as Hnoacc.
  { destruct (entry db accountsBucketName secret) as [v|] eqn:E; [|done].
    destruct (Hacc secret) as (_ & _ & Hbk); [by eauto|].
    rewrite Hfree in Hbk. by destruct Hbk. }
  assert (entry db targetsBucketName secret = None) as Hnotar.
  { destruct (entry db targetsBucketName secret) as [v|] eqn:E; [|done].
    destruct (Htar secret) as [v' Hv']; [by eauto|]. congruence. }
  assert (∀ n, n ≠ secret → is_Some (db' !! n) ↔ is_Some (db !! n)) as Hbuckets.
  { intros n Hn. rewrite Hdb', !lookup_insert.
    repeat case_decide; simplify_eq; split; eauto. }
  assert (∀ b k, b ≠ secret →
                 entry db' b k
                 = if decide ((b = targetsBucketName ∨ b = accountsBucketName)
                              ∧ k = secret)
                   then entry db' b k else entry db b k) as Hent.
  { intros b k Hb. case_decide as Hc; [done|].
    rewrite Hdb', !entry_insert_bucket.
    destruct (decide (accountsBucketName = b)) as [<-|Hba].
    { rewrite lookup_insert_ne by (intros <-; apply Hc; auto).
      by rewrite (entry_lookup _ _ _ _ Hab). }
    destruct (decide (targetsBucketName = b)) as [<-|Hbt].
    { rewrite lookup_insert_ne by (intros <-; apply Hc; auto).
      by rewrite (entry_lookup _ _ _ _ Htb). }
    by rewrite decide_False by congruence. }
  assert (db' !! secret = Some ∅) as Hbk'.
  { rewrite Hdb'. do 2 (rewrite lookup_insert_ne by done).
    apply lookup_insert_eq. }
  assert (opened db') as Hop'.
  { destruct Hop as (? & ? & ?). unfold opened.
    rewrite !Hbuckets; [done|intros <-; apply Hns; unfold static; auto..]. }
  destruct (DeleteAccount_entries secret db' Hop' Hs Hns)
    as (db'' & -> & Hgone & Hbuckets' & Hent'); [by eauto|].
  f_equal. apply DB_ext.
  - intros n. destruct (decide (n = secret)) as [->|Hn].
    + rewrite Hgone, Hfree. done.
    + by rewrite Hbuckets', Hbuckets.
  - intros b k. destruct (decide (b = secret)) as [->|Hb].
    + unfold entry. by rewrite Hgone, Hfree.
    + rewrite Hent' by done. rewrite (entry_lookup _ _ _ _ Hbk').
      rewrite lookup_empty.
      destruct (decide ((b = targetsBucketName ∨ b = accountsBucketName)
                        ∧ k = secret)) as [[Hb' ->]|Hno].
      * rewrite decide_True by auto. by destruct Hb' as [-> | ->].
      * rewrite decide_False.
        { rewrite Hent by done. by rewrite decide_False. }
        intros [(_ & [? ?] & _)|?]; done.
Qed.

Lemma NewAccount_then_DeleteAccount_witness :
  DeleteAccount "othersecret" store_two_accounts
  = (Returns (), store_with_account).
Proof.
  apply (NewAccount_then_DeleteAccount time1 "othersecret" "other@example.com"
           store_with_account store_two_accounts).
  - apply well_kept_NewAccount. apply well_kept_fresh_store.
  - by_eval.
Defined.

(** X8.  [DeleteAccountHandle] can be repeated: a second call with the
    same arguments ends as the first one did and leaves the store the
    first one left, whatever the store and the arguments. *)
Theorem DeleteAccountHandle_idempotent (secret handle : string) (db : DB) :
  DeleteAccountHandle secret handle (DeleteAccountHandle secret handle db).2
  = DeleteAccountHandle secret handle db.
Proof.
  assert ((∃ o, DeleteAccountHandle secret handle db = (o, db)) ∨
          (secret ≠ "" ∧ is_Some (db !! secret)
           ∧ is_Some (db !! handlesBucketName))) as [[o Ho]|(Hs & Hbk & Hhb)].
  { unfold DeleteAccountHandle.
    destruct (decide (secret = "")) as [|Hs]; [by eauto|].
    destruct (decide (handle = "")) as [|Hh]; [by eauto|].
    unfold bolt.Update, DeleteAccountHandle_tx, bolt.bind.
    destruct (db !! secret) as [bk|] eqn:Hbk;
      [|rewrite (Bucket_None _ _ Hbk); by eauto].
    destruct (db !! handlesBucketName) as [hb|] eqn:Hhb; [by eauto|].
    left. rewrite (Bucket_Some _ _ _ Hbk), (Bucket_None _ _ Hhb).
    rewrite (Delete_ok _ _ _ _ Hbk). simpl. eauto. }
  { rewrite Ho. simpl. exact Ho. }
  destruct (DeleteAccountHandle_entries secret handle db Hs Hbk Hhb)
    as (db' & -> & Hent & Hbuckets). simpl.
  destruct (DeleteAccountHandle_entries secret handle db' Hs)
    as (db'' & -> & Hent' & Hbuckets'); [by apply Hbuckets..|].
  f_equal. apply DB_ext; [done|].
  intros b k. rewrite Hent', Hent. repeat case_decide; done.
Qed.

(** ** The bias of the generator *)

Lemma all_bytes_complete (b : Byte.byte) : b ∈ all_bytes.
Proof. destruct b; compute_done. Qed.

(** X9.  The symbols are not drawn evenly: the mask keeps 64 values for
    62 symbols, and the remainder sends 62 and 63 back to the first two
    symbols.  Of the 256 values of a byte, each of which is listed once,
    eight give [a], eight give [b], and four give each of the other
    sixty symbols. *)
Theorem generateRandomString_frequencies :
  (∀ b : Byte.byte, b ∈ all_bytes) ∧ NoDup all_bytes ∧
  (∀ b, charIndex b = ((byte_val b mod 64) mod 62)%Z) ∧
  byte_values_of "a" = 8%nat ∧ byte_values_of "b" = 8%nat ∧
  (∀ c, c ∈ list_ascii_of_string allowedCharacters →
        byte_values_of c
        = if bool_decide (c = "a"%char ∨ c = "b"%char) then 8%nat else 4%nat).
Proof.
  split; [apply all_bytes_complete|]. split; [compute_done|].
  split; [intros b; destruct b; reflexivity|].
  split; [compute_done|]. split; [compute_done|].
  apply Forall_forall. compute_done.
Qed.

(** ** Adding and removing a line of the map *)

Lemma append_cons (x : ascii) (a b : string) :
  String x a +:+ b = String x (a +:+ b).
Proof. reflexivity. Qed.

Lemma append_assoc (a b c : string) : (a +:+ b) +:+ c = a +:+ (b +:+ c).
Proof. induction a as [|x a IH]; [done|]. by rewrite !append_cons, IH. Qed.

Lemma append_nil_r (a : string) : a +:+ "" = a.
Proof. induction a as [|x a IH]; [done|]. by rewrite append_cons, IH. Qed.

Lemma write_lines_app (ls1 ls2 : list string) :
  write_lines (ls1 ++ ls2) = write_lines ls1 +:+ write_lines ls2.
Proof.
  induction ls1 as [|l ls1 IH]; simpl; [done|].
  by rewrite IH, !append_assoc.
Qed.

Lemma dropCR_append (h s : string) :
  s ≠ "" → scanner.dropCR (h +:+ s) = h +:+ scanner.dropCR s.
Proof.
  intros Hs. induction h as [|x h IH]; [done|].
  change (String x h +:+ s) with (String x (h +:+ s)).
  destruct (h +:+ s) as [|y r] eqn:E.
  { destruct h; [simpl in E; done|discriminate]. }
  change (scanner.dropCR (String x (String y r)))
    with (String x (scanner.dropCR (String y r))).
  by rewrite IH.
Qed.

Lemma prefix_append (h s : string) : String.prefix h (h +:+ s) = true.
Proof.
  induction h as [|x h IH]; simpl; [by destruct s|].
  by destruct (ascii_dec x x).
Qed.

Lemma map_line_removed (p : PostfixWriter) (h t : string) :
  keep_line h (scanner.dropCR (map_line p h t)) = false.
Proof.
  unfold keep_line, map_line. rewrite append_assoc.
  rewrite dropCR_append by (by destruct (domain p)).
  by rewrite prefix_append.
Qed.

(** X10.  On a host where opening and writing the map file, creating
    the temporary file and renaming it over the map all succeed and
    [postmap] works, on a map file made of plain lines none of which
    starts with [h], and for a handle, a domain and a target that make a
    line without newline that fits the scanner's buffer: [AddHandle h t]
    returns the handle with the domain and appends one line to the file,
    [RemoveHandle h] then returns no error and the file is again what it
    was; [postmap] has run once on each of the two contents. *)
Theorem AddHandle_then_RemoveHandle
    (p : PostfixWriter) (h t : string) (ls : list string) (m : MailHost) :
  host_works m →
  mapfile m = Some (write_lines ls) → postmap_fails m = false →
  Forall (λ l, plain_line l ∧ String.prefix h l = false) ls →
  has_newline (map_line p h t) = false →
  scanner.fits (map_line p h t) = true →
  ∃ m1 m2,
    AddHandle p h t m = ((h +:+ domain p, None), m1) ∧
    mapfile m1 = Some (write_lines (ls ++ [map_line p h t])) ∧
    RemoveHandle p h m1 = (None, m2) ∧
    mapfile m2 = mapfile m ∧
    postmap_runs m2 = (postmap_runs m ++ [mapfile m1; mapfile m])%list.
Proof.
  intros (Ho & Hw & Htmp & Hr) Hm Hpm Hls Hnl Hfit.
  assert (write_lines ls +:+ (h +:+ domain p) +:+ " " +:+ t +:+ String newline ""
          = write_lines (ls ++ [map_line p h t])) as Hcontent.
  { rewrite write_lines_app. unfold map_line. simpl.
    by rewrite !append_assoc, append_nil_r. }
  unfold AddHandle, invokePostmap, write_mapfile. simpl.
  rewrite Ho, Hw, Hm, Hpm. simpl. rewrite Hcontent.
  eexists. eexists. split; [reflexivity|]. simpl. split; [done|].
  erewrite RemoveHandle_run; [|by repeat split|reflexivity].
  unfold invokePostmap, write_mapfile. simpl.
  assert (write_lines
            (filter (λ l, keep_line h l = true)
               (scanner.tokens (write_lines (ls ++ [map_line p h t]))))
          = write_lines ls) as ->.
  { unfold scanner.tokens. rewrite raw_lines_write_lines.
    2: { apply Forall_app. split; [|by repeat constructor].
         eapply Forall_impl; [exact Hls|]. by intros l [(? & _) _]. }
    rewrite scan_all_fit.
    2: { apply Forall_app. split; [|by repeat constructor].
         eapply Forall_impl; [exact Hls|]. by intros l [(_ & ? & _) _]. }
    rewrite fmap_app, filter_app. simpl.
    rewrite filter_cons_False by (rewrite map_line_removed; done).
    rewrite filter_nil, app_nil_r. f_equal.
    clear -Hls. induction Hls as [|l ls [(_ & _ & Hcr) Hpre] _ IH]; [done|].
    rewrite fmap_cons, Hcr.
    rewrite filter_cons_True by (unfold keep_line; by rewrite Hpre).
    by rewrite IH. }
  split; [reflexivity|]. split; [done|].
  simpl. by rewrite <- app_assoc.
Qed.

Lemma AddHandle_then_RemoveHandle_witness :
  ∃ m1 m2,
    AddHandle sample_writer "WXYZ012345HIJKLMNO" "testtarget@example.com"
      (host_with sample_map)
    = (("WXYZ012345HIJKLMNO" +:+ domain sample_writer, None), m1) ∧
    mapfile m1
    = Some (write_lines
              (["abc@example.org a@example.com";
                "xyz@example.org b@example.com";
                "abd@example.org c@example.com"]
               ++ [map_line sample_writer "WXYZ012345HIJKLMNO"
                     "testtarget@example.com"])) ∧
    RemoveHandle sample_writer "WXYZ012345HIJKLMNO" m1 = (None, m2) ∧
    mapfile m2 = mapfile (host_with sample_map) ∧
    postmap_runs m2
    = (postmap_runs (host_with sample_map)
       ++ [mapfile m1; mapfile (host_with sample_map)])%list.
Proof.
  apply (AddHandle_then_RemoveHandle sample_writer "WXYZ012345HIJKLMNO"
           "testtarget@example.com"
           ["abc@example.org a@example.com";
            "xyz@example.org b@example.com";
            "abd@example.org c@example.com"]
           (host_with sample_map)).
  - by repeat split.
  - reflexivity.
  - reflexivity.
  - repeat constructor.
  - reflexivity.
  - reflexivity.
Defined.

(** ** The grammar of commands *)


Lemma fields_from_cons (cur : list ascii) (c : ascii) (s' : string) :
  fields_from cur (String c s')
  = match space_width (String c s'), s' with
    | 1%nat, _ => flush cur (fields_from [] s')
    | 2%nat, String _ s2 => flush cur (fields_from [] s2)
    | 3%nat, String _ (String _ s3) => flush cur (fields_from [] s3)
    | _, _ => fields_from (c :: cur) s'
    end.
Proof. reflexivity. Qed.












Lemma dispatch_Enqueues (source : string) (c : list string) (cmd : command) :
  dispatch source c = Enqueues cmd ↔
  (∃ S, c = ["new"; "handle"; S] ∧ cmd = newHandleCommand source S) ∨
  (∃ T, c = ["new"; "account"; T] ∧ cmd = newAccountCommand source T) ∨
  (∃ H S, c = ["delete"; "handle"; H; S]
          ∧ cmd = deleteHandleCommand source H S) ∨
  (∃ S, c = ["delete"; "account"; S] ∧ cmd = deleteAccountCommand source S).
Proof.
  split.
  - unfold dispatch.
    destruct c as [|w0 [|w1 [|w2 [|w3 [|w4 rest]]]]]; simpl;
      repeat (case_decide; simplify_eq/=; try done; try lia);
      intros; simplify_eq; eauto 10.
  - intros [(S & -> & ->)|[(T & -> & ->)|[(H & S & -> & ->)|(S & -> & ->)]]];
      reflexivity.
Qed.


(** A message whose words are separated by no-break spaces is cut like
    one whose words are separated by spaces. *)
Example SendCommand_no_break_space :
  Fields ("new" +:+ no_break_space +:+ "handle" +:+ no_break_space
          +:+ "testsecret")
  = ["new"; "handle"; "testsecret"] ∧
  SendCommand_send "rpc"
    ("new" +:+ no_break_space +:+ "handle" +:+ no_break_space
     +:+ "testsecret")
  = Enqueues (newHandleCommand "rpc" "testsecret").
Proof. by_eval. Qed.

(** ** The operations of the server *)

Lemma well_kept_sample_server : well_kept (persistence sample_server).
Proof.
  apply well_kept_NewAccountHandle; [|by_eval].
  apply well_kept_NewAccount. apply well_kept_NewAccount.
  apply well_kept_fresh_store.
Qed.


Lemma generateRandomString_token size src w src' :
  generateRandomString size src = (Returns (w, None), src') →
  alnum_token (Z.to_nat size) w.
Proof.
  unfold generateRandomString. destruct (size <? 0)%Z; [done|].
  destruct (rand_Read (Z.to_nat size) src) as [[buf|] src1] eqn:Hread; [|done].
  destruct (rand_Read_Some _ _ _ _ Hread) as [_ Hlen].
  destruct (fillResult_map buf) as (r & -> & Hr). intros [= <- <-]. split.
  - rewrite length_string_of_list_ascii. apply Forall2_length in Hr. lia.
  - rewrite list_ascii_of_string_of_list_ascii.
    clear -Hr. induction Hr as [|b c buf r Hbc _ IH]; constructor; [|done].
    destruct (charOf_alnum b) as (c' & Hc' & Hal). congruence.
Qed.

Lemma freshHandle_result fuel s o s' :
  freshHandle fuel s = Some (o, s') →
  persistence s' = persistence s ∧ host s' = host s ∧
  mailSystemWriter s' = mailSystemWriter s ∧
  match o with
  | Returns (h, None) =>
      HasHandleGlobal h (persistence s) = Returns false ∧
      alnum_token (Z.to_nat handleSize) h
  | Returns (res, Some _) => res = ""
  | Panics => True
  end.
Proof.
  revert s. induction fuel as [|fuel IH]; intros s; simpl; [done|].
  destruct (generateRandomString handleSize (rand s)) as [[[w [e|]]|] r] eqn:Hg;
    [by intros [= <- <-]| |by intros [= <- <-]].
  destruct (HasHandleGlobal w (persistence s)) as [[]|] eqn:Hh;
    [|intros [= <- <-]|by intros [= <- <-]].
  - intros Hf. apply IH in Hf. exact Hf.
  - repeat split; try done. all: by apply generateRandomString_token in Hg as [? ?].
Qed.

Lemma freshSecret_result fuel s o s' :
  freshSecret fuel s = Some (o, s') →
  persistence s' = persistence s ∧ host s' = host s ∧
  mailSystemWriter s' = mailSystemWriter s ∧
  match o with
  | Returns (secret, None) =>
      HasAccount secret (persistence s) = Returns false ∧
      alnum_token (Z.to_nat accountSecretSize) secret
  | Returns (res, Some _) => res = ""
  | Panics => True
  end.
Proof.
  revert s. induction fuel as [|fuel IH]; intros s; simpl; [done|].
  destruct (generateRandomString accountSecretSize (rand s))
    as [[[w [e|]]|] r] eqn:Hg;
    [by intros [= <- <-]| |by intros [= <- <-]].
  destruct (HasAccount w (persistence s)) as [[]|] eqn:Hh;
    [|intros [= <- <-]|by intros [= <- <-]].
  - intros Hf. apply IH in Hf. exact Hf.
  - repeat split; try done. all: by apply generateRandomString_token in Hg as [? ?].
Qed.

(** X12.  When the server's [NewHandle] returns a handle: the secret has
    a target; the handle returned is a fresh token of 18 letters and
    digits followed by the domain of the writer; the token was not in the
    global index and [NewAccountHandle] has stored it, so that it is in
    the index and in the list of the account afterwards; the map file
    has one more line, the handle, a space and the target, and [postmap]
    has run on the new content without error. *)
Theorem Server_NewHandle_creates
    (fuel : nat) (now : GobTime) (secret full : string) (s s' : Server) :
  Server_NewHandle fuel now secret s = Some (Returns (full, None), s') →
  ∃ target h,
    GetAccountTarget secret (persistence s) = Returns (target, None) ∧
    full = h +:+ domain (mailSystemWriter s) ∧
    alnum_token 18 h ∧
    HasHandleGlobal h (persistence s) = Returns false ∧
    NewAccountHandle now secret h (persistence s)
    = (Returns None, persistence s') ∧
    HasHandleGlobal h (persistence s') = Returns true ∧
    (∃ handles, ListAccountHandles secret (persistence s')
                = Returns (handles, None) ∧ h ∈ handles) ∧
    mapfile (host s')
    = Some (default "" (mapfile (host s))
            +:+ full +:+ " " +:+ target +:+ String newline "") ∧
    postmap_runs (host s')
    = (postmap_runs (host s) ++ [mapfile (host s')])%list ∧
    postmap_fails (host s) = false.
Proof.
  unfold Server_NewHandle.
  destruct (GetAccountTarget secret (persistence s)) as [[target [e|]]|];
    [done| |done].
  destruct (freshHandle fuel s) as [[o s1]|] eqn:Hf; [|done].
  destruct (freshHandle_result _ _ _ _ Hf) as (Hp & Hm & Hw & Ho).
  destruct o as [[h [e|]]|]; [done| |done]. destruct Ho as [Hfree Htok].
  destruct (NewAccountHandle now secret h (persistence s1))
    as [[[e|]|] db] eqn:Hnew; [done| |done].
  rewrite Hp in Hnew.
  destruct (NewAccountHandle_inv _ _ _ _ _ Hnew)
    as (Hs & Hh & Hbk & Hhb & _ & Hent & Hbuckets).
  unfold AddHandle, invokePostmap, write_mapfile. simpl. rewrite Hm, Hw.
  destruct (open_fails (host s)); [done|].
  destruct (write_fails (host s)); [done|].
  destruct (postmap_fails (host s)) eqn:Hpm; [done|]. intros [= <- <-].
  exists target, h. simpl.
  split; [done|]. split; [done|]. split; [done|]. split; [done|].
  split; [done|]. split; [|split; [|done]].
  - rewrite HasHandleGlobal_entry by (by apply Hbuckets).
    rewrite Hent, decide_True by auto. rewrite bool_decide_eq_true_2; eauto.
  - destruct (ListAccountHandles_elem secret db Hs) as (handles & Hl & Hin);
      [by apply Hbuckets|].
    exists handles. split; [done|]. apply Hin.
    rewrite Hent, decide_True by auto. eauto.
Qed.

Lemma Server_NewHandle_creates_witness :
  ∃ target h,
    GetAccountTarget "testsecret" (persistence sample_server)
    = Returns (target, None) ∧
    "WXYZ012345HIJKLMNO@example.org"
    = h +:+ domain (mailSystemWriter sample_server) ∧
    alnum_token 18 h ∧
    HasHandleGlobal h (persistence sample_server) = Returns false ∧
    NewAccountHandle time0 "testsecret" h (persistence sample_server)
    = (Returns None, persistence sample_after_new_handle) ∧
    HasHandleGlobal h (persistence sample_after_new_handle) = Returns true ∧
    (∃ handles, ListAccountHandles "testsecret"
                  (persistence sample_after_new_handle)
                = Returns (handles, None) ∧ h ∈ handles) ∧
    mapfile (host sample_after_new_handle)
    = Some (default "" (mapfile (host sample_server))
            +:+ "WXYZ012345HIJKLMNO@example.org" +:+ " " +:+ target
            +:+ String newline "") ∧
    postmap_runs (host sample_after_new_handle)
    = (postmap_runs (host sample_server)
       ++ [mapfile (host sample_after_new_handle)])%list ∧
    postmap_fails (host sample_server) = false.
Proof.
  apply (Server_NewHandle_creates 1 time0 "testsecret"
           "WXYZ012345HIJKLMNO@example.org" sample_server
           sample_after_new_handle).
  by_eval.
Defined.

(** X13.  When the server's [NewHandle] returns an error, the result is
    empty, and either the store and the mail host are as they were, or
    the error is that of [AddHandle]: then the new handle stays in the
    store, although the caller is given no handle, and the map file was
    not opened and the host is as it was, or it was opened (and created
    if it was not there) but the line could not be written, or the line
    was written and stays in the file and the error is that of
    [postmap]. *)
Theorem Server_NewHandle_failure
    (fuel : nat) (now : GobTime) (secret res : string) (e : error)
    (s s' : Server) :
  Server_NewHandle fuel now secret s = Some (Returns (res, Some e), s') →
  res = "" ∧
  ((persistence s' = persistence s ∧ host s' = host s) ∨
   (∃ target h,
      GetAccountTarget secret (persistence s) = Returns (target, None) ∧
      NewAccountHandle now secret h (persistence s)
      = (Returns None, persistence s') ∧
      HasHandleGlobal h (persistence s') = Returns true ∧
      ((e = ErrSystem "open" ∧ open_fails (host s) = true ∧
        host s' = host s) ∨
       (e = ErrSystem "write" ∧ open_fails (host s) = false ∧
        write_fails (host s) = true ∧
        mapfile (host s') = Some (default "" (mapfile (host s))) ∧
        postmap_runs (host s') = postmap_runs (host s)) ∨
       (e = ErrSystem "postmap" ∧ open_fails (host s) = false ∧
        write_fails (host s) = false ∧ postmap_fails (host s) = true ∧
        mapfile (host s')
        = Some (default "" (mapfile (host s))
                +:+ (h +:+ domain (mailSystemWriter s))
                +:+ " " +:+ target +:+ String newline "") ∧
        postmap_runs (host s')
        = (postmap_runs (host s) ++ [mapfile (host s')])%list)))).
Proof.
  unfold Server_NewHandle.
  destruct (GetAccountTarget secret (persistence s)) as [[target [e0|]]|];
    [intros [= <- <- <-]; by auto| |done].
  destruct (freshHandle fuel s) as [[o s1]|] eqn:Hf; [|done].
  destruct (freshHandle_result _ _ _ _ Hf) as (Hp & Hm & Hw & Ho).
  destruct o as [[h [e0|]]|]; [intros [= <- <- <-]; by auto| |done].
  destruct (NewAccountHandle now secret h (persistence s1))
    as [[[e0|]|] db] eqn:Hnew; [| |done].
  { intros [= <- <- <-]. split; [done|]. left. simpl. split; [|done].
    rewrite <- Hp. unfold NewAccountHandle, bolt.Update in Hnew.
    repeat case_match; by simplify_eq. }
  rewrite Hp in Hnew.
  destruct (NewAccountHandle_inv _ _ _ _ _ Hnew)
    as (Hs & Hh & Hbk & Hhb & _ & Hent & Hbuckets).
  assert (HasHandleGlobal h db = Returns true) as Hglobal.
  { rewrite HasHandleGlobal_entry by (by apply Hbuckets).
    rewrite Hent, decide_True by auto. rewrite bool_decide_eq_true_2; eauto. }
  unfold AddHandle, invokePostmap, write_mapfile. simpl. rewrite Hm, Hw.
  destruct (open_fails (host s)) eqn:Hopen.
  { intros [= <- <- <-]. split; [done|]. right. exists target, h. simpl.
    split; [done|]. split; [done|]. split; [done|]. left. done. }
  destruct (write_fails (host s)) eqn:Hwrite.
  { intros [= <- <- <-]. split; [done|]. right. exists target, h. simpl.
    split; [done|]. split; [done|]. split; [done|]. right. left. done. }
  destruct (postmap_fails (host s)) eqn:Hpm; [|done]. intros [= <- <- <-].
  split; [done|]. right. exists target, h. simpl.
  split; [done|]. split; [done|]. split; [done|]. right. right. done.
Qed.

Lemma Server_NewHandle_failure_witness :
  "" = "" ∧
  ((persistence sample_after_failed_postmap
    = persistence sample_server_failing ∧
    host sample_after_failed_postmap = host sample_server_failing) ∨
   (∃ target h,
      GetAccountTarget "testsecret" (persistence sample_server_failing)
      = Returns (target, None) ∧
      NewAccountHandle time0 "testsecret" h (persistence sample_server_failing)
      = (Returns None, persistence sample_after_failed_postmap) ∧
      HasHandleGlobal h (persistence sample_after_failed_postmap)
      = Returns true ∧
      ((ErrSystem "postmap" = ErrSystem "open" ∧
        open_fails (host sample_server_failing) = true ∧
        host sample_after_failed_postmap = host sample_server_failing) ∨
       (ErrSystem "postmap" = ErrSystem "write" ∧
        open_fails (host sample_server_failing) = false ∧
        write_fails (host sample_server_failing) = true ∧
        mapfile (host sample_after_failed_postmap)
        = Some (default "" (mapfile (host sample_server_failing))) ∧
        postmap_runs (host sample_after_failed_postmap)
        = postmap_runs (host sample_server_failing)) ∨
       (ErrSystem "postmap" = ErrSystem "postmap" ∧
        open_fails (host sample_server_failing) = false ∧
        write_fails (host sample_server_failing) = false ∧
        postmap_fails (host sample_server_failing) = true ∧
        mapfile (host sample_after_failed_postmap)
        = Some (default "" (mapfile (host sample_server_failing))
                +:+ (h +:+ domain (mailSystemWriter sample_server_failing))
                +:+ " " +:+ target +:+ String newline "") ∧
        postmap_runs (host sample_after_failed_postmap)
        = (postmap_runs (host sample_server_failing)
           ++ [mapfile (host sample_after_failed_postmap)])%list)))).
Proof.
  apply (Server_NewHandle_failure 1 time0 "testsecret" ""
           (ErrSystem "postmap") sample_server_failing
           sample_after_failed_postmap).
  by_eval.
Defined.

(** X14.  When the server's [NewAccount] returns a secret in an opened
    store: the secret is a fresh token of 64 letters and digits that
    [HasAccount] did not know; [NewAccount] of the store has created the
    account, so that afterwards [HasAccount] knows the secret,
    [GetAccountTarget] gives the target and the account lists no handle;
    the target is not empty and the mail host is as it was. *)
Theorem Server_NewAccount_creates
    (fuel : nat) (now : GobTime) (target secret : string) (s s' : Server) :
  opened (persistence s) →
  Server_NewAccount fuel now target s = Some (Returns (secret, None), s') →
  alnum_token 64 secret ∧ target ≠ "" ∧
  HasAccount secret (persistence s) = Returns false ∧
  NewAccount now secret target (persistence s)
  = (Returns None, persistence s') ∧
  HasAccount secret (persistence s') = Returns true ∧
  GetAccountTarget secret (persistence s') = Returns (target, None) ∧
  ListAccountHandles secret (persistence s') = Returns ([], None) ∧
  host s' = host s.
Proof.
  intros Hop. pose proof Hop as ([tb Htb] & [ab Hab] & Hh).
  unfold Server_NewAccount.
  destruct (freshSecret fuel s) as [[o s1]|] eqn:Hf; [|done].
  destruct (freshSecret_result _ _ _ _ Hf) as (Hp & Hm & Hw & Ho).
  destruct o as [[w [e|]]|]; [done| |done]. destruct Ho as [Hfree Htok].
  destruct (NewAccount now w target (persistence s1))
    as [[[e|]|] db] eqn:Hnew; [done| |done].
  intros [= <- <-]. simpl. rewrite Hp in Hnew.
  pose proof (NewAccount_cases now w target _ tb ab Htb Hab) as Hc.
  rewrite Hnew in Hc. destruct Hc as (Hs & Hnone & Hdb).
  assert (w ≠ targetsBucketName) as Hst by congruence.
  assert (w ≠ accountsBucketName) as Hsa by congruence.
  split; [done|]. split.
  { intros ->. unfold NewAccount in Hnew.
    rewrite decide_False in Hnew by done. by rewrite decide_True in Hnew. }
  split; [done|]. split; [done|]. split; [|split; [|split; [|done]]].
  - apply (HasAccount_true _ (gob now)); [done|]. rewrite Hdb.
    rewrite entry_insert_bucket, decide_True by done. apply lookup_insert_eq.
  - apply GetAccountTarget_entry; [done|]. rewrite Hdb.
    rewrite !entry_insert_bucket. rewrite decide_False by done.
    rewrite decide_True by done. apply lookup_insert_eq.
  - rewrite (ListAccountHandles_present w ∅); [done|done|].
    rewrite Hdb. do 2 (rewrite lookup_insert_ne by done).
    apply lookup_insert_eq.
Qed.

Lemma Server_NewAccount_creates_witness :
  alnum_token 64 sample_new_secret ∧ "new@example.com" ≠ "" ∧
  HasAccount sample_new_secret (persistence sample_server_long_tape)
  = Returns false ∧
  NewAccount time0 sample_new_secret "new@example.com"
    (persistence sample_server_long_tape)
  = (Returns None, persistence sample_after_new_account) ∧
  HasAccount sample_new_secret (persistence sample_after_new_account)
  = Returns true ∧
  GetAccountTarget sample_new_secret (persistence sample_after_new_account)
  = Returns ("new@example.com", None) ∧
  ListAccountHandles sample_new_secret (persistence sample_after_new_account)
  = Returns ([], None) ∧
  host sample_after_new_account = host sample_server_long_tape.
Proof.
  apply (Server_NewAccount_creates 1 time0 "new@example.com"
           sample_new_secret sample_server_long_tape
           sample_after_new_account).
  - by_eval.
  - by_eval.
Defined.

(** ** Deleting an account through the server *)

Lemma prefix_dropCR (h l : string) :
  String.prefix h (scanner.dropCR l) = true → String.prefix h l = true.
Proof.
  revert h. induction l as [|c l IH]; intros h; [done|].
  destruct h as [|a h]; [done|].
  destruct l as [|c' l'].
  - simpl. destruct (Ascii.eqb c carriage_return); [done|]. simpl. done.
  - change (scanner.dropCR (String c (String c' l')))
      with (String c (scanner.dropCR (String c' l'))).
    simpl. destruct (ascii_dec a c); [|done]. apply IH.
Qed.

Lemma scan_elem (ls : list string) (l : string) :
  l ∈ scanner.scan ls → ∃ l0, l0 ∈ ls ∧ l = scanner.dropCR l0.
Proof.
  induction ls as [|l0 ls IH]; simpl; [by intros ?%elem_of_nil|].
  destruct (scanner.fits l0); [|by intros ?%elem_of_nil].
  intros [->|Hin]%elem_of_cons.
  - exists l0. split; [apply list_elem_of_here|done].
  - destruct (IH Hin) as (l1 & Hl1 & ->).
    exists l1. split; [by apply list_elem_of_further|done].
Qed.

Lemma tokens_no_newline (content : string) :
  Forall (λ l, has_newline l = false) (scanner.tokens content).
Proof.
  apply Forall_forall. intros l (l0 & Hin & ->)%scan_elem.
  apply dropCR_no_newline.
  pose proof (raw_lines_no_newline content) as Hall.
  rewrite Forall_forall in Hall. by apply Hall.
Qed.

Lemma RemoveHandle_rename_fails_kept (p : PostfixWriter) (h : string)
    (m : MailHost) :
  rename_fails (RemoveHandle p h m).2 = rename_fails m.
Proof.
  unfold RemoveHandle, invokePostmap, write_mapfile. split_cases.
Qed.

(** The lines of the map after a [RemoveHandle h] whose rename went
    through: none starts with [h], and each is a line the map had, less a
    trailing carriage return. *)
Lemma RemoveHandle_lines (p : PostfixWriter) (h : string) (m m' : MailHost) :
  rename_fails m = false →
  RemoveHandle p h m = (None, m') →
  ∃ content content',
    mapfile m = Some content ∧ mapfile m' = Some content' ∧
    ∀ l, l ∈ scanner.raw_lines content' →
         String.prefix h l = false ∧
         ∃ l0, l0 ∈ scanner.raw_lines content ∧ l = scanner.dropCR l0.
Proof.
  intros Hr. unfold RemoveHandle.
  destruct (open_fails m); [done|].
  destruct (mapfile m) as [content|] eqn:Hm; [|done].
  destruct (tempfile_fails m); [done|]. rewrite Hr.
  unfold invokePostmap, write_mapfile. simpl.
  destruct (postmap_fails m); [done|]. intros [= <-]. simpl.
  eexists _, _. split; [done|]. split; [done|].
  destruct (write_fails m).
  { intros l Hl. simpl in Hl. by apply elem_of_nil in Hl. }
  rewrite raw_lines_write_lines.
  2: { apply Forall_forall. intros l [_ Hin]%list_elem_of_filter.
       pose proof (tokens_no_newline content) as Hall.
       rewrite Forall_forall in Hall. by apply Hall. }
  intros l [Hkeep Hin]%list_elem_of_filter. split.
  - unfold keep_line in Hkeep. by destruct (String.prefix h l).
  - by apply scan_elem.
Qed.

Lemma removeHandles_lines (p : PostfixWriter) (hs : list string) (m m' : MailHost) :
  rename_fails m = false →
  removeHandles p hs m = (None, m') →
  ∀ h content', h ∈ hs → mapfile m' = Some content' →
    Forall (λ l, String.prefix h l = false) (scanner.raw_lines content').
Proof.
  assert (∀ hs m m' h,
    rename_fails m = false →
    removeHandles p hs m = (None, m') →
    (∀ content, mapfile m = Some content →
       Forall (λ l, String.prefix h l = false) (scanner.raw_lines content)) →
    ∀ content', mapfile m' = Some content' →
       Forall (λ l, String.prefix h l = false) (scanner.raw_lines content'))
    as Hkeep.
  { clear. intros hs. induction hs as [|h0 hs IH]; intros m m' h Hr; simpl.
    - intros [= <-]. auto.
    - pose proof (RemoveHandle_rename_fails_kept p h0 m) as Hr1.
      destruct (RemoveHandle p h0 m) as [[e|] m1] eqn:Hrm; [done|].
      simpl in Hr1. rewrite Hr in Hr1.
      intros Hrest Hm. apply (IH m1 m' h Hr1 Hrest).
      destruct (RemoveHandle_lines _ _ _ _ Hr Hrm)
        as (content & content1 & Hc & Hc1 & Hlines).
      intros c1 Hc1'. rewrite Hc1 in Hc1'. injection Hc1' as <-.
      apply Forall_forall. intros l Hl.
      destruct (Hlines l Hl) as [_ (l0 & Hl0 & ->)].
      specialize (Hm content Hc). rewrite Forall_forall in Hm.
      specialize (Hm l0 Hl0).
      destruct (String.prefix h (scanner.dropCR l0)) eqn:E; [|done].
      apply prefix_dropCR in E. congruence. }
  revert m. induction hs as [|h0 hs IH]; intros m Hr; simpl.
  - intros _ h content' Hin. by apply elem_of_nil in Hin.
  - pose proof (RemoveHandle_rename_fails_kept p h0 m) as Hr1.
    destruct (RemoveHandle p h0 m) as [[e|] m1] eqn:Hrm; [done|].
    simpl in Hr1. rewrite Hr in Hr1.
    intros Hrest h content' [->|Hin]%elem_of_cons Hm'.
    + apply (Hkeep hs m1 m' h0 Hr1 Hrest); [|done].
      destruct (RemoveHandle_lines _ _ _ _ Hr Hrm)
        as (content & content1 & Hc & Hc1 & Hlines).
      intros c1 Hc1'. rewrite Hc1 in Hc1'. injection Hc1' as <-.
      apply Forall_forall. intros l Hl. by destruct (Hlines l Hl).
    + by apply (IH m1 Hr1 Hrest h content').
Qed.

(** With the rename failing, the loop over the handles leaves the map as
    it was. *)
Lemma removeHandles_rename_fails (p : PostfixWriter) (hs : list string)
    (m m' : MailHost) (e : option error) :
  rename_fails m = true → removeHandles p hs m = (e, m') →
  mapfile m' = mapfile m.
Proof.
  revert m. induction hs as [|h0 hs IH]; intros m Hr; simpl.
  - by intros [= _ <-].
  - pose proof (RemoveHandle_rename_fails_kept p h0 m) as Hr1.
    assert (mapfile (RemoveHandle p h0 m).2 = mapfile m) as Hsame.
    { unfold RemoveHandle, invokePostmap. rewrite Hr. split_cases. }
    destruct (RemoveHandle p h0 m) as [[e0|] m1]; simpl in *.
    + by intros [= _ <-].
    + intros Hrest. rewrite <- Hsame. apply IH; [congruence|done].
Qed.

(** X15.  In a well-kept store the server's [DeleteAccount] does not
    panic.  When it returns no error, the secret was that of an account
    and [DeleteAccount] of the store has removed it ([HasAccount] no
    longer knows it); on a host where the rename of [RemoveHandle] goes
    through, no line of the map file then starts with a handle the
    account listed, and on a host where the rename fails, which
    [RemoveHandle] does not notice, the map file is as it was, the lines
    of the deleted account included.  When it returns an error the store
    is as it was, the account and its handles included, whatever was
    already taken out of the map file; for a secret [HasAccount] does
    not know the error is [ErrAccountNotFound] and nothing has
    changed. *)
Theorem Server_DeleteAccount_outcomes
    (secret : string) (s s' : Server) (o : outcome (option error)) :
  well_kept (persistence s) →
  Server_DeleteAccount secret s = (o, s') →
  match o with
  | Returns None =>
      HasAccount secret (persistence s) = Returns true ∧
      DeleteAccount secret (persistence s) = (Returns (), persistence s') ∧
      HasAccount secret (persistence s') = Returns false ∧
      (rename_fails (host s) = false →
       ∀ h content, is_Some (entry (persistence s) secret h) →
                    mapfile (host s') = Some content →
                    Forall (λ l, String.prefix h l = false)
                      (scanner.raw_lines content)) ∧
      (rename_fails (host s) = true → mapfile (host s') = mapfile (host s))
  | Returns (Some e) =>
      persistence s' = persistence s ∧
      (HasAccount secret (persistence s) = Returns false →
       e = ErrAccountNotFound ∧ s' = s)
  | Panics => False
  end.
Proof.
  intros Hwk. pose proof Hwk as (Hop & _). pose proof Hop as (Ht & Ha & Hh).
  unfold Server_DeleteAccount.
  rewrite (HasAccount_opened secret _ Ha).
  case_bool_decide as Hk.
  2: { intros [= <- <-]. split; [done|]. by intros _. }
  destruct Hk as [Hs Hk].
  destruct (known_secret_not_static _ secret Hwk Hk) as (_ & Hns & [bk Hbk]).
  rewrite (ListAccountHandles_present _ _ _ Hs Hbk).
  destruct (removeHandles (mailSystemWriter s) (bolt.keys bk) (host s))
    as [[e|] m] eqn:Hrm.
  { intros [= <- <-]. split; [done|]. by intros [=]. }
  simpl.
  destruct (DeleteAccount_entries secret (persistence s) Hop Hs Hns)
    as (db' & Hdel & Hgone & Hbuckets & Hent); [by eauto|].
  rewrite Hdel. intros [= <- <-]. simpl.
  split; [done|]. split; [done|]. split.
  - assert (accountsBucketName ≠ secret) as Hsa
      by (intros <-; apply Hns; unfold static; auto).
    rewrite HasAccount_opened by (by apply Hbuckets).
    rewrite Hent by done. rewrite decide_True by auto.
    rewrite bool_decide_eq_false_2; [done|]. by intros [_ [? ?]].
  - split.
    + intros Hr h content Hlisted Hm.
      apply (removeHandles_lines _ _ _ _ Hr Hrm h content); [|done].
      apply elem_of_keys. by rewrite <- (entry_lookup _ _ _ _ Hbk).
    + intros Hr. by apply (removeHandles_rename_fails _ _ _ _ _ Hr Hrm).
Qed.

Lemma Server_DeleteAccount_outcomes_witness :
  HasAccount "testsecret" (persistence sample_server) = Returns true ∧
  DeleteAccount "testsecret" (persistence sample_server)
  = (Returns (), persistence sample_after_delete_account) ∧
  HasAccount "testsecret" (persistence sample_after_delete_account)
  = Returns false ∧
  (rename_fails (host sample_server) = false →
   ∀ h content,
     is_Some (entry (persistence sample_server) "testsecret" h) →
     mapfile (host sample_after_delete_account) = Some content →
     Forall (λ l, String.prefix h l = false) (scanner.raw_lines content)) ∧
  (rename_fails (host sample_server) = true →
   mapfile (host sample_after_delete_account) = mapfile (host sample_server)).
Proof.
  apply (Server_DeleteAccount_outcomes "testsecret" sample_server
           sample_after_delete_account (Returns None)).
  - apply well_kept_sample_server.
  - by_eval.
Defined.

(** X16.  In a well-kept store the server's [ListHandles] does not
    panic: for the secret of an account it returns, without error, the
    keys of the namespace of the account, each once; for any other
    secret, the empty one included, it returns [ErrAccountNotFound]. *)
Theorem Server_ListHandles_lists (secret : string) (s : Server) :
  well_kept (persistence s) →
  (HasAccount secret (persistence s) = Returns true →
   ∃ handles, Server_ListHandles secret s = Returns (handles, None) ∧
              NoDup handles ∧
              ∀ h, h ∈ handles ↔ is_Some (entry (persistence s) secret h)) ∧
  (HasAccount secret (persistence s) ≠ Returns true →
   Server_ListHandles secret s = Returns ([], Some ErrAccountNotFound)).
Proof.
  intros Hwk. pose proof Hwk as ((_ & Ha & _) & _). split.
  - intros Hacc.
    destruct (HasAccount_known _ _ Hwk Hacc) as (Hs & _ & [bk Hbk] & _).
    unfold Server_ListHandles. rewrite Hacc.
    rewrite (ListAccountHandles_present _ _ _ Hs Hbk).
    exists (bolt.keys bk). split; [done|]. split; [apply NoDup_keys|].
    intros h. rewrite (entry_lookup _ _ _ _ Hbk). apply elem_of_keys.
  - unfold Server_ListHandles. rewrite (HasAccount_opened _ _ Ha).
    by case_bool_decide.
Qed.

Lemma Server_ListHandles_lists_witness :
  (HasAccount "testsecret" (persistence sample_server) = Returns true →
   ∃ handles, Server_ListHandles "testsecret" sample_server
              = Returns (handles, None) ∧
              NoDup handles ∧
              ∀ h, h ∈ handles
                   ↔ is_Some (entry (persistence sample_server) "testsecret" h)) ∧
  (HasAccount "testsecret" (persistence sample_server) ≠ Returns true →
   Server_ListHandles "testsecret" sample_server
   = Returns ([], Some ErrAccountNotFound)).
Proof.
  apply (Server_ListHandles_lists "testsecret" sample_server).
  apply well_kept_sample_server.
Defined.

(** ** What a websocket client can do *)

Lemma Server_NewHandle_store fuel now secret s o s' :
  Server_NewHandle fuel now secret s = Some (o, s') →
  persistence s' = persistence s ∨
  ∃ target h,
    GetAccountTarget secret (persistence s) = Returns (target, None) ∧
    NewAccountHandle now secret h (persistence s)
    = (Returns None, persistence s').
Proof.
  unfold Server_NewHandle.
  destruct (GetAccountTarget secret (persistence s)) as [[target [e0|]]|];
    [intros [= <- <-]; by auto| |intros [= <- <-]; by auto].
  destruct (freshHandle fuel s) as [[o1 s1]|] eqn:Hf; [|done].
  destruct (freshHandle_result _ _ _ _ Hf) as (Hp & _).
  destruct o1 as [[h [e0|]]|];
    [intros [= <- <-]; by auto| |intros [= <- <-]; by auto].
  destruct (NewAccountHandle now secret h (persistence s1))
    as [[[e0|]|] db] eqn:Hnew.
  - intros [= <- <-]. left. simpl. rewrite <- Hp.
    unfold NewAccountHandle, bolt.Update in Hnew.
    repeat case_match; by simplify_eq.
  - rewrite Hp in Hnew. destruct (AddHandle _ _ _ _) as [[full [e0|]] m];
      intros [= <- <-]; right; exists target, h; done.
  - intros [= <- <-]. left. simpl. rewrite <- Hp.
    unfold NewAccountHandle, bolt.Update in Hnew.
    repeat case_match; by simplify_eq.
Qed.

(** X17.  A message that arrives over the websocket cannot create or
    delete an account, and deletes nothing: in a well-kept store,
    whatever the message and whatever [SendCommand] does with it, the
    buckets [accounts] and [targets] are afterwards as they were, the
    store has the same buckets, and every key of every bucket is still
    there. *)
Theorem websocket_keeps_accounts
    (fuel : nat) (now : GobTime) (args : string) (s : Server) (r : returned) :
  well_kept (persistence s) →
  SendCommand fuel now "websocket" args s = Some r →
  persistence (state_after r) !! accountsBucketName
  = persistence s !! accountsBucketName ∧
  persistence (state_after r) !! targetsBucketName
  = persistence s !! targetsBucketName ∧
  (∀ n, is_Some (persistence (state_after r) !! n)
        ↔ is_Some (persistence s !! n)) ∧
  (∀ b k, is_Some (entry (persistence s) b k) →
          is_Some (entry (persistence (state_after r)) b k)).
Proof.
  intros Hwk Hsend.
  assert (persistence (state_after r) = persistence s ∨
          ∃ secret target h,
            GetAccountTarget secret (persistence s) = Returns (target, None) ∧
            NewAccountHandle now secret h (persistence s)
            = (Returns None, persistence (state_after r)))
    as [->|(secret & target & h & Hget & Hnew)]; [|done|].
  { unfold SendCommand in Hsend.
    destruct (SendCommand_send "websocket" args) as [e|c|] eqn:Hd;
      [by simplify_eq; left|  |by simplify_eq; left].
    apply dispatch_Enqueues in Hd.
    destruct Hd as [(S & _ & ->)|[(T & _ & ->)|[(H & S & _ & ->)|(S & _ & ->)]]];
      simpl in Hsend; [|by simplify_eq; left..].
    destruct (Server_NewHandle fuel now S s) as [[o s1]|] eqn:Hn; [|done].
    simpl in Hsend.
    destruct (Server_NewHandle_store _ _ _ _ _ _ Hn) as [Hp|(target & h & Hg & Hnew)].
    - left. destruct o as [[res err]|]; simpl in Hsend; by simplify_eq.
    - right. exists S, target, h.
      destruct o as [[res err]|]; simpl in Hsend; by simplify_eq. }
  pose proof Hwk as (Hop & Hacc & Htar). pose proof Hop as (Ht & _).
  pose proof (GetAccountTarget_opened secret _ Ht) as Hknown.
  rewrite Hget in Hknown. destruct Hknown as [Hs Hk].
  destruct (known_secret_not_static _ secret Hwk (Htar _ Hk)) as (_ & Hns & _).
  destruct (NewAccountHandle_inv _ _ _ _ _ Hnew)
    as (_ & _ & _ & _ & _ & Hent & Hbuckets).
  assert (∀ b, b = targetsBucketName ∨ b = accountsBucketName →
               persistence (state_after r) !! b = persistence s !! b) as Hsame.
  { intros b Hb. apply bucket_ext; [apply Hbuckets|].
    intros k. rewrite Hent. rewrite decide_False; [done|].
    intros [[-> | ->] _]; [|by destruct Hb].
    apply Hns. unfold static. destruct Hb; auto. }
  split; [by auto|]. split; [by auto|]. split; [done|].
  intros b k Hsome. rewrite Hent. by case_decide.
Qed.

Lemma websocket_keeps_accounts_witness :
  persistence (state_after sample_websocket_call) !! accountsBucketName
  = persistence sample_server !! accountsBucketName ∧
  persistence (state_after sample_websocket_call) !! targetsBucketName
  = persistence sample_server !! targetsBucketName ∧
  (∀ n, is_Some (persistence (state_after sample_websocket_call) !! n)
        ↔ is_Some (persistence sample_server !! n)) ∧
  (∀ b k, is_Some (entry (persistence sample_server) b k) →
          is_Some (entry (persistence (state_after sample_websocket_call)) b k)).
Proof.
  apply (websocket_keeps_accounts 1 time0 " new  handle testsecret "
           sample_server sample_websocket_call).
  - apply well_kept_sample_server.
  - by_eval.
Defined.

(** ** The command loop *)










Lemma Server_NewHandle_result fuel now secret s res err s' :
  Server_NewHandle fuel now secret s = Some (Returns (res, err), s') →
  match err with
  | Some _ => res = ""
  | None => ∃ h, res = h +:+ domain (mailSystemWriter s)
                 ∧ alnum_token (Z.to_nat handleSize) h
  end.
Proof.
  unfold Server_NewHandle.
  destruct (GetAccountTarget secret (persistence s)) as [[target [e0|]]|];
    [by intros [= <- <- <-]| |done].
  destruct (freshHandle fuel s) as [[o s1]|] eqn:Hf; [|done].
  destruct (freshHandle_result _ _ _ _ Hf) as (Hp & Hm & Hw & Ho).
  destruct o as [[h [e0|]]|]; [by intros [= <- <- <-]| |done].
  destruct Ho as [_ Htok].
  destruct (NewAccountHandle now secret h (persistence s1))
    as [[[e0|]|] db]; [by intros [= <- <- <-]| |done].
  unfold AddHandle, invokePostmap, write_mapfile. simpl. rewrite Hw.
  destruct (open_fails (host s1)); [by intros [= <- <- <-]|].
  destruct (write_fails (host s1)); [by intros [= <- <- <-]|].
  destruct (postmap_fails (host s1)); intros [= <- <- <-]; [done|].
  by exists h.
Qed.

Lemma Server_NewAccount_result fuel now target s res err s' :
  Server_NewAccount fuel now target s = Some (Returns (res, err), s') →
  match err with
  | Some _ => res = ""
  | None => alnum_token (Z.to_nat accountSecretSize) res
  end.
Proof.
  unfold Server_NewAccount.
  destruct (freshSecret fuel s) as [[o s1]|] eqn:Hf; [|done].
  destruct (freshSecret_result _ _ _ _ Hf) as (Hp & Hm & Hw & Ho).
  destruct o as [[w [e0|]]|]; [by intros [= <- <- <-]| |done].
  destruct Ho as [_ Htok].
  destruct (NewAccount now w target (persistence s1))
    as [[[e0|]|] db]; by intros [= <- <- <-].
Qed.

Lemma alnum_token_nonempty (n : nat) (w rest : string) :
  alnum_token (S n) w → w +:+ rest ≠ "".
Proof. intros [Hlen _]. by destruct w. Qed.

(** X20.  An answer of the command loop has an empty result exactly
    when it has an error: a new handle and a new secret are never empty,
    a deletion that went through is answered with [success], and every
    error comes with the empty result. *)
Theorem handleCommand_answers
    (fuel : nat) (now : GobTime) (s s' : Server) (c : command)
    (res : string) (err : option error) :
  handleCommand fuel now s c = Some (Answered res err s') →
  (res = "" ↔ is_Some err) ∧
  (err = None →
   match c with
   | deleteHandleCommand _ _ _ | deleteAccountCommand _ _ => res = "success"
   | newHandleCommand _ _ =>
       ∃ h, res = h +:+ domain (mailSystemWriter s) ∧ alnum_token 18 h
   | newAccountCommand _ _ => alnum_token 64 res
   | terminateCommand => False
   end).
Proof.
  destruct c as [source secret|source target|source handle secret|source secret|];
    simpl.
  - destruct (Server_NewHandle fuel now secret s) as [[[[r e]|] s1]|] eqn:Hn;
      [|done..].
    simpl. intros [= <- <- <-].
    apply Server_NewHandle_result in Hn. destruct e as [e|].
    + subst r. split; [by eauto|done].
    + destruct Hn as (h & -> & Htok). split; [|by eauto]. split.
      * intros Hempty. by apply (alnum_token_nonempty _ _ _ Htok) in Hempty.
      * by intros [? ?].
  - case_decide.
    { intros [= <- <- <-]. split; [by eauto|done]. }
    destruct (Server_NewAccount fuel now target s) as [[[[r e]|] s1]|] eqn:Hn;
      [|done..].
    simpl. intros [= <- <- <-].
    apply Server_NewAccount_result in Hn. destruct e as [e|].
    + subst r. split; [by eauto|done].
    + split; [|done]. split.
      * intros ->. by destruct Hn.
      * by intros [? ?].
  - case_decide.
    { intros [= <- <- <-]. split; [by eauto|done]. }
    destruct (Server_DeleteHandle secret handle s) as [[[e|]|] s1]; simpl;
      [| |done]; intros [= <- <- <-].
    + split; [by eauto|done].
    + split; [|done]. split; [done|by intros [? ?]].
  - case_decide.
    { intros [= <- <- <-]. split; [by eauto|done]. }
    destruct (Server_DeleteAccount secret s) as [[[e|]|] s1]; simpl;
      [| |done]; intros [= <- <- <-].
    + split; [by eauto|done].
    + split; [|done]. split; [done|by intros [? ?]].
  - done.
Qed.

Lemma handleCommand_answers_witness :
  ("WXYZ012345HIJKLMNO@example.org" = "" ↔ is_Some (@None error)) ∧
  (@None error = None →
   ∃ h, "WXYZ012345HIJKLMNO@example.org"
        = h +:+ domain (mailSystemWriter sample_server) ∧ alnum_token 18 h).
Proof.
  apply (handleCommand_answers 1 time0 sample_server sample_after_new_handle
           (newHandleCommand "websocket" "testsecret")
           "WXYZ012345HIJKLMNO@example.org" None).
  by_eval.
Defined.

(** ** The configuration *)

(** X21.  [ValidConfig] accepts a configuration exactly when the mail
    system is ["postfix"], the persistence type is ["boltdb"] and the
    socket path, the lock file path, the listen path, the listen
    address, the database path, the mail domain and the map file path
    are not empty; the two TLS values play no part.  For an accepted
    configuration [mailSystemWriterFromConfig] gives a writer, with that
    domain and that map file.  The default values alone are not
    accepted. *)
Theorem ValidConfig_writer (c : config) :
  (ValidConfig c = true ↔
   MailSystem (General c) = "postfix" ∧
   UnixSockPath (General c) ≠ "" ∧ LockFilePath (General c) ≠ "" ∧
   ListenPath (General c) ≠ "" ∧ ListenAddress (General c) ≠ "" ∧
   PersistenceType (Persistence c) = "boltdb" ∧
   DatabasePath (Persistence c) ≠ "" ∧
   Domain (PostfixConfig c) ≠ "" ∧ MapFilePath (PostfixConfig c) ≠ "") ∧
  (ValidConfig c = true →
   ∃ w, mailSystemWriterFromConfig c = Some w ∧
        domain w = Domain (PostfixConfig c) ∧ domain w ≠ "" ∧
        mapFilename w = MapFilePath (PostfixConfig c) ∧ mapFilename w ≠ "") ∧
  ValidConfig defaultConfig = false.
Proof.
  assert (ValidConfig c = true ↔
    MailSystem (General c) = "postfix" ∧
    UnixSockPath (General c) ≠ "" ∧ LockFilePath (General c) ≠ "" ∧
    ListenPath (General c) ≠ "" ∧ ListenAddress (General c) ≠ "" ∧
    PersistenceType (Persistence c) = "boltdb" ∧
    DatabasePath (Persistence c) ≠ "" ∧
    Domain (PostfixConfig c) ≠ "" ∧ MapFilePath (PostfixConfig c) ≠ "") as Hiff.
  { unfold ValidConfig.
    destruct (String.eqb_spec (MailSystem (General c)) "postfix");
    destruct (String.eqb_spec (UnixSockPath (General c)) "");
    destruct (String.eqb_spec (LockFilePath (General c)) "");
    destruct (String.eqb_spec (ListenPath (General c)) "");
    destruct (String.eqb_spec (ListenAddress (General c)) "");
    destruct (String.eqb_spec (PersistenceType (Persistence c)) "boltdb");
    destruct (String.eqb_spec (DatabasePath (Persistence c)) "");
    destruct (String.eqb_spec (Domain (PostfixConfig c)) "");
    destruct (String.eqb_spec (MapFilePath (PostfixConfig c)) "");
    simpl; split; try done; intros (? & ? & ? & ? & ? & ? & ? & ? & ?); done. }
  split; [exact Hiff|]. split; [|reflexivity].
  intros Hvalid. apply Hiff in Hvalid as (Hm & _ & _ & _ & _ & _ & _ & Hd & Hp).
  unfold mailSystemWriterFromConfig. rewrite Hm. simpl.
  eexists. split; [reflexivity|]. done.
Qed.

Lemma ValidConfig_writer_witness :
  ∃ w, mailSystemWriterFromConfig sample_config = Some w ∧
       domain w = Domain (PostfixConfig sample_config) ∧ domain w ≠ "" ∧
       mapFilename w = MapFilePath (PostfixConfig sample_config) ∧
       mapFilename w ≠ "".
Proof.
  apply (proj1 (proj2 (ValidConfig_writer sample_config))). reflexivity.
Defined.

(** ** From the command line to the dispatcher *)

Lemma space_width_ascii (c : ascii) (rest : string) :
  isSpace c = false → (nat_of_ascii c < 128)%nat →
  space_width (String c rest) = 0%nat.
Proof.
  intros Hc Hn.
  assert (isSpace2 c = λ _, false) as H2.
  { unfold isSpace2. replace (nat_of_ascii c =? 194)%nat with false; [done|].
    symmetry. apply Nat.eqb_neq. lia. }
  assert (isSpace3 c = λ _ _, false) as H3.
  { unfold isSpace3.
    replace (nat_of_ascii c =? 225)%nat with false
      by (symmetry; apply Nat.eqb_neq; lia).
    replace (nat_of_ascii c =? 226)%nat with false
      by (symmetry; apply Nat.eqb_neq; lia).
    replace (nat_of_ascii c =? 227)%nat with false
      by (symmetry; apply Nat.eqb_neq; lia).
    done. }
  destruct rest as [|c2 [|c3 r]]; cbn [space_width]; by rewrite Hc, ?H2, ?H3.
Qed.

Lemma space_width_space (c : ascii) (rest : string) :
  isSpace c = true → space_width (String c rest) = 1%nat.
Proof.
  intros Hc. destruct rest as [|c2 [|c3 r]]; cbn [space_width]; by rewrite Hc.
Qed.

Lemma fields_from_word (cur : list ascii) (w s : string) :
  Forall (λ c, isSpace c = false ∧ (nat_of_ascii c < 128)%nat)
    (list_ascii_of_string w) →
  fields_from cur (w +:+ s)
  = fields_from (rev (list_ascii_of_string w) ++ cur) s.
Proof.
  revert cur. induction w as [|c w IH]; intros cur Hw; [done|].
  inversion Hw as [|? ? [Hc Hn] Hw']; subst.
  rewrite append_cons, fields_from_cons.
  rewrite (space_width_ascii _ _ Hc Hn). cbv iota.
  rewrite (IH _ Hw'). simpl. by rewrite <- app_assoc.
Qed.

Lemma flush_word (w : string) (rest : list string) :
  w ≠ "" → flush (rev (list_ascii_of_string w) ++ []) rest = w :: rest.
Proof.
  intros Hw. rewrite app_nil_r. unfold flush.
  destruct (rev (list_ascii_of_string w)) as [|c l] eqn:E.
  - apply (f_equal (@rev ascii)) in E. rewrite rev_involutive in E.
    simpl in E. apply (f_equal string_of_list_ascii) in E.
    rewrite string_of_list_ascii_of_string in E. done.
  - rewrite <- E, rev_involutive. by rewrite string_of_list_ascii_of_string.
Qed.

Lemma append_empty_r (a : string) : a +:+ "" = a.
Proof.
  induction a as [|x a IH]; [done|].
  change (String x a +:+ "") with (String x (a +:+ "")). by rewrite IH.
Qed.

Lemma Fields_Join (ws : list string) :
  Forall ascii_word ws → Fields (Join ws " ") = ws.
Proof.
  induction 1 as [|w ws [Hw Hns] Hws IH]; [done|].
  cbn [Join]. destruct ws as [|w' ws'].
  - unfold Fields. rewrite <- (append_empty_r w) at 1.
    rewrite fields_from_word by done. simpl. by apply flush_word.
  - unfold Fields. rewrite fields_from_word by done.
    change (" " +:+ Join (w' :: ws') " ")
      with (String " " (Join (w' :: ws') " ")).
    rewrite fields_from_cons, space_width_space by done. cbv iota.
    rewrite flush_word by done. f_equal. exact IH.
Qed.

(** X22.  The command line joins its words with single spaces before it
    hands them to [SendCommand]; when each word is a non-empty word of
    ASCII characters without white space, [strings.Fields] gives the
    same words back, and [SendCommand] decides on them as they were
    typed: it fails, waits or enqueues as the list of words says. *)
Theorem SendCommand_of_joined_words (source : string) (words : list string) :
  Forall ascii_word words →
  Fields (Join words " ") = words ∧
  SendCommand_send source (Join words " ") = dispatch source words.
Proof.
  intros Hwords.
  assert (Fields (Join words " ") = words) as Hf.
  { by apply Fields_Join. }
  split; [done|]. unfold SendCommand_send. by rewrite Hf.
Qed.

Lemma SendCommand_of_joined_words_witness :
  Fields (Join ["delete"; "handle"; "testhandle1"; "testsecret"] " ")
  = ["delete"; "handle"; "testhandle1"; "testsecret"] ∧
  SendCommand_send "rpc"
    (Join ["delete"; "handle"; "testhandle1"; "testsecret"] " ")
  = dispatch "rpc" ["delete"; "handle"; "testhandle1"; "testsecret"].
Proof.
  apply (SendCommand_of_joined_words "rpc"
           ["delete"; "handle"; "testhandle1"; "testsecret"]).
  repeat constructor; discriminate.
Defined.
